(** * Verification of the rusterix runtime and code generator.

    Shallow embedding of
    - [rusterix-core/src/fspec.rs]       (FSPEC bitmap),
    - [rusterix-core/src/bit_writer.rs]  and [bit_reader.rs] (bit streams),
    - [rasterix-codegen/src/transform]   (schema validation),
    - [rusterix-codegen/src/transform/lowerer.rs] (field lowering),
    - [rusterix-codegen/src/generate]    (the code emitted for items,
      records and data blocks, given by its run-time behaviour).

    Unsigned machine integers are [Z] values; a Rust panic (failed
    assertion, arithmetic overflow under overflow checks, shift overflow)
    is [None] in an option result. *)

From Stdlib Require Import Bool Btauto Ascii String ZArith List Lia.
Import ListNotations.
Open Scope Z_scope.

Notation "x <- a ;; b" :=
  (match a with Some x => b | None => None end)
  (at level 60, right associativity).

Notation "' pat <- a ;; b" :=
  (match a with Some pat => b | None => None end)
  (at level 60, pat pattern, right associativity).

(** ** Build profiles *)

(** Integer overflow in Rust code panics when overflow checks are on (the
    default of Cargo's [dev] profile) and wraps around when they are off
    (the default of the [release] profile, build scripts included).
    [debug_assert!] follows the same switch: it is checked in [dev] builds
    and compiled out of [release] builds. *)
Inductive profile := Debug | Release.

(** ** Generic list helpers *)

(** [v[i] = f(v[i])] on a vector; out of range the vector is unchanged
    (the callers below only use in-range indices). *)
Fixpoint update_nth {A} (i : nat) (f : A -> A) (l : list A) : list A :=
  match l, i with
  | [], _ => []
  | x :: r, O => f x :: r
  | x :: r, S i' => x :: update_nth i' f r
  end.

(** [for i in 0..n { v[i] = f(v[i]) }] *)
Fixpoint map_firstn {A} (n : nat) (f : A -> A) (l : list A) : list A :=
  match l, n with
  | [], _ => []
  | _, O => l
  | x :: r, S n' => f x :: map_firstn n' f r
  end.

(** ** FSPEC bitmap ([rusterix-core/src/fspec.rs]) *)
Module Fspec.

Record Fspec := mkFspec { bytes : list Z }.

(** [Fspec::new]: a single zero byte. *)
Definition new : Fspec := mkFspec [0].

(** [Fspec::write]: the stored bytes, verbatim. *)
Definition write (f : Fspec) : list Z := bytes f.

(** [Fspec::read] over a byte source given as a list: read one byte at a
    time until the FX bit (LSB) is 0. [None] is the [Io] error of a short
    read; the second component is the unread rest of the source. *)
Fixpoint read_bytes (input : list Z) : option (list Z * list Z) :=
  match input with
  | [] => None
  | b :: rest =>
      if Z.land b 1 =? 0 then Some ([b], rest)
      else
        r <- read_bytes rest ;;
        let '(bs, rest') := r in Some (b :: bs, rest')
  end.

Definition read (input : list Z) : option (Fspec * list Z) :=
  r <- read_bytes input ;;
  let '(bs, rest) := r in Some (mkFspec bs, rest).

(** [Fspec::is_set]: [bytes.get(byte).map(|b| b & (1 << (7 - bit)) != 0)
    .unwrap_or(false)]. The subtraction [7 - bit] on [u8] panics
    ([None]) when [bit > 7]; it is only evaluated for an in-range byte. *)
Definition is_set (f : Fspec) (byte bit : nat) : option bool :=
  match nth_error (bytes f) byte with
  | None => Some false
  | Some b =>
      if (7 <? bit)%nat then None
      else Some (negb (Z.land b (Z.shiftl 1 (Z.of_nat (7 - bit))) =? 0))
  end.

(** [Fspec::set]: grow with zero bytes up to index [byte] inclusive, set
    bit [1 << (7 - bit)] of that byte, then set the FX bit on every
    preceding byte. *)
Definition grow (l : list Z) (byte : nat) : list Z :=
  l ++ repeat 0 (S byte - length l).

Definition set (f : Fspec) (byte bit : nat) : option Fspec :=
  let grown := grow (bytes f) byte in
  if (7 <? bit)%nat then None
  else
    let marked :=
      update_nth byte (fun b => Z.lor b (Z.shiftl 1 (Z.of_nat (7 - bit)))) grown in
    Some (mkFspec (map_firstn byte (fun b => Z.lor b 1) marked)).

(** A sequence of [set] calls, in order. *)
Fixpoint set_all (f : Fspec) (ps : list (nat * nat)) : option Fspec :=
  match ps with
  | [] => Some f
  | (b, k) :: ps' => f' <- set f b k ;; set_all f' ps'
  end.

(** Bit [j] (counted from the LSB) of stored byte [i]; [false] past the end. *)
Definition bitat (f : Fspec) (i j : nat) : bool :=
  match nth_error (bytes f) i with
  | Some x => Z.testbit x (Z.of_nat j)
  | None => false
  end.

(** *** Lemmas on the list helpers *)

Lemma nth_error_update_nth {A} (g : A -> A) l : forall b i,
  nth_error (update_nth b g l) i =
  if Nat.eqb i b then option_map g (nth_error l i) else nth_error l i.
Proof.
  induction l as [|x r IH]; intros b i.
  - destruct b, i; simpl; try reflexivity; destruct (Nat.eqb _ _); reflexivity.
  - destruct b, i; simpl; try reflexivity. rewrite IH. reflexivity.
Qed.

Lemma length_update_nth {A} (g : A -> A) l : forall b,
  length (update_nth b g l) = length l.
Proof. induction l; intros [|b]; simpl; auto. Qed.

Lemma nth_error_map_firstn {A} (g : A -> A) l : forall n i,
  nth_error (map_firstn n g l) i =
  if Nat.ltb i n then option_map g (nth_error l i) else nth_error l i.
Proof.
  induction l as [|x r IH]; intros n i.
  - destruct n, i; simpl; try reflexivity; destruct (Nat.ltb _ _); reflexivity.
  - destruct n, i; simpl; try reflexivity. rewrite IH. reflexivity.
Qed.

Lemma length_map_firstn {A} (g : A -> A) l : forall n,
  length (map_firstn n g l) = length l.
Proof. induction l; intros [|n]; simpl; auto. Qed.

Lemma nth_error_app_repeat (l : list Z) m i :
  nth_error (l ++ repeat 0 m) i =
  if Nat.ltb i (length l) then nth_error l i
  else if Nat.ltb i (length l + m) then Some 0 else None.
Proof.
  destruct (Nat.ltb_spec i (length l)).
  - rewrite nth_error_app1; auto.
  - rewrite nth_error_app2 by lia.
    destruct (Nat.ltb_spec i (length l + m)).
    + rewrite nth_error_repeat; auto; lia.
    + apply nth_error_None. rewrite repeat_length. lia.
Qed.

Lemma testbit_shiftl_1 (n j : nat) :
  Z.testbit (Z.shiftl 1 (Z.of_nat n)) (Z.of_nat j) = Nat.eqb j n.
Proof.
  rewrite Z.shiftl_1_l, Z.pow2_bits_eqb by lia.
  destruct (Nat.eqb_spec j n); apply Z.eqb_eq || apply Z.eqb_neq; lia.
Qed.

Lemma testbit_1 (j : nat) : Z.testbit 1 (Z.of_nat j) = Nat.eqb j 0.
Proof. apply (testbit_shiftl_1 0 j). Qed.

Lemma land_shiftl_1 (b : Z) (n : nat) :
  negb (Z.land b (Z.shiftl 1 (Z.of_nat n)) =? 0) = Z.testbit b (Z.of_nat n).
Proof.
  destruct (Z.testbit b (Z.of_nat n)) eqn:E.
  - destruct (Z.eqb_spec (Z.land b (Z.shiftl 1 (Z.of_nat n))) 0) as [H|H];
      [|reflexivity].
    exfalso. assert (T := f_equal (fun z => Z.testbit z (Z.of_nat n)) H).
    simpl in T. rewrite Z.land_spec, E, testbit_shiftl_1, Nat.eqb_refl in T.
    rewrite Z.bits_0 in T. discriminate.
  - replace (Z.land b (Z.shiftl 1 (Z.of_nat n))) with 0; [reflexivity|].
    symmetry. apply Z.bits_inj'. intros m Hm.
    rewrite Z.land_spec, Z.bits_0.
    replace m with (Z.of_nat (Z.to_nat m)) by lia.
    rewrite testbit_shiftl_1.
    destruct (Nat.eqb_spec (Z.to_nat m) n) as [->|]; [rewrite E|]; btauto.
Qed.

(** *** [is_set] and [set] in terms of [bitat] *)

Lemma is_set_bitat f i k : (k <= 7)%nat -> is_set f i k = Some (bitat f i (7 - k)).
Proof.
  intros Hk. unfold is_set, bitat.
  destruct (nth_error (bytes f) i); [|reflexivity].
  destruct (Nat.ltb_spec 7 k); [lia|]. now rewrite land_shiftl_1.
Qed.

Lemma set_some f b k : (k <= 7)%nat -> exists f', set f b k = Some f'.
Proof.
  intros Hk. unfold set. destruct (Nat.ltb_spec 7 k); [lia|]. eauto.
Qed.

Lemma set_length f b k f' : set f b k = Some f' ->
  length (bytes f') = Nat.max (length (bytes f)) (S b).
Proof.
  unfold set. destruct (Nat.ltb _ _); intros H; [discriminate|injection H as <-].
  cbn [bytes]. rewrite length_map_firstn, length_update_nth.
  unfold grow. rewrite length_app, repeat_length.
  destruct (length (bytes f)); simpl; lia.
Qed.

Lemma set_bitat f b k f' i j : set f b k = Some f' ->
  bitat f' i j =
  bitat f i j || (Nat.eqb i b && Nat.eqb j (7 - k)) || (Nat.ltb i b && Nat.eqb j 0).
Proof.
  unfold set. destruct (Nat.ltb_spec 7 k) as [_|Hk]; intros H;
    [discriminate|injection H as <-].
  unfold bitat; cbn [bytes].
  rewrite nth_error_map_firstn, nth_error_update_nth. unfold grow.
  rewrite nth_error_app_repeat.
  destruct (Nat.ltb_spec i (length (bytes f))) as [Hi|Hi].
  - destruct (nth_error (bytes f) i) as [x|] eqn:E;
      [|apply nth_error_None in E; lia].
    destruct (Nat.ltb_spec i b), (Nat.eqb_spec i b); simpl; try lia;
      repeat rewrite Z.lor_spec; rewrite ?testbit_shiftl_1, ?testbit_1; btauto.
  - assert (Hn : nth_error (bytes f) i = None) by (apply nth_error_None; lia).
    rewrite Hn.
    destruct (Nat.ltb_spec i (length (bytes f) + (S b - length (bytes f)))).
    + destruct (Nat.ltb_spec i b), (Nat.eqb_spec i b); simpl; try lia;
        repeat rewrite Z.lor_spec; rewrite ?testbit_shiftl_1, ?testbit_1, ?Z.bits_0;
        btauto.
    + destruct (Nat.ltb_spec i b), (Nat.eqb_spec i b); simpl; try lia; reflexivity.
Qed.

Lemma set_data_bitat f b k f' i k' : (k <= 6)%nat -> (k' <= 6)%nat ->
  set f b k = Some f' ->
  bitat f' i (7 - k') = bitat f i (7 - k') || (Nat.eqb i b && Nat.eqb k' k).
Proof.
  intros Hk Hk' H. rewrite (set_bitat _ _ _ _ _ _ H).
  destruct (Nat.eqb_spec (7 - k') (7 - k)), (Nat.eqb_spec k' k),
    (Nat.eqb_spec (7 - k') 0); try lia; btauto.
Qed.

Lemma bitat_new i j : bitat new i j = false.
Proof.
  unfold bitat. destruct i as [|[|i]]; simpl; try reflexivity. apply Z.testbit_0_l.
Qed.

Lemma set_all_data_bitat ps : forall f f' i k',
  Forall (fun p => (snd p <= 6)%nat) ps -> (k' <= 6)%nat ->
  set_all f ps = Some f' ->
  bitat f' i (7 - k') =
  bitat f i (7 - k') || existsb (fun p => Nat.eqb i (fst p) && Nat.eqb k' (snd p)) ps.
Proof.
  induction ps as [|[b k] ps IH]; intros f f' i k' Hps Hk' H;
    cbn [set_all existsb fst snd] in *.
  - injection H as <-. btauto.
  - inversion Hps as [|? ? Hk Hps']; subst; simpl in Hk.
    destruct (set f b k) as [f1|] eqn:E; [|discriminate].
    rewrite (IH _ _ _ _ Hps' Hk' H), (set_data_bitat _ _ _ _ _ _ Hk Hk' E). btauto.
Qed.

Lemma set_all_some ps : forall f,
  Forall (fun p => (snd p <= 7)%nat) ps -> exists f', set_all f ps = Some f'.
Proof.
  induction ps as [|[b k] ps IH]; intros f Hps; simpl; eauto.
  inversion Hps; subst. destruct (set_some f b k) as [f1 E]; auto.
  rewrite E. auto.
Qed.

(** The FX chain: byte [i] has its LSB set exactly when it is not the last. *)
Definition fx_ok (f : Fspec) : Prop :=
  bytes f <> [] /\ forall i, bitat f i 0 = Nat.ltb (S i) (length (bytes f)).

Lemma fx_ok_new : fx_ok new.
Proof.
  split; [discriminate|]. intros i. rewrite bitat_new.
  destruct i; reflexivity.
Qed.

Lemma fx_ok_set f b k f' : (k <= 6)%nat -> fx_ok f -> set f b k = Some f' -> fx_ok f'.
Proof.
  intros Hk [Hne Hfx] H. split.
  - intros E. apply (f_equal (@length Z)) in E.
    rewrite (set_length _ _ _ _ H) in E. simpl in E. lia.
  - intros i. rewrite (set_bitat _ _ _ _ _ _ H), Hfx, (set_length _ _ _ _ H).
    destruct (Nat.eqb_spec 0 (7 - k)); [lia|].
    destruct (Nat.ltb_spec (S i) (length (bytes f))),
      (Nat.ltb_spec (S i) (Nat.max (length (bytes f)) (S b))),
      (Nat.ltb_spec i b); simpl; try reflexivity; lia.
Qed.

Lemma fx_ok_set_all ps : forall f f',
  Forall (fun p => (snd p <= 6)%nat) ps -> fx_ok f -> set_all f ps = Some f' -> fx_ok f'.
Proof.
  induction ps as [|[b k] ps IH]; intros f f' Hps Hf H; simpl in *.
  - now injection H as <-.
  - inversion Hps as [|? ? Hk Hps']; subst.
    destruct (set f b k) as [f1|] eqn:E; [|discriminate].
    apply (IH f1 f' Hps'); [|exact H]. exact (fx_ok_set _ _ _ _ Hk Hf E).
Qed.

Lemma land_1_eqb x : (Z.land x 1 =? 0) = negb (Z.testbit x 0).
Proof.
  pose proof (land_shiftl_1 x 0) as H.
  change (Z.shiftl 1 (Z.of_nat 0)) with 1 in H. change (Z.of_nat 0) with 0 in H.
  now rewrite <- H, negb_involutive.
Qed.

(** A byte list whose FX chain is well formed is read back whole. *)
Lemma read_bytes_fx (l : list Z) rest :
  l <> [] ->
  (forall i, match nth_error l i with
             | Some x => Z.testbit x 0
             | None => false end = Nat.ltb (S i) (length l)) ->
  read_bytes (l ++ rest) = Some (l, rest).
Proof.
  induction l as [|x r IH]; intros Hne Hfx; [congruence|].
  simpl. rewrite land_1_eqb.
  assert (H0 := Hfx 0%nat). cbn [nth_error] in H0. rewrite H0.
  destruct r as [|y r'].
  - reflexivity.
  - cbn [negb Nat.ltb Nat.leb length].
    rewrite IH; [reflexivity|discriminate|].
    intros i. apply (Hfx (S i)).
Qed.

Lemma read_bytes_fx_ok input bs rest :
  read_bytes input = Some (bs, rest) ->
  fx_ok (mkFspec bs) /\ input = bs ++ rest.
Proof.
  revert bs rest. induction input as [|x r IH]; intros bs rest H; simpl in H;
    [discriminate|].
  rewrite land_1_eqb in H. destruct (Z.testbit x 0) eqn:Ex; simpl in H;
    rewrite Z.bit0_odd in Ex.
  - destruct (read_bytes r) as [[bs' rest']|] eqn:E; [|discriminate].
    injection H as <- <-. destruct (IH _ _ eq_refl) as [[Hne Hfx] ->].
    split; [|reflexivity]. split; [discriminate|].
    intros [|i]; unfold bitat in *; simpl in *.
    + rewrite Ex. destruct bs'; [congruence|reflexivity].
    + apply Hfx.
  - injection H as <- <-. split; [|reflexivity]. split; [discriminate|].
    intros [|[|i]]; unfold bitat; simpl; try reflexivity. now rewrite Ex.
Qed.

Lemma bytes_ext (f g : Fspec) :
  length (bytes f) = length (bytes g) ->
  (forall i j, bitat f i j = bitat g i j) -> f = g.
Proof.
  intros Hl Hb. destruct f as [l], g as [l']. f_equal. simpl in *.
  apply nth_error_ext. intros i.
  destruct (nth_error l i) as [x|] eqn:E1, (nth_error l' i) as [y|] eqn:E2.
  - f_equal. apply Z.bits_inj'. intros m Hm.
    specialize (Hb i (Z.to_nat m)). unfold bitat in Hb. simpl in Hb.
    rewrite E1, E2, Z2Nat.id in Hb by lia. exact Hb.
  - apply nth_error_None in E2. assert (i < length l)%nat by
      (apply nth_error_Some; congruence). lia.
  - apply nth_error_None in E1. assert (i < length l')%nat by
      (apply nth_error_Some; congruence). lia.
  - reflexivity.
Qed.

(** FX bit of every FSPEC produced by [read]. *)
Lemma read_fx_ok input f rest : read input = Some (f, rest) -> fx_ok f.
Proof.
  unfold read. destruct (read_bytes input) as [[bs r]|] eqn:E; [|discriminate].
  intros H. injection H as <- <-. exact (proj1 (read_bytes_fx_ok _ _ _ E)).
Qed.

End Fspec.

(** ** Bit streams ([rusterix-core/src/bit_writer.rs], [bit_reader.rs]) *)
Module BitIO.

(** The [n] low bits of [v], most significant first. *)
Fixpoint bits_msb (v : Z) (n : nat) : list bool :=
  match n with
  | O => []
  | S n' => Z.testbit v (Z.of_nat n') :: bits_msb v n'
  end.

(** The bits of a byte stream, MSB first within each byte. *)
Definition stream_bits (bs : list Z) : list bool := flat_map (fun b => bits_msb b 8) bs.

(** Value of a bit list read MSB first, starting from accumulator [acc]. *)
Definition bits_val_from (acc : Z) (bs : list bool) : Z :=
  fold_left (fun a b => 2 * a + Z.b2z b) bs acc.

Definition bits_val (bs : list bool) : Z := bits_val_from 0 bs.

(** *** [BitWriter] over a [Vec<u8>] sink *)

Record BitWriter := mkWriter { out : list Z; buffer : Z; bits_filled : nat }.

Definition writer_new : BitWriter := mkWriter [] 0 0.

(** One iteration of the [write_bits] loop: [buffer = (buffer << 1) | bit]
    on [u8]; a completed byte is written to the sink. *)
Definition push_bit (w : BitWriter) (bit : bool) : BitWriter :=
  let buf := Z.lor (Z.land (Z.shiftl (buffer w) 1) 255) (Z.b2z bit) in
  let filled := S (bits_filled w) in
  if Nat.eqb filled 8 then mkWriter (out w ++ [buf]) 0 0
  else mkWriter (out w) buf filled.

(** [for i in (0..count).rev()]: bit [i] of [value] is [(value >> i) & 1];
    a [u64] shift by [i >= 64] panics under overflow checks. (Without them
    the shift amount is taken modulo 64; the statements below that use
    [write_bits] either bound [count] by 64, where both builds agree, or
    are about the checked build.) *)
Fixpoint write_bits_from (value : Z) (i : nat) (w : BitWriter) : option BitWriter :=
  match i with
  | O => Some w
  | S i' =>
      if (64 <=? i')%nat then None
      else write_bits_from value i' (push_bit w (Z.testbit value (Z.of_nat i')))
  end.

Definition write_bits (w : BitWriter) (value : Z) (count : nat) : option BitWriter :=
  write_bits_from value count w.

(** [flush]: pad the partial byte with zeros on the right ([u8] shift). *)
Definition flush (w : BitWriter) : BitWriter :=
  if (0 <? bits_filled w)%nat then
    mkWriter (out w ++ [Z.land (Z.shiftl (buffer w) (Z.of_nat (8 - bits_filled w))) 255]) 0 0
  else w.

(** Byte-level [Write] on the wrapper: [debug_assert!(bits_filled == 0)]
    (a panic in a build with debug assertions, compiled out otherwise),
    then the bytes go straight to the sink, past the bit buffer. *)
Definition write_bytes (p : profile) (w : BitWriter) (bs : list Z) : option BitWriter :=
  match p, Nat.eqb (bits_filled w) 0 with
  | Debug, false => None
  | _, _ => Some (mkWriter (out w ++ bs) (buffer w) (bits_filled w))
  end.

Definition is_byte_aligned (w : BitWriter) : bool := Nat.eqb (bits_filled w) 0.

(** All bits written so far: the sink, then the buffered bits. *)
Definition writer_bits (w : BitWriter) : list bool :=
  stream_bits (out w) ++ bits_msb (buffer w) (bits_filled w).

Definition writer_wf (w : BitWriter) : Prop :=
  (bits_filled w < 8)%nat /\ 0 <= buffer w < 2 ^ Z.of_nat (bits_filled w) /\
  Forall (fun b => 0 <= b < 256) (out w).

(** *** [BitReader] over a byte source *)

Record BitReader := mkReader { input : list Z; rbuffer : Z; bits_left : nat }.

Definition reader_new (bs : list Z) : BitReader := mkReader bs 0 0.

(** [if self.bits_left == 0 { read_exact(&mut byte)?; ... }]: a short
    read is the [Io] error, [None] here. *)
Definition refill (r : BitReader) : option BitReader :=
  if Nat.eqb (bits_left r) 0 then
    match input r with
    | [] => None
    | b :: rest => Some (mkReader rest b 8)
    end
  else Some r.

(** [read_bits]: fetch a byte when the buffer is empty ([None] is the [Io]
    error of a short read), take bit [bits_left - 1], and accumulate with
    [value = (value << 1) | bit] on [u64]. *)
Fixpoint read_loop (n : nat) (value : Z) (r : BitReader) : option (Z * BitReader) :=
  match n with
  | O => Some (value, r)
  | S n' =>
      r1 <- refill r ;;
      let left := (bits_left r1 - 1)%nat in
      let bit := Z.land (Z.shiftr (rbuffer r1) (Z.of_nat left)) 1 in
      read_loop n' (Z.lor (Z.land (Z.shiftl value 1) (Z.ones 64)) bit)
        (mkReader (input r1) (rbuffer r1) left)
  end.

Definition read_bits (r : BitReader) (count : nat) : option (Z * BitReader) :=
  read_loop count 0 r.

(** Byte-level [Read] on the wrapper: [debug_assert!(bits_left == 0)]
    (as for the writer), then the bytes come straight from the source,
    past the bit buffer; [read_exact] fails on a short source. *)
Definition read_bytes (p : profile) (r : BitReader) (n : nat) : option (list Z * BitReader) :=
  match p, Nat.eqb (bits_left r) 0 with
  | Debug, false => None
  | _, _ =>
      if (n <=? length (input r))%nat
      then Some (firstn n (input r), mkReader (skipn n (input r)) (rbuffer r) (bits_left r))
      else None
  end.

Definition is_reader_aligned (r : BitReader) : bool := Nat.eqb (bits_left r) 0.

(** The bits still to be read: the buffered ones, then the source. *)
Definition reader_bits (r : BitReader) : list bool :=
  bits_msb (rbuffer r) (bits_left r) ++ stream_bits (input r).

(** A sequence of [write_bits] calls, and of [read_bits] calls. *)
Fixpoint write_all (w : BitWriter) (ws : list (Z * nat)) : option BitWriter :=
  match ws with
  | [] => Some w
  | (v, n) :: ws' => w' <- write_bits w v n ;; write_all w' ws'
  end.

Fixpoint read_all (r : BitReader) (ns : list nat) : option (list Z) :=
  match ns with
  | [] => Some []
  | n :: ns' =>
      p <- read_bits r n ;;
      let '(v, r') := p in
      vs <- read_all r' ns' ;; Some (v :: vs)
  end.

(** Bytes produced by writes on a fresh writer followed by [flush]. *)
Definition encode_writes (ws : list (Z * nat)) : option (list Z) :=
  w <- write_all writer_new ws ;; Some (out (flush w)).

(** *** Bit-level abstraction lemmas *)

Lemma length_bits_msb v n : length (bits_msb v n) = n.
Proof. induction n; simpl; auto. Qed.

Lemma stream_bits_app l1 l2 : stream_bits (l1 ++ l2) = stream_bits l1 ++ stream_bits l2.
Proof. unfold stream_bits. apply flat_map_app. Qed.

Lemma lor_double_b2z x b : 0 <= x -> Z.lor (2 * x) (Z.b2z b) = 2 * x + Z.b2z b.
Proof.
  intros Hx.
  assert (Eb : Z.b2z b = 2 * 0 + Z.b2z b) by lia.
  apply Z.bits_inj'. intros n Hn. rewrite Z.lor_spec.
  destruct (Z.eq_dec n 0) as [->|Hn0].
  - rewrite Z.testbit_0_r, Z.testbit_even_0, Eb, Z.testbit_0_r. reflexivity.
  - replace n with (Z.succ (Z.pred n)) by lia.
    rewrite Z.testbit_succ_r, Z.testbit_even_succ by lia.
    rewrite Eb, Z.testbit_succ_r, Z.bits_0, orb_false_r by lia.
    reflexivity.
Qed.

Lemma bits_msb_snoc v b n : bits_msb (2 * v + Z.b2z b) (S n) = bits_msb v n ++ [b].
Proof.
  induction n as [|n IH].
  - cbn [bits_msb Z.of_nat app]. rewrite Z.testbit_0_r. reflexivity.
  - change (bits_msb (2 * v + Z.b2z b) (S (S n)))
      with (Z.testbit (2 * v + Z.b2z b) (Z.of_nat (S n)) :: bits_msb (2 * v + Z.b2z b) (S n)).
    rewrite IH, Nat2Z.inj_succ, Z.testbit_succ_r by lia. reflexivity.
Qed.

Lemma bits_msb_shiftl v k n :
  bits_msb (Z.shiftl v (Z.of_nat k)) (n + k) = bits_msb v n ++ repeat false k.
Proof.
  induction k as [|k IH].
  - rewrite Nat.add_0_r, Z.shiftl_0_r, app_nil_r. reflexivity.
  - rewrite Nat.add_succ_r, Nat2Z.inj_succ, <- Z.add_1_r, <- Z.shiftl_shiftl by lia.
    rewrite Z.shiftl_mul_pow2 by lia.
    replace (Z.shiftl v (Z.of_nat k) * 2 ^ 1) with (2 * Z.shiftl v (Z.of_nat k) + Z.b2z false)
      by (cbn [Z.b2z]; rewrite Z.pow_1_r; lia).
    rewrite bits_msb_snoc, IH, <- app_assoc. f_equal.
    change [false] with (repeat false 1). rewrite <- repeat_app, Nat.add_1_r. reflexivity.
Qed.

Lemma bits_val_from_acc acc l :
  bits_val_from acc l = acc * 2 ^ Z.of_nat (length l) + bits_val l.
Proof.
  unfold bits_val. revert acc. induction l as [|b l IH]; intros acc.
  - cbn. lia.
  - unfold bits_val_from in *. cbn [fold_left length].
    rewrite (IH (2 * acc + Z.b2z b)), (IH (2 * 0 + Z.b2z b)).
    rewrite Nat2Z.inj_succ, Z.pow_succ_r by lia. lia.
Qed.

Lemma mod_pow2_succ v n :
  0 <= n -> v mod 2 ^ (Z.succ n) = Z.b2z (Z.testbit v n) * 2 ^ n + v mod 2 ^ n.
Proof.
  intros Hn. rewrite Z.testbit_spec' by lia.
  assert (Hp : 0 < 2 ^ n) by (apply Z.pow_pos_nonneg; lia).
  rewrite Z.pow_succ_r by lia.
  pose proof (Z.div_mod v (2 ^ n) ltac:(lia)) as E1.
  pose proof (Z.mod_pos_bound v (2 ^ n) Hp) as B1.
  pose proof (Z.div_mod (v / 2 ^ n) 2 ltac:(lia)) as E2.
  pose proof (Z.mod_pos_bound (v / 2 ^ n) 2 ltac:(lia)) as B2.
  symmetry. apply (Z.mod_unique v (2 * 2 ^ n) (v / 2 ^ n / 2)).
  - left. nia.
  - nia.
Qed.

Lemma bits_val_bits_msb v n : bits_val (bits_msb v n) = v mod 2 ^ Z.of_nat n.
Proof.
  induction n as [|n IH].
  - cbn. rewrite Z.mod_1_r. reflexivity.
  - cbn [bits_msb]. unfold bits_val at 1. unfold bits_val_from. cbn [fold_left].
    fold (bits_val_from (2 * 0 + Z.b2z (Z.testbit v (Z.of_nat n))) (bits_msb v n)).
    rewrite bits_val_from_acc, length_bits_msb, IH, Nat2Z.inj_succ, mod_pow2_succ by lia.
    lia.
Qed.

(** *** Writer and reader as bit queues *)

Lemma pow2_mono a b : (a <= b)%nat -> 2 ^ Z.of_nat a <= 2 ^ Z.of_nat b.
Proof. intros H. apply Z.pow_le_mono_r; lia. Qed.

Lemma push_bit_spec w b :
  writer_wf w -> writer_wf (push_bit w b) /\ writer_bits (push_bit w b) = writer_bits w ++ [b].
Proof.
  destruct w as [o buf f]. unfold writer_wf, push_bit, writer_bits. cbn [out buffer bits_filled].
  intros [Hf [Hb Ho]].
  pose proof (pow2_mono f 7 ltac:(lia)) as Hp7. change (2 ^ Z.of_nat 7) with 128 in Hp7.
  assert (Hbuf : Z.lor (Z.land (Z.shiftl buf 1) 255) (Z.b2z b) = 2 * buf + Z.b2z b).
  { rewrite Z.shiftl_mul_pow2 by lia. change 255 with (Z.ones 8).
    rewrite Z.land_ones, Z.mod_small by lia.
    rewrite Z.pow_1_r, Z.mul_comm. apply lor_double_b2z. lia. }
  rewrite Hbuf.
  assert (Hb01 : 0 <= Z.b2z b <= 1) by (destruct b; cbn; lia).
  destruct (Nat.eqb_spec (S f) 8) as [E|E]; cbn [out buffer bits_filled].
  - assert (f = 7%nat) by lia. subst f.
    split.
    + split; [lia|]. split; [cbn; lia|]. apply Forall_app. split; [exact Ho|].
      constructor; [lia|constructor].
    + rewrite stream_bits_app. unfold stream_bits at 2. cbn [flat_map].
      rewrite app_nil_r, bits_msb_snoc. cbn [bits_msb]. rewrite app_nil_r, app_assoc.
      reflexivity.
  - split.
    + split; [lia|]. split; [|exact Ho].
      rewrite Nat2Z.inj_succ, Z.pow_succ_r by lia. lia.
    + rewrite bits_msb_snoc, app_assoc. reflexivity.
Qed.

Lemma write_bits_from_spec v i w :
  (i <= 64)%nat -> writer_wf w ->
  exists w', write_bits_from v i w = Some w' /\ writer_wf w' /\
             writer_bits w' = writer_bits w ++ bits_msb v i.
Proof.
  revert w. induction i as [|i IH]; intros w Hi Hw.
  - exists w. cbn. rewrite app_nil_r. auto.
  - cbn [write_bits_from]. replace (64 <=? i)%nat with false by (symmetry; apply Nat.leb_gt; lia).
    destruct (push_bit_spec w (Z.testbit v (Z.of_nat i)) Hw) as [Hw1 E1].
    destruct (IH _ ltac:(lia) Hw1) as (w' & Ew' & Hw' & Ebits).
    exists w'. split; [exact Ew'|]. split; [exact Hw'|].
    rewrite Ebits, E1, <- app_assoc. reflexivity.
Qed.

Lemma write_all_spec ws w :
  Forall (fun p => (snd p <= 64)%nat) ws -> writer_wf w ->
  exists w', write_all w ws = Some w' /\ writer_wf w' /\
    writer_bits w' = writer_bits w ++ flat_map (fun p => bits_msb (fst p) (snd p)) ws.
Proof.
  revert w. induction ws as [|[v n] ws IH]; intros w Hws Hw.
  - exists w. cbn. rewrite app_nil_r. auto.
  - inversion Hws as [|? ? Hn Hws']; subst. cbn [snd] in Hn.
    destruct (write_bits_from_spec v n w Hn Hw) as (w1 & E1 & Hw1 & B1).
    destruct (IH w1 Hws' Hw1) as (w' & E' & Hw' & B').
    exists w'. cbn [write_all]. unfold write_bits. rewrite E1. cbn.
    split; [exact E'|]. split; [exact Hw'|]. rewrite B', B1, app_assoc. reflexivity.
Qed.

Lemma flush_spec w :
  writer_wf w -> exists pad, stream_bits (out (flush w)) = writer_bits w ++ pad.
Proof.
  destruct w as [o buf f]. unfold writer_wf, flush, writer_bits. cbn [out buffer bits_filled].
  intros [Hf [Hb Ho]].
  destruct (Nat.ltb_spec 0 f) as [Hpos|Hz]; cbn [out].
  - exists (repeat false (8 - f)).
    assert (Hlt : Z.shiftl buf (Z.of_nat (8 - f)) < 2 ^ 8).
    { rewrite Z.shiftl_mul_pow2 by lia.
      replace (2 ^ 8) with (2 ^ Z.of_nat f * 2 ^ Z.of_nat (8 - f)).
      - apply Z.mul_lt_mono_pos_r; [apply Z.pow_pos_nonneg|]; lia.
      - rewrite <- Z.pow_add_r, <- Nat2Z.inj_add by lia.
        replace (f + (8 - f))%nat with 8%nat by lia. reflexivity. }
    assert (Hge : 0 <= Z.shiftl buf (Z.of_nat (8 - f))) by (apply Z.shiftl_nonneg; lia).
    change 255 with (Z.ones 8). rewrite Z.land_ones, Z.mod_small by lia.
    rewrite stream_bits_app. unfold stream_bits at 2. cbn [flat_map]. rewrite app_nil_r.
    rewrite <- app_assoc. f_equal.
    rewrite <- bits_msb_shiftl. f_equal. lia.
  - assert (f = 0%nat) by lia. subst f. exists []. cbn. rewrite !app_nil_r. reflexivity.
Qed.

Lemma land_shiftr_1 x k : 0 <= k -> Z.land (Z.shiftr x k) 1 = Z.b2z (Z.testbit x k).
Proof.
  intros Hk. change 1 with (Z.ones 1). rewrite Z.land_ones, Z.shiftr_div_pow2 by lia.
  rewrite Z.testbit_spec' by lia. reflexivity.
Qed.

Lemma refill_spec r b tl :
  reader_bits r = b :: tl ->
  exists inp buf k, refill r = Some (mkReader inp buf (S k)) /\
    reader_bits (mkReader inp buf (S k)) = reader_bits r.
Proof.
  destruct r as [inp buf left]. unfold refill, reader_bits. cbn [input rbuffer bits_left].
  destruct left as [|k]; cbn [Nat.eqb].
  - destruct inp as [|x rest]; cbn; intros H; [discriminate|].
    exists rest, x, 7%nat. split; reflexivity.
  - intros _. exists inp, buf, k. split; reflexivity.
Qed.

Lemma read_loop_spec n value r bs rest :
  reader_bits r = bs ++ rest -> length bs = n -> 0 <= value ->
  (value + 1) * 2 ^ Z.of_nat n <= 2 ^ 64 ->
  exists r', read_loop n value r = Some (bits_val_from value bs, r') /\ reader_bits r' = rest.
Proof.
  revert value r bs. induction n as [|n IH]; intros value r bs Hr Hl Hv Hb.
  - destruct bs; [|discriminate]. exists r. split; [reflexivity|exact Hr].
  - destruct bs as [|b bs]; [discriminate|]. cbn [length] in Hl. injection Hl as Hl.
    destruct (refill_spec r b (bs ++ rest) Hr) as (inp & buf & k & Er & Eb).
    cbn [read_loop]. rewrite Er. cbn [input rbuffer bits_left].
    replace (S k - 1)%nat with k by lia.
    rewrite Hr in Eb. unfold reader_bits in Eb. cbn [rbuffer bits_left input bits_msb] in Eb.
    injection Eb as Ebit Erest.
    rewrite land_shiftr_1, Ebit by lia.
    rewrite Nat2Z.inj_succ, Z.pow_succ_r in Hb by lia.
    assert (Hp : 1 <= 2 ^ Z.of_nat n) by (apply Z.pow_le_mono_r with (a := 2) (b := 0); lia).
    assert (Hv2 : 0 <= Z.shiftl value 1 < 2 ^ 64) by (rewrite Z.shiftl_mul_pow2; lia || nia).
    rewrite Z.land_ones, Z.mod_small by lia.
    rewrite Z.shiftl_mul_pow2, Z.pow_1_r, Z.mul_comm, lor_double_b2z by lia.
    assert (Hb01 : 0 <= Z.b2z b <= 1) by (destruct b; cbn; lia).
    destruct (IH (2 * value + Z.b2z b) (mkReader inp buf k) bs) as (r' & E' & Hr').
    + unfold reader_bits. cbn [rbuffer bits_left input]. exact Erest.
    + exact Hl.
    + lia.
    + nia.
    + exists r'. split; [exact E'|exact Hr'].
Qed.

Lemma read_all_spec ws r rest :
  Forall (fun p => (snd p <= 64)%nat) ws ->
  reader_bits r = flat_map (fun p => bits_msb (fst p) (snd p)) ws ++ rest ->
  read_all r (map snd ws) = Some (map (fun p => fst p mod 2 ^ Z.of_nat (snd p)) ws).
Proof.
  revert r. induction ws as [|[v n] ws IH]; intros r Hws Hr.
  - reflexivity.
  - inversion Hws as [|? ? Hn Hws']; subst. cbn [snd fst] in *.
    cbn [flat_map fst snd] in Hr. rewrite <- app_assoc in Hr.
    destruct (read_loop_spec n 0 r (bits_msb v n) _ Hr (length_bits_msb v n)) as (r' & E & Hr');
      [lia| rewrite Z.add_0_l, Z.mul_1_l; apply (pow2_mono n 64 Hn) |].
    cbn [read_all map]. unfold read_bits. cbn [snd]. rewrite E. cbv beta iota.
    rewrite (IH r' Hws' Hr'). fold (bits_val (bits_msb v n)). rewrite bits_val_bits_msb.
    reflexivity.
Qed.

(** *** Aligned writers hold whole bytes *)

(** Regroup a bit list into [k] bytes, MSB first. *)
Fixpoint bytes_of_bits (k : nat) (bs : list bool) : list Z :=
  match k with
  | O => []
  | S k' => bits_val (firstn 8 bs) :: bytes_of_bits k' (skipn 8 bs)
  end.

Lemma length_stream_bits o : length (stream_bits o) = (8 * length o)%nat.
Proof.
  induction o as [|x o IH]; [reflexivity|].
  unfold stream_bits in *. cbn [flat_map length]. rewrite length_app, length_bits_msb, IH. lia.
Qed.

Lemma firstn_app_exact {A} (l1 l2 : list A) n : length l1 = n -> firstn n (l1 ++ l2) = l1.
Proof. intros <-. rewrite firstn_app, Nat.sub_diag, firstn_O, app_nil_r, firstn_all. reflexivity. Qed.

Lemma skipn_app_exact {A} (l1 l2 : list A) n : length l1 = n -> skipn n (l1 ++ l2) = l2.
Proof. intros <-. rewrite skipn_app, Nat.sub_diag, skipn_O, skipn_all. reflexivity. Qed.

Lemma bytes_of_stream_bits o rest :
  Forall (fun b => 0 <= b < 256) o -> bytes_of_bits (length o) (stream_bits o ++ rest) = o.
Proof.
  induction o as [|x o IH]; intros Ho; [reflexivity|].
  inversion Ho as [|? ? Hx Ho']; subst.
  unfold stream_bits. cbn [flat_map length bytes_of_bits]. fold (stream_bits o).
  rewrite <- app_assoc.
  rewrite firstn_app_exact, skipn_app_exact by apply length_bits_msb.
  rewrite IH by exact Ho'. f_equal.
  rewrite bits_val_bits_msb. apply Z.mod_small. cbn. lia.
Qed.

Lemma writer_bits_length w :
  length (writer_bits w) = (8 * length (out w) + bits_filled w)%nat.
Proof. unfold writer_bits. rewrite length_app, length_stream_bits, length_bits_msb. lia. Qed.

(** A well-formed writer whose bit count is a multiple of 8 is aligned,
    and its sink holds exactly those bits as bytes. *)
Lemma writer_aligned_out w k :
  writer_wf w -> length (writer_bits w) = (8 * k)%nat ->
  bits_filled w = 0%nat /\ out w = bytes_of_bits k (writer_bits w).
Proof.
  intros [Hf [Hb Ho]] Hl. rewrite writer_bits_length in Hl.
  assert (bits_filled w = 0%nat /\ length (out w) = k) as [Hf0 Hk] by lia.
  split; [exact Hf0|]. unfold writer_bits. rewrite Hf0. cbn [bits_msb].
  subst k. symmetry. apply bytes_of_stream_bits, Ho.
Qed.

Lemma bits_msb_ext v u n :
  (forall i, (i < n)%nat -> Z.testbit v (Z.of_nat i) = Z.testbit u (Z.of_nat i)) ->
  bits_msb v n = bits_msb u n.
Proof.
  induction n as [|n IH]; intros H; [reflexivity|].
  cbn [bits_msb]. rewrite H by lia. f_equal. apply IH. intros i Hi. apply H. lia.
Qed.

Lemma bits_msb_mod v k : bits_msb (v mod 2 ^ Z.of_nat k) k = bits_msb v k.
Proof.
  apply bits_msb_ext. intros i Hi. apply Z.mod_pow2_bits_low. lia.
Qed.

(** The [m + k] low bits of [v] are its high part [v / 2^k] on [m] bits,
    then its low part on [k] bits. *)
Lemma bits_msb_split v m k :
  bits_msb v (m + k) = bits_msb (v / 2 ^ Z.of_nat k) m ++ bits_msb (v mod 2 ^ Z.of_nat k) k.
Proof.
  rewrite bits_msb_mod. induction m as [|m IH]; [reflexivity|].
  cbn [Nat.add bits_msb app]. rewrite IH. f_equal.
  rewrite Z.div_pow2_bits by lia. f_equal. lia.
Qed.

Lemma flat_map_bytes bs :
  flat_map (fun p => bits_msb (fst p) (snd p)) (map (fun b => (b, 8%nat)) bs) = stream_bits bs.
Proof. induction bs as [|b bs IH]; [reflexivity|]. cbn. rewrite IH. reflexivity. Qed.

End BitIO.

(** ** Data-block framing ([rusterix-codegen/src/generate/datablock_gen.rs]) *)
Module DataBlock.
Import BitIO.

Definition add_u16 (p : profile) (a b : Z) : option Z :=
  let s := a + b in
  if s <? 2 ^ 16 then Some s
  else match p with Debug => None | Release => Some (s mod 2 ^ 16) end.

(** [x as u16]: truncation to the low 16 bits, never an error. *)
Definition as_u16 (x : Z) : Z := x mod 2 ^ 16.

(** [let total_len: u16 = 3 + record_buf.len() as u16;] *)
Definition total_len (p : profile) (len : Z) : option Z := add_u16 p 3 (as_u16 len).

(** [DataBlock::encode] once the records have been encoded into
    [record_buf]: CAT on 8 bits, LEN on 16 bits, then every payload byte
    on 8 bits. *)
Definition encode_frame (p : profile) (category_id : Z) (record_buf : list Z)
    (w : BitWriter) : option BitWriter :=
  len <- total_len p (Z.of_nat (length record_buf)) ;;
  w <- write_bits w category_id 8 ;;
  w <- write_bits w len 16 ;;
  write_all w (map (fun b => (b, 8%nat)) record_buf).

Lemma total_len_range p len l : total_len p len = Some l -> 0 <= l < 2 ^ 16.
Proof.
  unfold total_len, add_u16, as_u16. intros H. cbv zeta in H.
  pose proof (Z.mod_pos_bound len (2 ^ 16) ltac:(lia)).
  destruct (Z.ltb_spec (3 + len mod 2 ^ 16) (2 ^ 16)).
  - assert (E : 3 + len mod 2 ^ 16 = l) by congruence. lia.
  - destruct p; [discriminate|]. assert (E : (3 + len mod 2 ^ 16) mod 2 ^ 16 = l) by congruence. subst l. apply Z.mod_pos_bound. lia.
Qed.

End DataBlock.

(** ** Schema validation ([rasterix-codegen/src/transform/ir.rs], [transformer.rs]) *)
Module RasterixIR.
Local Open Scope N_scope.

(** [usize] values are [N] below [2^64]. *)
Inductive IRElement :=
| Field (name : string) (bits : N) (is_string : bool)
| EPB (content : IRElement)
| Enum (name : string) (bits : N) (values : list (string * Z))
| Spare (bits : N).

Record IRPartGroup := mkPartGroup { index : N; elements : list IRElement }.

Inductive IRLayout :=
| Fixed (bytes : N) (elements : list IRElement)
| Explicit (bytes : N) (elements : list IRElement)
| Extended (bytes : N) (part_groups : list IRPartGroup)
| Repetitive (bytes : N) (count : N) (elements : list IRElement)
| Compound (sub_items : list IRSubItem)
with IRSubItem :=
| mkSubItem (sub_index : N) (layout : IRLayout).

Record IRItem := mkItem { id : Z; frn : Z; item_layout : IRLayout }.

Record IRCategory := mkCategory { category_id : Z; items : list IRItem }.

(** [usize] addition and multiplication: a panic ([None]) on overflow with
    overflow checks, a wrap-around without. *)
Definition add_usize (p : profile) (a b : N) : option N :=
  let s := (a + b)%N in
  if (s <? 2 ^ 64)%N then Some s
  else match p with Debug => None | Release => Some (s mod 2 ^ 64)%N end.

Definition mul_usize (p : profile) (a b : N) : option N :=
  let s := (a * b)%N in
  if (s <? 2 ^ 64)%N then Some s
  else match p with Debug => None | Release => Some (s mod 2 ^ 64)%N end.

(** [IRElement::bit_size]. *)
Fixpoint bit_size (p : profile) (e : IRElement) : option N :=
  match e with
  | Field _ bits _ => Some bits
  | Enum _ bits _ => Some bits
  | Spare bits => Some bits
  | EPB content => s <- bit_size p content ;; add_usize p 1 s
  end.

(** [elements.iter().map(|e| e.bit_size()).sum()], from accumulator [acc]. *)
Fixpoint sum_bits_from (p : profile) (acc : N) (es : list IRElement) : option N :=
  match es with
  | [] => Some acc
  | e :: es' => s <- bit_size p e ;; acc' <- add_usize p acc s ;; sum_bits_from p acc' es'
  end.

Definition sum_bits (p : profile) (es : list IRElement) : option N := sum_bits_from p 0 es.

(** [assert_eq!(total_bits, bytes * 8)]; [false] is the panic. *)
Definition check_bytes (p : profile) (bytes : N) (es : list IRElement) : bool :=
  match sum_bits p es with
  | None => false
  | Some total_bits =>
      match mul_usize p bytes 8 with
      | None => false
      | Some expected_bits => N.eqb total_bits expected_bits
      end
  end.

(** [IRLayout::validate]: [true] when it returns, [false] when it panics. *)
Fixpoint validate (p : profile) (l : IRLayout) : bool :=
  match l with
  | Fixed bytes es | Explicit bytes es => check_bytes p bytes es
  | Extended bytes part_groups =>
      N.eqb bytes (N.of_nat (length part_groups)) &&
      forallb (fun g => match sum_bits p (elements g) with
                        | Some total_bits => N.eqb total_bits 7
                        | None => false
                        end) part_groups
  | Repetitive bytes _ es => check_bytes p bytes es
  | Compound sub_items =>
      (fix go (subs : list IRSubItem) : bool :=
         match subs with
         | [] => true
         | mkSubItem _ l' :: rest => validate p l' && go rest
         end) sub_items
  end.

(** [to_ir] after [to_ir_category]: every item's layout is validated. *)
Definition to_ir (p : profile) (cat : IRCategory) : option IRCategory :=
  if forallb (fun it => validate p (item_layout it)) (items cat) then Some cat else None.

(** Mathematical bit counts, with no bound. *)
Fixpoint bit_size_math (e : IRElement) : N :=
  match e with
  | Field _ bits _ | Enum _ bits _ | Spare bits => bits
  | EPB content => 1 + bit_size_math content
  end.

Definition sum_math (es : list IRElement) : N :=
  fold_right (fun e acc => bit_size_math e + acc) 0 es.

(** [l'] is [l] or a layout nested in its compound sub-items. *)
Inductive contains : IRLayout -> IRLayout -> Prop :=
| contains_self l : contains l l
| contains_sub subs i l l' :
    In (mkSubItem i l) subs -> contains l l' -> contains (Compound subs) l'.

(** A Fixed, Explicit or Repetitive layout whose declared byte count is
    not the ceiling of its element bits over 8. *)
Definition budget_mismatch (l : IRLayout) : Prop :=
  match l with
  | Fixed bytes es | Explicit bytes es | Repetitive bytes _ es =>
      bytes <> ((sum_math es + 7) / 8)%N
  | _ => False
  end.

(** The [usize] computations of [validate] on [l] stay below [2^64]. *)
Definition budget_fits (l : IRLayout) : Prop :=
  match l with
  | Fixed bytes es | Explicit bytes es | Repetitive bytes _ es =>
      (bytes * 8 < 2 ^ 64)%N /\ (sum_math es < 2 ^ 64)%N
  | _ => True
  end.

Lemma bit_size_debug e v : bit_size Debug e = Some v -> v = bit_size_math e.
Proof.
  revert v. induction e as [n b s|c IH|n b vs|b]; intros v H;
    cbn [bit_size bit_size_math] in H |- *; try congruence.
  destruct (bit_size Debug c) as [x|] eqn:Ex; [|discriminate].
  rewrite (IH x eq_refl) in H. unfold add_usize in H. cbv zeta in H.
  destruct (N.ltb_spec (1 + bit_size_math c) (2 ^ 64)); congruence.
Qed.

Lemma sum_bits_from_debug acc es v :
  sum_bits_from Debug acc es = Some v -> v = (acc + sum_math es)%N.
Proof.
  revert acc. induction es as [|e es IH]; intros acc H;
    cbn [sum_bits_from sum_math fold_right] in H |- *.
  - injection H as <-. lia.
  - destruct (bit_size Debug e) as [x|] eqn:Ex; [|discriminate].
    rewrite (bit_size_debug _ _ Ex) in H. unfold add_usize in H. cbv zeta in H.
    destruct (N.ltb_spec (acc + bit_size_math e) (2 ^ 64)); [|discriminate].
    rewrite (IH _ H). fold (sum_math es). lia.
Qed.

Lemma add_usize_small p a b : (a + b < 2 ^ 64)%N -> add_usize p a b = Some (a + b)%N.
Proof.
  intros H. unfold add_usize. cbv zeta.
  destruct (N.ltb_spec (a + b) (2 ^ 64)); [reflexivity|lia].
Qed.

Lemma mul_usize_small p a b : (a * b < 2 ^ 64)%N -> mul_usize p a b = Some (a * b)%N.
Proof.
  intros H. unfold mul_usize. cbv zeta.
  destruct (N.ltb_spec (a * b) (2 ^ 64)); [reflexivity|lia].
Qed.

Lemma bit_size_small p e : (bit_size_math e < 2 ^ 64)%N -> bit_size p e = Some (bit_size_math e).
Proof.
  induction e as [n b s|c IH|n b vs|b]; intros H; cbn [bit_size bit_size_math] in H |- *;
    try reflexivity.
  rewrite IH by lia. cbv beta iota. apply add_usize_small. exact H.
Qed.

Lemma sum_bits_from_small p acc es :
  (acc + sum_math es < 2 ^ 64)%N -> sum_bits_from p acc es = Some (acc + sum_math es)%N.
Proof.
  revert acc. induction es as [|e es IH]; intros acc H;
    cbn [sum_bits_from sum_math fold_right] in H |- *.
  - f_equal. lia.
  - fold (sum_math es) in H |- *.
    rewrite bit_size_small by lia. cbv beta iota.
    rewrite add_usize_small by lia. cbv beta iota.
    rewrite IH by lia. f_equal. lia.
Qed.

Lemma check_bytes_exact p bytes es :
  (p = Debug \/ budget_fits (Fixed bytes es)) ->
  check_bytes p bytes es = true -> sum_math es = (bytes * 8)%N.
Proof.
  unfold check_bytes, sum_bits. intros Hp H.
  destruct Hp as [->|[Hb Hs]].
  - destruct (sum_bits_from Debug 0 es) as [t|] eqn:Et; [|discriminate].
    apply sum_bits_from_debug in Et.
    unfold mul_usize in H. cbv zeta in H.
    destruct (N.ltb_spec (bytes * 8) (2 ^ 64)); [|discriminate].
    apply N.eqb_eq in H. lia.
  - rewrite sum_bits_from_small, mul_usize_small in H by lia.
    apply N.eqb_eq in H. lia.
Qed.

Lemma validate_contains p l l' : contains l l' -> validate p l = true -> validate p l' = true.
Proof.
  induction 1 as [l|subs i l l' Hin Hc IH]; intros Hv; [exact Hv|].
  apply IH. cbn [validate] in Hv.
  induction subs as [|[j m] subs IHs]; [destruct Hin|].
  apply andb_true_iff in Hv as [Hm Hr].
  destruct Hin as [E|Hin]; [injection E as -> ->; exact Hm|].
  exact (IHs Hin Hr).
Qed.

Lemma validate_no_mismatch p l :
  (p = Debug \/ budget_fits l) -> validate p l = true -> ~ budget_mismatch l.
Proof.
  intros Hp Hv.
  assert (K : forall bytes es, (p = Debug \/ budget_fits (Fixed bytes es)) ->
            check_bytes p bytes es = true -> ~ bytes <> ((sum_math es + 7) / 8)%N).
  { intros bytes es Hp' Hc Hm. apply Hm.
    rewrite (check_bytes_exact _ _ _ Hp' Hc).
    replace (bytes * 8 + 7)%N with (7 + bytes * 8)%N by lia.
    rewrite N.div_add by lia. reflexivity. }
  destruct l as [bytes es|bytes es|bytes pg|bytes c es|subs]; cbn [budget_mismatch].
  - exact (K bytes es Hp Hv).
  - exact (K bytes es Hp Hv).
  - intros [].
  - exact (K bytes es Hp Hv).
  - intros [].
Qed.

End RasterixIR.

(** ** Semantic IR of [rusterix-codegen] ([transform/ir.rs])

    The file itself is not part of the sources at hand; its types are read
    off their uses in [transform/lowerer.rs], [generate/encode_gen.rs] and
    [generate/decode_gen.rs] ([IRElement::Field { name, bits }],
    [IRElement::Enum { name, bits, values }] with [values: &[(String, u8)]],
    [IRPartGroup { index, elements }], [IRSubItem { index, layout }], ...).
    Bit and byte counts are [usize] constants of the generator; they are
    [nat] here. *)
Module CodegenIR.

Inductive IRElement :=
| Field (name : string) (bits : nat)
| EPB (content : IRElement)
| Enum (name : string) (bits : nat) (values : list (string * Z))
| Spare (bits : nat).

Record IRPartGroup := mkPartGroup { index : nat; elements : list IRElement }.

Inductive IRLayout :=
| Fixed (bytes : nat) (elements : list IRElement)
| Explicit (bytes : nat) (elements : list IRElement)
| Extended (bytes : nat) (part_groups : list IRPartGroup)
| Repetitive (bytes : nat) (count : nat) (elements : list IRElement)
| Compound (sub_items : list IRSubItem)
with IRSubItem :=
| mkSubItem (sub_index : nat) (layout : IRLayout).

Record IRItem := mkItem { id : Z; frn : nat; item_layout : IRLayout }.

Record IRCategory := mkCategory { category_id : Z; items : list IRItem }.

Definition sub_index (s : IRSubItem) : nat := match s with mkSubItem i _ => i end.

Definition sub_layout (s : IRSubItem) : IRLayout := match s with mkSubItem _ l => l end.


End CodegenIR.

(** ** Name conversions ([rusterix-codegen/src/generate/utils.rs]) *)
Module Names.

Local Open Scope char_scope.

(** [char::is_uppercase], [char::is_lowercase] and the ASCII case maps,
    on ASCII characters. *)
Definition is_upper (c : ascii) : bool :=
  let n := nat_of_ascii c in (Nat.leb 65 n && Nat.leb n 90)%bool.

Definition is_lower (c : ascii) : bool :=
  let n := nat_of_ascii c in (Nat.leb 97 n && Nat.leb n 122)%bool.

Definition to_ascii_lowercase (c : ascii) : ascii :=
  if is_upper c then ascii_of_nat (nat_of_ascii c + 32) else c.

Definition to_ascii_uppercase (c : ascii) : ascii :=
  if is_lower c then ascii_of_nat (nat_of_ascii c - 32) else c.

Definition is_alpha (c : ascii) : bool := (is_upper c || is_lower c)%bool.

Definition is_digit (c : ascii) : bool :=
  let n := nat_of_ascii c in (Nat.leb 48 n && Nat.leb n 57)%bool.

(** [format_ident!("{}", s)] panics unless [s] is an identifier (or a
    keyword): a letter or [_], then letters, digits and [_]. *)
Definition is_ident (s : string) : bool :=
  match list_ascii_of_string s with
  | [] => false
  | c :: cs =>
      ((is_alpha c || Ascii.eqb c "_") &&
       forallb (fun d => is_alpha d || is_digit d || Ascii.eqb d "_") cs)%bool
  end.

(** The [flat_map] body of [to_snake_case]: [prev] is
    [name.chars().nth(i - 1)], [None] exactly when [i = 0]; the next
    character is the head of the rest. *)
Fixpoint snake_chars (prev : option ascii) (cs : list ascii) : list ascii :=
  match cs with
  | [] => []
  | c :: rest =>
      let piece :=
        match prev with
        | None => [to_ascii_lowercase c]
        | Some p =>
            let next_lower :=
              match rest with n :: _ => is_lower n | [] => false end in
            if (is_upper c && (is_lower p || next_lower))%bool
            then ["_"; to_ascii_lowercase c]
            else [to_ascii_lowercase c]
        end in
      piece ++ snake_chars (Some c) rest
  end.

(** [to_snake_case] before [format_ident!]: [.replace('-', "_")] last. *)
Definition snake_string (name : string) : string :=
  string_of_list_ascii
    (map (fun c => if Ascii.eqb c "-" then "_" else c)
         (snake_chars None (list_ascii_of_string name))).

Definition to_snake_case (name : string) : option string :=
  let s := snake_string name in if is_ident s then Some s else None.

(** [name.split(|c| c == '_' || c == '-')]. *)
Fixpoint split_words (cs : list ascii) : list (list ascii) :=
  match cs with
  | [] => [[]]
  | c :: r =>
      if (Ascii.eqb c "_" || Ascii.eqb c "-")%bool then [] :: split_words r
      else match split_words r with
           | [] => [[c]]
           | w :: ws => (c :: w) :: ws
           end
  end.

(** First character upper-cased, the rest lower-cased. *)
Definition capitalize (w : list ascii) : list ascii :=
  match w with
  | [] => []
  | first :: rest => to_ascii_uppercase first :: map to_ascii_lowercase rest
  end.

Definition to_pascal_case (name : string) : option string :=
  let s := string_of_list_ascii
             (concat (map capitalize
                (filter (fun w => negb (Nat.eqb (length w) 0))
                   (split_words (list_ascii_of_string name))))) in
  if is_ident s then Some s else None.

(** [rust_type_for_bits]. *)
Definition rust_type_for_bits (bits : nat) : string :=
  if Nat.leb bits 8 then "u8"
  else if Nat.leb bits 16 then "u16"
  else if Nat.leb bits 32 then "u32"
  else if Nat.leb bits 64 then "u64"
  else "u128".

End Names.

(** ** Field lowering ([rusterix-codegen/src/transform/lowerer.rs]) *)
Module Lowerer.
Import CodegenIR Names.

Inductive FieldType :=
| Primitive (ty : string)
| OptionalPrimitive (ty : string)
| EnumType (ty : string)
| OptionalEnum (ty : string).

Record FieldDescriptor := mkFieldDescriptor { name : string; type_tokens : FieldType }.

(** [lower_field]: [None] is a panic, [Some None] the [Spare] case. *)
Definition lower_field (element : IRElement) : option (option FieldDescriptor) :=
  match element with
  | Field n bits =>
      field_name <- to_snake_case n ;;
      Some (Some (mkFieldDescriptor field_name (Primitive (rust_type_for_bits bits))))
  | EPB content =>
      match content with
      | Field n bits =>
          field_name <- to_snake_case n ;;
          Some (Some (mkFieldDescriptor field_name (OptionalPrimitive (rust_type_for_bits bits))))
      | Enum n _ _ =>
          field_name <- to_snake_case n ;;
          enum_type <- to_pascal_case n ;;
          Some (Some (mkFieldDescriptor field_name (OptionalEnum enum_type)))
      | _ => None
      end
  | Enum n _ _ =>
      field_name <- to_snake_case n ;;
      enum_type <- to_pascal_case n ;;
      Some (Some (mkFieldDescriptor field_name (EnumType enum_type)))
  | Spare _ => Some None
  end.

(** [elements.iter().filter_map(lower_field).collect()]. *)
Fixpoint lower_fields (elements : list IRElement) : option (list FieldDescriptor) :=
  match elements with
  | [] => Some []
  | e :: es =>
      d <- lower_field e ;;
      ds <- lower_fields es ;;
      Some (match d with Some d' => d' :: ds | None => ds end)
  end.

End Lowerer.

(** ** Code emitted for items, records and data blocks
    ([rusterix-codegen/src/generate/encode_gen.rs], [decode_gen.rs],
    [enum_gen.rs], [record_gen.rs], [datablock_gen.rs])

    The generators return Rust source; what is modelled here is the
    run-time behaviour of that source, as a function of the schema.
    - The body of a generated [encode] on a [BitWriter] is a straight
      sequence of [writer.write_bits(value, count)?] calls; it is given by
      the list of its [(value, count)] pairs, run with [write_all].
    - A generated [decode] threads a [BitReader].
    - A generated struct is the list of its field values in declaration
      order: one per visible element, in element order. Fields are
      addressed by name in the emitted code; in a schema whose generated
      code compiles, the names of one struct are distinct, so name and
      position agree.
    - [None] is an [Err] returned at run time, or a panic: an overflow or
      debug assertion at run time, or a generator panic for a schema the
      generator refuses (EPB around something else than a Field or an
      Enum, a nested Compound).
    - A plain byte sink or source ([W: Write] as a [Vec<u8>], [R: Read] as
      a byte slice) is a [BitWriter] or [BitReader] that is only used for
      whole bytes: its [Write] and [Read] are then those of the bytes. *)
Module Gen.
Import BitIO CodegenIR.

(** *** Values of the generated types *)

(** A value of a generated enum: the [i]-th declared variant, or the
    catch-all [Unknown(v)]. *)
Inductive EnumValue := Known (i : nat) | Unknown (v : Z).

(** A struct field: a primitive integer, an enum, or the [Option] of
    either (EPB). *)
Inductive FieldValue :=
| VInt (v : Z)
| VEnum (e : EnumValue)
| VOptInt (o : option Z)
| VOptEnum (o : option EnumValue).

(** A value of an item type: the struct of a Fixed or Explicit item, the
    parts [part0] (required, [Some]) and [part1], ... (optional) of an
    Extended item, the [items] of a Repetitive item, the optional
    sub-items of a Compound item. *)
Inductive ItemValue :=
| VSimple (fields : list FieldValue)
| VExtended (parts : list (option (list FieldValue)))
| VRepetitive (items : list (list FieldValue))
| VCompound (subs : list (option ItemValue)).

(** *** Generated enums ([enum_gen.rs]) *)

(** [TryFrom<u8>]: [match value { v0 => Ok(V0), v1 => Ok(V1), ...,
    _ => Ok(Unknown(value)) }], the first matching arm wins. *)
Fixpoint try_from_from (i : nat) (values : list (string * Z)) (value : Z) : EnumValue :=
  match values with
  | [] => Unknown value
  | (_, vv) :: rest => if vv =? value then Known i else try_from_from (S i) rest value
  end.

Definition try_from (values : list (string * Z)) (value : Z) : EnumValue :=
  try_from_from 0 values value.

(** [From<Enum> for u8]. ([Known i] past the last variant is not a value
    of the type.) *)
Definition to_u8 (values : list (string * Z)) (e : EnumValue) : Z :=
  match e with
  | Known i => match nth_error values i with Some (_, vv) => vv | None => 0 end
  | Unknown v => v
  end.

(** *** Casts *)

Definition as_u8 (x : Z) : Z := x mod 2 ^ 8.

Definition as_u64 (x : Z) : Z := x mod 2 ^ 64.

Definition int_type_bits (ty : string) : Z :=
  if String.eqb ty "u8" then 8
  else if String.eqb ty "u16" then 16
  else if String.eqb ty "u32" then 32
  else if String.eqb ty "u64" then 64
  else 128.

(** [x as T] with [T] the type [rust_type_for_bits(bits)] of the field. *)
Definition as_field_type (bits : nat) (x : Z) : Z :=
  x mod 2 ^ int_type_bits (Names.rust_type_for_bits bits).

(** *** Elements ([generate_element_encode], [generate_element_decode]) *)

Definition element_writes (e : IRElement) (fv : FieldValue) : option (list (Z * nat)) :=
  match e, fv with
  | Field _ bits, VInt v => Some [(as_u64 v, bits)]
  | EPB (Field _ bits), VOptInt (Some v) => Some [(1, 1%nat); (as_u64 v, bits)]
  | EPB (Field _ bits), VOptInt None => Some [(0, 1%nat); (0, bits)]
  | EPB (Enum _ bits values), VOptEnum (Some ev) => Some [(1, 1%nat); (to_u8 values ev, bits)]
  | EPB (Enum _ bits _), VOptEnum None => Some [(0, 1%nat); (0, bits)]
  | Enum _ bits values, VEnum ev => Some [(to_u8 values ev, bits)]
  | _, _ => None
  end.

(** The encode body of a struct: spare bits are written as zeros and take
    no field. *)
Fixpoint elements_writes (es : list IRElement) (fs : list FieldValue) : option (list (Z * nat)) :=
  match es, fs with
  | [], [] => Some []
  | Spare bits :: es', _ => ws <- elements_writes es' fs ;; Some ((0, bits) :: ws)
  | e :: es', fv :: fs' =>
      w <- element_writes e fv ;; ws <- elements_writes es' fs' ;; Some (w ++ ws)
  | _, _ => None
  end.

(** One [let name = ...;] of a decode body; [None] in the first component
    for a spare. *)
Definition element_decode (r : BitReader) (e : IRElement) : option (option FieldValue * BitReader) :=
  match e with
  | Field _ bits =>
      '(v, r1) <- read_bits r bits ;; Some (Some (VInt (as_field_type bits v)), r1)
  | EPB (Field _ bits) =>
      '(valid, r1) <- read_bits r 1 ;;
      if negb (valid =? 0) then
        '(v, r2) <- read_bits r1 bits ;; Some (Some (VOptInt (Some (as_field_type bits v))), r2)
      else
        '(_, r2) <- read_bits r1 bits ;; Some (Some (VOptInt None), r2)
  | EPB (Enum _ bits values) =>
      '(valid, r1) <- read_bits r 1 ;;
      if negb (valid =? 0) then
        '(v, r2) <- read_bits r1 bits ;; Some (Some (VOptEnum (Some (try_from values (as_u8 v)))), r2)
      else
        '(_, r2) <- read_bits r1 bits ;; Some (Some (VOptEnum None), r2)
  | EPB _ => None
  | Enum _ bits values =>
      '(v, r1) <- read_bits r bits ;; Some (Some (VEnum (try_from values (as_u8 v))), r1)
  | Spare bits =>
      '(_, r1) <- read_bits r bits ;; Some (None, r1)
  end.

(** The decode body of a struct, then [Ok(Self { visible fields })]. *)
Fixpoint elements_decode (r : BitReader) (es : list IRElement) : option (list FieldValue * BitReader) :=
  match es with
  | [] => Some ([], r)
  | e :: es' =>
      '(o, r1) <- element_decode r e ;;
      '(fs, r2) <- elements_decode r1 es' ;;
      Some (match o with Some fv => fv :: fs | None => fs end, r2)
  end.

(** *** Extended items ([generate_extended_encode], [generate_extended_decode]) *)

(** [self.part{i+1}.is_some() as u64] for the part after the current one,
    [0] after the last possible part. *)
Definition fx_of_next (ps : list (option (list FieldValue))) : Z :=
  match ps with
  | Some _ :: _ => 1
  | _ => 0
  end.

(** Parts [1..]: [if let Some(ref part_data) = self.part{i} { encode; FX }]. *)
Fixpoint ext_rest_writes (gs : list IRPartGroup) (ps : list (option (list FieldValue)))
    : option (list (Z * nat)) :=
  match gs, ps with
  | [], [] => Some []
  | g :: gs', o :: ps' =>
      rest <- ext_rest_writes gs' ps' ;;
      match o with
      | None => Some rest
      | Some d => ws <- elements_writes (elements g) d ;; Some (ws ++ (fx_of_next ps', 1%nat) :: rest)
      end
  | _, _ => None
  end.

Definition extended_writes (gs : list IRPartGroup) (ps : list (option (list FieldValue)))
    : option (list (Z * nat)) :=
  match gs, ps with
  | [], [] => Some []
  | g0 :: gs', Some d0 :: ps' =>
      ws0 <- elements_writes (elements g0) d0 ;;
      rest <- ext_rest_writes gs' ps' ;;
      Some (ws0 ++ (fx_of_next ps', 1%nat) :: rest)
  | _, _ => None
  end.

(** Parts [1..]: [let part{i} = if fx { let part = decode; fx = read_bits(1) != 0;
    Some(part) } else { None };]. *)
Fixpoint ext_rest_decode (fx : bool) (r : BitReader) (gs : list IRPartGroup)
    : option (list (option (list FieldValue)) * BitReader) :=
  match gs with
  | [] => Some ([], r)
  | g :: gs' =>
      if fx then
        '(d, r1) <- elements_decode r (elements g) ;;
        '(b, r2) <- read_bits r1 1 ;;
        '(ps, r3) <- ext_rest_decode (negb (b =? 0)) r2 gs' ;;
        Some (Some d :: ps, r3)
      else
        '(ps, r1) <- ext_rest_decode false r gs' ;;
        Some (None :: ps, r1)
  end.

Definition extended_decode (r : BitReader) (gs : list IRPartGroup)
    : option (list (option (list FieldValue)) * BitReader) :=
  match gs with
  | [] => Some ([], r)
  | g0 :: gs' =>
      '(d0, r1) <- elements_decode r (elements g0) ;;
      '(b, r2) <- read_bits r1 1 ;;
      '(ps, r3) <- ext_rest_decode (negb (b =? 0)) r2 gs' ;;
      Some (Some d0 :: ps, r3)
  end.

(** *** Repetitive items ([generate_repetitive_encode], [generate_repetitive_decode]) *)

(** [for item in &self.items { item.encode(writer)?; }] *)
Fixpoint rep_writes (es : list IRElement) (its : list (list FieldValue)) : option (list (Z * nat)) :=
  match its with
  | [] => Some []
  | it :: its' => ws <- elements_writes es it ;; rest <- rep_writes es its' ;; Some (ws ++ rest)
  end.

(** [for _ in 0..count { items.push(Element::decode(reader)?); }] *)
Fixpoint rep_decode (r : BitReader) (es : list IRElement) (count : nat)
    : option (list (list FieldValue) * BitReader) :=
  match count with
  | O => Some ([], r)
  | S c =>
      '(it, r1) <- elements_decode r es ;;
      '(its, r2) <- rep_decode r1 es c ;;
      Some (it :: its, r2)
  end.

(** *** Items other than Compound ([Encode] / [Decode] on the bit streams) *)

(** [generate_simple_encode] (with [writer.write_bits(#len as u64, 8)?]
    first for Explicit, [len = bytes + 1]), [generate_extended_encode] and
    [generate_repetitive_encode]. A Compound layout here is a nested
    Compound: the generator panics. *)
Definition layout_writes (l : IRLayout) (v : ItemValue) : option (list (Z * nat)) :=
  match l, v with
  | Fixed _ es, VSimple fs => elements_writes es fs
  | Explicit bytes es, VSimple fs =>
      ws <- elements_writes es fs ;; Some ((Z.of_nat (bytes + 1), 8%nat) :: ws)
  | Extended _ gs, VExtended ps => extended_writes gs ps
  | Repetitive _ _ es, VRepetitive its => rep_writes es its
  | _, _ => None
  end.

(** [generate_simple_decode] (reading and ignoring [_len] first for
    Explicit), [generate_extended_decode], [generate_repetitive_decode]. *)
Definition layout_decode (r : BitReader) (l : IRLayout) : option (ItemValue * BitReader) :=
  match l with
  | Fixed _ es => '(fs, r1) <- elements_decode r es ;; Some (VSimple fs, r1)
  | Explicit _ es =>
      '(_, r1) <- read_bits r 8 ;;
      '(fs, r2) <- elements_decode r1 es ;; Some (VSimple fs, r2)
  | Extended _ gs => '(ps, r1) <- extended_decode r gs ;; Some (VExtended ps, r1)
  | Repetitive _ count es => '(its, r1) <- rep_decode r es count ;; Some (VRepetitive its, r1)
  | Compound _ => None
  end.

(** *** FSPEC-prefixed structures: Compound items and records *)

(** [frn_to_fspec_position] ([generate/utils.rs]). *)
Definition frn_to_fspec_position (frn : nat) : nat * nat := (frn / 7, frn mod 7)%nat.

(** The [fspec.set(byte, bit)] calls of an encode: one per present entry,
    in order. *)
Fixpoint present_positions {A} (idx : list nat) (vs : list (option A)) : option (list (nat * nat)) :=
  match idx, vs with
  | [], [] => Some []
  | i :: idx', o :: vs' =>
      ps <- present_positions idx' vs' ;;
      Some (match o with Some _ => frn_to_fspec_position i :: ps | None => ps end)
  | _, _ => None
  end.

(** [let mut writer = BitWriter::new(writer); body]: a bit writer whose
    sink is the writer [w]. Each completed byte goes to [w] through its
    byte-level [Write]; the body ends with a [flush], and bits left in the
    inner buffer are dropped with it. *)
Definition nested_write (p : profile) (w : BitWriter) (body : BitWriter -> option BitWriter)
    : option BitWriter :=
  w_in <- body writer_new ;;
  match out w_in with
  | [] => Some w
  | bytes => write_bytes p w bytes
  end.

(** [Fspec::read(reader)] with [reader] a [BitReader]: bytes come through
    its byte-level [Read]. *)
Definition fspec_read (p : profile) (r : BitReader) : option (Fspec.Fspec * BitReader) :=
  match p, Nat.eqb (bits_left r) 0 with
  | Debug, false => None
  | _, _ => '(f, rest) <- Fspec.read (input r) ;; Some (f, mkReader rest (rbuffer r) (bits_left r))
  end.

(** [let mut reader = BitReader::new(reader); body]: a bit reader whose
    source is the reader [r]. It fetches bytes through the byte-level
    [Read] of [r], whose debug assertion fails on the first fetch when [r]
    holds buffered bits; whether a byte was fetched shows in the length of
    what is left. *)
Definition nested_read {A} (p : profile) (r : BitReader) (body : BitReader -> option (A * BitReader))
    : option (A * BitReader) :=
  '(a, r_in) <- body (reader_new (input r)) ;;
  match p, Nat.eqb (bits_left r) 0, Nat.eqb (length (input r_in)) (length (input r)) with
  | Debug, false, false => None
  | _, _, _ => Some (a, mkReader (input r_in) (rbuffer r) (bits_left r))
  end.

(** Compound: [if let Some(ref sub_data) = self.sub{i} { sub_data.encode(&mut writer)?; }]. *)
Fixpoint subs_writes (subs : list IRSubItem) (vs : list (option ItemValue)) : option (list (Z * nat)) :=
  match subs, vs with
  | [], [] => Some []
  | s :: subs', o :: vs' =>
      rest <- subs_writes subs' vs' ;;
      match o with
      | None => Some rest
      | Some v => ws <- layout_writes (sub_layout s) v ;; Some (ws ++ rest)
      end
  | _, _ => None
  end.

(** [generate_compound_encode]: [encode<W: Write>(&self, writer: &mut W)]. *)
Definition compound_encode (p : profile) (subs : list IRSubItem) (vs : list (option ItemValue))
    (w : BitWriter) : option BitWriter :=
  ps <- present_positions (map sub_index subs) vs ;;
  f <- Fspec.set_all Fspec.new ps ;;
  w1 <- write_bytes p w (Fspec.write f) ;;
  nested_write p w1 (fun bw => ws <- subs_writes subs vs ;; bw1 <- write_all bw ws ;; Some (flush bw1)).

(** Compound: [let sub{i} = if fspec.is_set(byte, bit) { Some(decode) } else { None };]. *)
Fixpoint subs_decode (f : Fspec.Fspec) (subs : list IRSubItem) (r : BitReader)
    : option (list (option ItemValue) * BitReader) :=
  match subs with
  | [] => Some ([], r)
  | s :: subs' =>
      let '(byte, bit) := frn_to_fspec_position (sub_index s) in
      present <- Fspec.is_set f byte bit ;;
      '(o, r1) <- (if present then '(v, r1) <- layout_decode r (sub_layout s) ;; Some (Some v, r1)
                   else Some (None, r)) ;;
      '(os, r2) <- subs_decode f subs' r1 ;;
      Some (o :: os, r2)
  end.

(** [generate_compound_decode]: [decode<R: Read>(reader: &mut R)]. *)
Definition compound_decode (p : profile) (subs : list IRSubItem) (r : BitReader)
    : option (list (option ItemValue) * BitReader) :=
  '(f, r1) <- fspec_read p r ;; nested_read p r1 (subs_decode f subs).

(** An item inside a record: [item.encode(&mut bit_writer)?] is the
    [Encode] impl, or the inherent [encode] of a Compound with [W] the
    record's bit writer; likewise for [decode]. *)
Definition item_encode (p : profile) (l : IRLayout) (v : ItemValue) (w : BitWriter) : option BitWriter :=
  match l, v with
  | Compound subs, VCompound vs => compound_encode p subs vs w
  | _, _ => ws <- layout_writes l v ;; write_all w ws
  end.

Definition item_decode (p : profile) (l : IRLayout) (r : BitReader) : option (ItemValue * BitReader) :=
  match l with
  | Compound subs => '(vs, r1) <- compound_decode p subs r ;; Some (VCompound vs, r1)
  | _ => layout_decode r l
  end.

(** Record ([record_gen.rs]): [if let Some(ref item) = self.item{id} { item.encode(&mut bit_writer)?; }]. *)
Fixpoint items_encode (p : profile) (its : list IRItem) (vs : list (option ItemValue)) (w : BitWriter)
    : option BitWriter :=
  match its, vs with
  | [], [] => Some w
  | it :: its', o :: vs' =>
      w1 <- match o with None => Some w | Some v => item_encode p (item_layout it) v w end ;;
      items_encode p its' vs' w1
  | _, _ => None
  end.

Definition record_encode (p : profile) (its : list IRItem) (vs : list (option ItemValue)) (w : BitWriter)
    : option BitWriter :=
  ps <- present_positions (map frn its) vs ;;
  f <- Fspec.set_all Fspec.new ps ;;
  w1 <- write_bytes p w (Fspec.write f) ;;
  nested_write p w1 (fun bw => bw1 <- items_encode p its vs bw ;; Some (flush bw1)).

Fixpoint items_decode (p : profile) (f : Fspec.Fspec) (its : list IRItem) (r : BitReader)
    : option (list (option ItemValue) * BitReader) :=
  match its with
  | [] => Some ([], r)
  | it :: its' =>
      let '(byte, bit) := frn_to_fspec_position (frn it) in
      present <- Fspec.is_set f byte bit ;;
      '(o, r1) <- (if present then '(v, r1) <- item_decode p (item_layout it) r ;; Some (Some v, r1)
                   else Some (None, r)) ;;
      '(os, r2) <- items_decode p f its' r1 ;;
      Some (o :: os, r2)
  end.

Definition record_decode (p : profile) (its : list IRItem) (r : BitReader)
    : option (list (option ItemValue) * BitReader) :=
  '(f, r1) <- fspec_read p r ;; nested_read p r1 (items_decode p f its).

(** *** Data blocks ([datablock_gen.rs]) *)

(** The records, into [record_buf] through one [BitWriter]. *)
Fixpoint records_encode (p : profile) (its : list IRItem) (recs : list (list (option ItemValue)))
    (w : BitWriter) : option BitWriter :=
  match recs with
  | [] => Some w
  | rec :: recs' => w1 <- record_encode p its rec w ;; records_encode p its recs' w1
  end.

(** [record_buf]: the records through [record_writer], then [flush]. *)
Definition records_payload (p : profile) (its : list IRItem) (recs : list (list (option ItemValue)))
    : option (list Z) :=
  rw <- records_encode p its recs writer_new ;; Some (out (flush rw)).

Definition datablock_encode (p : profile) (cat : IRCategory) (recs : list (list (option ItemValue)))
    (w : BitWriter) : option BitWriter :=
  record_buf <- records_payload p (items cat) recs ;;
  DataBlock.encode_frame p (category_id cat) record_buf w.

(** [for byte in payload.iter_mut() { *byte = reader.read_bits(8)? as u8; }] *)
Fixpoint read_payload (n : nat) (r : BitReader) : option (list Z * BitReader) :=
  match n with
  | O => Some ([], r)
  | S n' => '(b, r1) <- read_bits r 8 ;; '(bs, r2) <- read_payload n' r1 ;; Some (as_u8 b :: bs, r2)
  end.

(** [while cursor.position() < total { records.push(Record::decode(&mut
    BitReader::new(&mut cursor))?) }]. Every record starts with an FSPEC
    of at least one byte, so [length payload] rounds are enough; [fuel]
    counts them. *)
Fixpoint records_decode (p : profile) (its : list IRItem) (fuel : nat) (cursor : list Z)
    : option (list (list (option ItemValue))) :=
  match cursor with
  | [] => Some []
  | _ :: _ =>
      match fuel with
      | O => None
      | S fuel' =>
          '(rec, rr) <- record_decode p its (reader_new cursor) ;;
          recs <- records_decode p its fuel' (input rr) ;;
          Some (rec :: recs)
      end
  end.

Definition datablock_decode (p : profile) (cat : IRCategory) (r : BitReader)
    : option (list (list (option ItemValue)) * BitReader) :=
  '(c, r1) <- read_bits r 8 ;;
  if negb (as_u8 c =? category_id cat) then None
  else
    '(l, r2) <- read_bits r1 16 ;;
    let len := DataBlock.as_u16 l in
    if len <? 3 then None
    else
      '(payload, r3) <- read_payload (Z.to_nat (len - 3)) r2 ;;
      recs <- records_decode p (items cat) (length payload) payload ;;
      Some (recs, r3).

(** *** Whole encodings, and the schema and value conditions *)

(** Encode on a fresh writer over a [Vec<u8>], then [flush]. *)
Definition item_encode_bytes (p : profile) (l : IRLayout) (v : ItemValue) : option (list Z) :=
  w <- item_encode p l v writer_new ;; Some (out (flush w)).

Definition item_decode_bytes (p : profile) (l : IRLayout) (b : list Z) : option ItemValue :=
  '(v, _) <- item_decode p l (reader_new b) ;; Some v.

Definition record_encode_bytes (p : profile) (its : list IRItem) (vs : list (option ItemValue))
    : option (list Z) :=
  w <- record_encode p its vs writer_new ;; Some (out (flush w)).

Definition record_decode_bytes (p : profile) (its : list IRItem) (b : list Z)
    : option (list (option ItemValue)) :=
  '(vs, _) <- record_decode p its (reader_new b) ;; Some vs.

Definition datablock_encode_bytes (p : profile) (cat : IRCategory) (recs : list (list (option ItemValue)))
    : option (list Z) :=
  w <- datablock_encode p cat recs writer_new ;; Some (out (flush w)).

Definition datablock_decode_bytes (p : profile) (cat : IRCategory) (b : list Z)
    : option (list (list (option ItemValue))) :=
  '(recs, _) <- datablock_decode p cat (reader_new b) ;; Some recs.

Fixpoint nodup_nat (l : list nat) : bool :=
  match l with
  | [] => true
  | x :: r => negb (existsb (Nat.eqb x) r) && nodup_nat r
  end.

Fixpoint nodup_Z (l : list Z) : bool :=
  match l with
  | [] => true
  | x :: r => negb (existsb (Z.eqb x) r) && nodup_Z r
  end.

Definition fits (v : Z) (bits : nat) : bool := (0 <=? v) && (v <? 2 ^ Z.of_nat bits).

(** The schema invariants of the specification, section 3: enum values
    distinct, below 256 and fitting the width; Fixed, Explicit and
    Repetitive element bits summing to [8 * bytes] (EPB counting
    [1 +] its content); Extended parts of 7 bits each, one per declared
    byte; no nested Compound. Besides: every element at most 64 bits wide
    (a wider one makes [write_bits] shift a [u64] by 64 or more), part
    [i] of an Extended layout has index [i] (the emitted code names the
    next part [part{i+1}]), and the indices of a Compound's sub-items are
    distinct (they address its FSPEC). *)
Definition enum_values_ok (bits : nat) (values : list (string * Z)) : bool :=
  nodup_Z (map snd values) && forallb (fun nv => fits (snd nv) bits && (snd nv <? 256)) values.

Definition element_ok (e : IRElement) : bool :=
  match e with
  | Field _ bits | Spare bits | EPB (Field _ bits) => Nat.leb bits 64
  | Enum _ bits values | EPB (Enum _ bits values) => Nat.leb bits 64 && enum_values_ok bits values
  | EPB _ => false
  end.

Definition bit_size (e : IRElement) : nat :=
  match e with
  | Field _ bits | Enum _ bits _ | Spare bits => bits
  | EPB c => S match c with Field _ bits | Enum _ bits _ | Spare bits => bits | EPB _ => 0 end
  end.

Definition sum_bits (es : list IRElement) : nat := fold_right (fun e acc => bit_size e + acc)%nat 0%nat es.

Definition elements_ok (es : list IRElement) (bits : nat) : bool :=
  forallb element_ok es && Nat.eqb (sum_bits es) bits.

Definition basic_layout_ok (l : IRLayout) : bool :=
  match l with
  | Fixed bytes es | Explicit bytes es | Repetitive bytes _ es => elements_ok es (8 * bytes)
  | Extended bytes gs =>
      forallb (fun g => elements_ok (elements g) 7) gs && Nat.eqb (length gs) bytes &&
      forallb (fun ig => Nat.eqb (fst ig) (index (snd ig))) (combine (seq 0 (length gs)) gs)
  | Compound _ => false
  end.

Definition layout_ok (l : IRLayout) : bool :=
  match l with
  | Compound subs => forallb (fun s => basic_layout_ok (sub_layout s)) subs && nodup_nat (map sub_index subs)
  | _ => basic_layout_ok l
  end.

(** Legal values: integers within their bit width; an enum value is a
    declared variant, or [Unknown(v)] with [v] fitting the width and not a
    declared value; the present parts of an Extended value come first;
    a Repetitive value has [count] items. *)
Definition enum_value_ok (bits : nat) (values : list (string * Z)) (e : EnumValue) : bool :=
  match e with
  | Known i => Nat.ltb i (length values)
  | Unknown v => fits v bits && (v <? 256) && negb (existsb (fun nv => snd nv =? v) values)
  end.

Definition field_ok (e : IRElement) (fv : FieldValue) : bool :=
  match e, fv with
  | Field _ bits, VInt v => fits v bits
  | EPB (Field _ bits), VOptInt o => match o with Some v => fits v bits | None => true end
  | Enum _ bits values, VEnum ev => enum_value_ok bits values ev
  | EPB (Enum _ bits values), VOptEnum o =>
      match o with Some ev => enum_value_ok bits values ev | None => true end
  | _, _ => false
  end.

Fixpoint fields_ok (es : list IRElement) (fs : list FieldValue) : bool :=
  match es, fs with
  | [], [] => true
  | Spare _ :: es', _ => fields_ok es' fs
  | e :: es', fv :: fs' => field_ok e fv && fields_ok es' fs'
  | _, _ => false
  end.

(** Parts [1..]: once a part is absent, so are all later ones. *)
Fixpoint parts_ok (gs : list IRPartGroup) (ps : list (option (list FieldValue))) (prev : bool) : bool :=
  match gs, ps with
  | [], [] => true
  | g :: gs', Some d :: ps' => prev && fields_ok (elements g) d && parts_ok gs' ps' true
  | _ :: gs', None :: ps' => parts_ok gs' ps' false
  | _, _ => false
  end.

Definition basic_value_ok (l : IRLayout) (v : ItemValue) : bool :=
  match l, v with
  | Fixed _ es, VSimple fs | Explicit _ es, VSimple fs => fields_ok es fs
  | Extended _ gs, VExtended ps =>
      match gs, ps with
      | [], [] => true
      | g0 :: gs', Some d0 :: ps' => fields_ok (elements g0) d0 && parts_ok gs' ps' true
      | _, _ => false
      end
  | Repetitive _ count es, VRepetitive its =>
      Nat.eqb (length its) count && forallb (fields_ok es) its
  | _, _ => false
  end.

Fixpoint opt_values_ok {A} (ok : A -> ItemValue -> bool) (ls : list A) (vs : list (option ItemValue)) : bool :=
  match ls, vs with
  | [], [] => true
  | l :: ls', o :: vs' =>
      match o with Some v => ok l v | None => true end && opt_values_ok ok ls' vs'
  | _, _ => false
  end.

Definition value_ok (l : IRLayout) (v : ItemValue) : bool :=
  match l, v with
  | Compound subs, VCompound vs => opt_values_ok (fun s v => basic_value_ok (sub_layout s) v) subs vs
  | _, _ => basic_value_ok l v
  end.

(** A record schema: legal item layouts with distinct FRNs. *)
Definition record_schema_ok (its : list IRItem) : bool :=
  forallb (fun it => layout_ok (item_layout it)) its && nodup_nat (map frn its).

Definition record_value_ok (its : list IRItem) (vs : list (option ItemValue)) : bool :=
  opt_values_ok (fun it v => value_ok (item_layout it) v) its vs.

End Gen.

(** ** Properties of the generated code

    The bits that a generated encode appends to an aligned writer, and
    the values that a generated decode reads back, for legal schemas and
    values; then the legality of every decoded value. *)
Module GenFacts.
Import BitIO CodegenIR Gen.

Definition is_byte (b : Z) : Prop := 0 <= b < 256.

(** A reader between two [read_bits] calls: fewer than 8 buffered bits
    and a byte source. *)
Definition reader_wf (r : BitReader) : Prop :=
  (bits_left r < 8)%nat /\ Forall is_byte (input r).

Lemma read_loop_wf n value r x r' :
  read_loop n value r = Some (x, r') -> reader_wf r -> reader_wf r'.
Proof.
  revert value r. induction n as [|n IH]; intros value r E Hr.
  - cbn in E. assert (r = r') by congruence. subst. exact Hr.
  - cbn [read_loop] in E. unfold refill in E.
    destruct Hr as [Hl Hi].
    destruct (Nat.eqb_spec (bits_left r) 0) as [Z0|NZ].
    + destruct (input r) as [|b rest] eqn:Ei; [discriminate|].
      cbn [input rbuffer bits_left] in E.
      apply (IH _ _ E). split; cbn [input bits_left]; [lia|].
      inversion Hi; assumption.
    + cbv beta iota in E. apply (IH _ _ E). split; cbn [input bits_left]; [lia|exact Hi].
Qed.

Lemma read_bits_spec r v n rest :
  reader_wf r -> (n <= 64)%nat -> reader_bits r = bits_msb v n ++ rest ->
  exists r', read_bits r n = Some (v mod 2 ^ Z.of_nat n, r') /\ reader_wf r' /\ reader_bits r' = rest.
Proof.
  intros Hw Hn Hr.
  destruct (read_loop_spec n 0 r (bits_msb v n) rest Hr (length_bits_msb v n)) as (r' & E & Hr');
    [lia| rewrite Z.add_0_l, Z.mul_1_l; apply (pow2_mono n 64 Hn) |].
  exists r'. unfold read_bits. rewrite E. fold (bits_val (bits_msb v n)).
  rewrite bits_val_bits_msb. split; [reflexivity|]. split; [|exact Hr'].
  exact (read_loop_wf _ _ _ _ _ E Hw).
Qed.

Lemma read_loop_range n value r x r' k :
  read_loop n value r = Some (x, r') -> 0 <= value < 2 ^ Z.of_nat k -> (k + n <= 64)%nat ->
  0 <= x < 2 ^ Z.of_nat (k + n).
Proof.
  revert value r k. induction n as [|n IH]; intros value r k E Hv Hk.
  - cbn in E. assert (value = x) by congruence. subst. rewrite Nat.add_0_r. exact Hv.
  - cbn [read_loop] in E. destruct (refill r) as [r1|]; [|discriminate].
    rewrite land_shiftr_1 in E by lia.
    pose proof (pow2_mono (S k) 64 ltac:(lia)) as H64.
    rewrite Nat2Z.inj_succ, Z.pow_succ_r in H64 by lia.
    assert (Hs : Z.land (Z.shiftl value 1) (Z.ones 64) = 2 * value).
    { rewrite Z.land_ones, Z.shiftl_mul_pow2, Z.pow_1_r by lia.
      rewrite Z.mul_comm. apply Z.mod_small. change (2 ^ Z.of_nat 64) with (2 ^ 64) in H64. lia. }
    rewrite Hs, lor_double_b2z in E by lia.
    replace (k + S n)%nat with (S k + n)%nat by lia.
    apply (IH _ _ (S k) E); [|lia].
    rewrite Nat2Z.inj_succ, Z.pow_succ_r by lia.
    destruct (Z.testbit _ _); cbn [Z.b2z]; lia.
Qed.

Lemma read_bits_range r n x r' :
  read_bits r n = Some (x, r') -> (n <= 64)%nat -> 0 <= x < 2 ^ Z.of_nat n.
Proof.
  intros E Hn. apply (read_loop_range n 0 r x r' 0 E); cbn; lia.
Qed.

Lemma reader_bits_length r : length (reader_bits r) = (bits_left r + 8 * length (input r))%nat.
Proof. unfold reader_bits. rewrite length_app, length_bits_msb, length_stream_bits. reflexivity. Qed.

Lemma app_inv_length {A} (l1 l2 l3 l4 : list A) :
  l1 ++ l2 = l3 ++ l4 -> length l1 = length l3 -> l1 = l3 /\ l2 = l4.
Proof.
  intros E Hl. split.
  - rewrite <- (firstn_app_exact l1 l2 (length l1) eq_refl), E. apply firstn_app_exact. lia.
  - rewrite <- (skipn_app_exact l1 l2 (length l1) eq_refl), E. apply skipn_app_exact. lia.
Qed.

Lemma stream_bits_inj a b :
  Forall is_byte a -> Forall is_byte b -> stream_bits a = stream_bits b -> a = b.
Proof.
  intros Ha Hb E.
  assert (Hl : length a = length b).
  { apply (f_equal (@length bool)) in E. rewrite !length_stream_bits in E. lia. }
  rewrite <- (bytes_of_stream_bits a [] Ha), <- (bytes_of_stream_bits b [] Hb), E, Hl.
  reflexivity.
Qed.

Lemma reader_sync r pad R :
  reader_wf r -> reader_bits r = pad ++ stream_bits R -> (length pad < 8)%nat -> Forall is_byte R ->
  input r = R /\ bits_left r = length pad.
Proof.
  intros [Hl Hi] E Hp HR.
  assert (L := f_equal (@length bool) E). rewrite reader_bits_length, length_app, length_stream_bits in L.
  assert (Hk : bits_left r = length pad) by lia.
  unfold reader_bits in E.
  destruct (app_inv_length _ _ _ _ E) as [_ E2]; [rewrite length_bits_msb; exact Hk|].
  split; [|exact Hk]. exact (stream_bits_inj _ _ Hi HR E2).
Qed.

Lemma stream_bits_split X bs t k :
  Forall is_byte X -> stream_bits X = bs ++ t -> length bs = (8 * k)%nat ->
  exists X1 X2, X = X1 ++ X2 /\ stream_bits X1 = bs /\ stream_bits X2 = t /\
    Forall is_byte X1 /\ Forall is_byte X2.
Proof.
  intros HX E Hl.
  assert (L := f_equal (@length bool) E). rewrite length_stream_bits, length_app in L.
  exists (firstn k X), (skipn k X).
  rewrite <- (firstn_skipn k X) in E, HX. rewrite stream_bits_app in E.
  apply Forall_app in HX as [H1 H2].
  destruct (app_inv_length _ _ _ _ E) as [E1 E2].
  { rewrite length_stream_bits, length_firstn. lia. }
  repeat split; auto. symmetry. apply firstn_skipn.
Qed.

Lemma aligned_after r r' bs rest k :
  reader_wf r -> bits_left r = 0%nat -> reader_bits r = bs ++ rest -> length bs = (8 * k)%nat ->
  reader_wf r' -> reader_bits r' = rest -> bits_left r' = 0%nat.
Proof.
  intros _ H0 E Hl [Hl' _] E'.
  assert (L := f_equal (@length bool) E). rewrite reader_bits_length, length_app in L.
  assert (L' := reader_bits_length r'). rewrite E' in L'. lia.
Qed.

Lemma flush_spec2 w :
  writer_wf w -> exists pad, (length pad < 8)%nat /\ writer_wf (flush w) /\
    bits_filled (flush w) = 0%nat /\ stream_bits (out (flush w)) = writer_bits w ++ pad.
Proof.
  intros Hw. destruct (flush_spec w Hw) as [pad E]. exists pad.
  assert (L := f_equal (@length bool) E).
  rewrite length_stream_bits, length_app, writer_bits_length in L.
  split; [|split; [|split; [|exact E]]];
    destruct w as [o buf f]; destruct Hw as [Hf [Hb Ho]]; unfold flush in *;
    cbn [out buffer bits_filled] in *;
    destruct (Nat.ltb_spec 0 f) as [Hpos|Hz]; cbn [out buffer bits_filled length] in *;
    rewrite ?length_app in L; cbn [length] in L; try lia.
  - unfold writer_wf; cbn [out buffer bits_filled].
    split; [lia|]. split; [cbn; lia|]. apply Forall_app. split; [exact Ho|].
    constructor; [|constructor]. change 255 with (Z.ones 8). rewrite Z.land_ones by lia.
    apply Z.mod_pos_bound. lia.
  - unfold writer_wf; cbn [out buffer bits_filled]. split; [lia|]. split; [exact Hb|exact Ho].
Qed.

Lemma write_bytes_spec p w bs :
  writer_wf w -> bits_filled w = 0%nat -> Forall is_byte bs ->
  exists w', write_bytes p w bs = Some w' /\ writer_wf w' /\ bits_filled w' = 0%nat /\
    writer_bits w' = writer_bits w ++ stream_bits bs.
Proof.
  intros [Hf [Hb Ho]] H0 Hbs. exists (mkWriter (out w ++ bs) (buffer w) (bits_filled w)).
  split.
  - unfold write_bytes. rewrite H0. destruct p; reflexivity.
  - cbn [out buffer bits_filled]. split; [|split; [exact H0|]].
    + unfold writer_wf; cbn [out buffer bits_filled]. split; [lia|]. split; [exact Hb|]. apply Forall_app. split; [exact Ho|exact Hbs].
    + unfold writer_bits. cbn [out buffer bits_filled]. rewrite H0, stream_bits_app. cbn [bits_msb].
      rewrite !app_nil_r. reflexivity.
Qed.

(** *** Encoders and decoders as bit-list relations *)

(** The bits of a sequence of [write_bits] calls. *)
Definition wbits (ws : list (Z * nat)) : list bool := flat_map (fun p => bits_msb (fst p) (snd p)) ws.

(** [E] appends [bs] to an aligned writer and leaves it aligned. *)
Definition encodes (E : BitWriter -> option BitWriter) (bs : list bool) : Prop :=
  forall w, writer_wf w -> bits_filled w = 0%nat ->
  exists w', E w = Some w' /\ writer_wf w' /\ bits_filled w' = 0%nat /\ writer_bits w' = writer_bits w ++ bs.

(** [D] reads [a] from the bits [bs] at the head of a reader. *)
Definition decodes {A} (D : BitReader -> option (A * BitReader)) (a : A) (bs : list bool) : Prop :=
  forall r rest, reader_wf r -> reader_bits r = bs ++ rest ->
  exists r', D r = Some (a, r') /\ reader_wf r' /\ reader_bits r' = rest.

(** The same, from and to a reader at a byte boundary. *)
Definition decodes_aligned {A} (D : BitReader -> option (A * BitReader)) (a : A) (bs : list bool) : Prop :=
  forall r rest, reader_wf r -> bits_left r = 0%nat -> reader_bits r = bs ++ rest ->
  exists r', D r = Some (a, r') /\ reader_wf r' /\ bits_left r' = 0%nat /\ reader_bits r' = rest.

Lemma decodes_aligned_of {A} (D : BitReader -> option (A * BitReader)) a bs k :
  decodes D a bs -> length bs = (8 * k)%nat -> decodes_aligned D a bs.
Proof.
  intros HD Hl r rest Hw H0 E. destruct (HD r rest Hw E) as (r' & E' & Hw' & Er').
  exists r'. split; [exact E'|]. split; [exact Hw'|].
  split; [exact (aligned_after r r' bs rest k Hw H0 E Hl Hw' Er')|exact Er'].
Qed.

Lemma write_all_encodes ws k :
  Forall (fun p => (snd p <= 64)%nat) ws -> length (wbits ws) = (8 * k)%nat ->
  encodes (fun w => write_all w ws) (wbits ws).
Proof.
  intros Hws Hl w Hw H0. destruct (write_all_spec ws w Hws Hw) as (w' & E & Hw' & B).
  exists w'. split; [exact E|]. split; [exact Hw'|]. split; [|exact B].
  assert (L : length (writer_bits w') = (8 * (length (out w) + k))%nat).
  { rewrite B, length_app, writer_bits_length, H0. unfold wbits in Hl. rewrite Hl. lia. }
  exact (proj1 (writer_aligned_out w' _ Hw' L)).
Qed.

(** *** Enums and casts *)

Lemma try_from_from_nth values : forall k i n vv,
  nodup_Z (map snd values) = true -> nth_error values i = Some (n, vv) ->
  try_from_from k values vv = Known (k + i).
Proof.
  induction values as [|[n0 v0] values IH]; intros k i n vv Hnd Hi; [destruct i; discriminate|].
  cbn [map nodup_Z snd] in Hnd. apply andb_true_iff in Hnd as [Hn Hnd].
  cbn [try_from_from]. destruct i as [|i].
  - cbn in Hi. injection Hi as <- <-. rewrite Z.eqb_refl. f_equal. lia.
  - cbn [nth_error] in Hi. destruct (Z.eqb_spec v0 vv) as [->|Hne].
    + exfalso.
      assert (Hex : existsb (Z.eqb vv) (map snd values) = true).
      { apply existsb_exists. exists vv. split; [|apply Z.eqb_refl].
        apply in_map_iff. exists (n, vv). split; [reflexivity|exact (nth_error_In _ _ Hi)]. }
      rewrite Hex in Hn. discriminate.
    + rewrite (IH (S k) i n vv Hnd Hi). f_equal. lia.
Qed.

Lemma try_from_from_absent values : forall k v,
  existsb (fun nv => snd nv =? v) values = false -> try_from_from k values v = Unknown v.
Proof.
  induction values as [|[n0 v0] values IH]; intros k v H; [reflexivity|].
  cbn [existsb snd] in H. apply orb_false_iff in H as [H1 H2].
  cbn [try_from_from]. rewrite H1. apply IH, H2.
Qed.

Lemma fits_bounds v bits : fits v bits = true <-> 0 <= v < 2 ^ Z.of_nat bits.
Proof. unfold fits. rewrite andb_true_iff, Z.leb_le, Z.ltb_lt. reflexivity. Qed.

(** A declared variant or a legal [Unknown] goes through [u8::from] and
    back through [try_from]. *)
Lemma enum_roundtrip bits values ev :
  enum_values_ok bits values = true -> enum_value_ok bits values ev = true ->
  0 <= to_u8 values ev < 2 ^ Z.of_nat bits /\ to_u8 values ev < 256 /\
  try_from values (to_u8 values ev) = ev.
Proof.
  unfold enum_values_ok. intros Hv He. apply andb_true_iff in Hv as [Hnd Hall].
  destruct ev as [i|v]; cbn [enum_value_ok to_u8] in *.
  - apply Nat.ltb_lt in He.
    destruct (nth_error values i) as [[n vv]|] eqn:Ei; [|apply nth_error_None in Ei; lia].
    rewrite forallb_forall in Hall. specialize (Hall _ (nth_error_In _ _ Ei)).
    cbn [snd] in Hall. apply andb_true_iff in Hall as [Hf Hl].
    apply fits_bounds in Hf. apply Z.ltb_lt in Hl.
    split; [exact Hf|]. split; [exact Hl|].
    unfold try_from. rewrite (try_from_from_nth values 0 i n vv Hnd Ei). reflexivity.
  - apply andb_true_iff in He as [He Hx]. apply andb_true_iff in He as [Hf Hl].
    apply fits_bounds in Hf. apply Z.ltb_lt in Hl. apply negb_true_iff in Hx.
    split; [exact Hf|]. split; [exact Hl|]. apply try_from_from_absent, Hx.
Qed.

Lemma int_type_bits_ge bits :
  (bits <= 64)%nat -> Z.of_nat bits <= int_type_bits (Names.rust_type_for_bits bits).
Proof.
  intros H. unfold Names.rust_type_for_bits.
  destruct (Nat.leb_spec bits 8); [cbn; lia|].
  destruct (Nat.leb_spec bits 16); [cbn; lia|].
  destruct (Nat.leb_spec bits 32); [cbn; lia|].
  destruct (Nat.leb_spec bits 64); [cbn; lia|lia].
Qed.

Lemma as_field_type_id bits v :
  (bits <= 64)%nat -> 0 <= v < 2 ^ Z.of_nat bits -> as_field_type bits v = v.
Proof.
  intros Hb Hv. unfold as_field_type. apply Z.mod_small. split; [lia|].
  apply Z.lt_le_trans with (2 ^ Z.of_nat bits); [lia|].
  apply Z.pow_le_mono_r; [lia|]. apply int_type_bits_ge, Hb.
Qed.

Lemma as_u64_id bits v :
  (bits <= 64)%nat -> 0 <= v < 2 ^ Z.of_nat bits -> as_u64 v = v.
Proof.
  intros Hb Hv. unfold as_u64. apply Z.mod_small.
  pose proof (pow2_mono bits 64 Hb). change (2 ^ Z.of_nat 64) with (2 ^ 64) in H. lia.
Qed.

Lemma as_u8_id v : 0 <= v < 256 -> as_u8 v = v.
Proof. intros H. unfold as_u8. apply Z.mod_small. cbn. lia. Qed.

Lemma mod_pow2_id v bits : 0 <= v < 2 ^ Z.of_nat bits -> v mod 2 ^ Z.of_nat bits = v.
Proof. intros H. apply Z.mod_small, H. Qed.

(** *** Elements *)

Lemma wbits_app ws1 ws2 : wbits (ws1 ++ ws2) = wbits ws1 ++ wbits ws2.
Proof. unfold wbits. apply flat_map_app. Qed.

Lemma wbits_cons v n ws : wbits ((v, n) :: ws) = bits_msb v n ++ wbits ws.
Proof. reflexivity. Qed.

Lemma length_wbits_cons v n ws : length (wbits ((v, n) :: ws)) = (n + length (wbits ws))%nat.
Proof. rewrite wbits_cons, length_app, length_bits_msb. reflexivity. Qed.

Ltac forall_small := repeat (apply Forall_cons; [cbn [snd]; lia|]); apply Forall_nil.

Ltac read_step r v n rest Hw Hr :=
  let r1 := fresh "r" in let E := fresh "E" in let Hw1 := fresh "Hw" in let Hr1 := fresh "Hr" in
  destruct (read_bits_spec r v n rest Hw ltac:(lia) Hr) as (r1 & E & Hw1 & Hr1);
  rewrite E; cbv beta iota.

Lemma element_roundtrip e fv :
  element_ok e = true -> field_ok e fv = true ->
  exists ws, element_writes e fv = Some ws /\ Forall (fun p => (snd p <= 64)%nat) ws /\
    length (wbits ws) = bit_size e /\ decodes (fun r => element_decode r e) (Some fv) (wbits ws).
Proof.
  intros He Hf.
  destruct e as [n bits|c|n bits values|bits]; [| destruct c as [n bits|c|n bits values|bits] | |];
    destruct fv as [v|ev|o|o]; cbn [element_ok field_ok] in He, Hf; try discriminate.
  - (* Field *)
    apply Nat.leb_le in He. apply fits_bounds in Hf.
    exists [(v, bits)]. cbn [element_writes]. rewrite (as_u64_id bits v He Hf).
    split; [reflexivity|]. split; [forall_small|].
    split; [rewrite length_wbits_cons; cbn; lia|].
    intros r rest Hw Hr. rewrite wbits_cons, <- app_assoc in Hr. cbn [wbits flat_map app] in Hr.
    cbn [element_decode]. read_step r v bits rest Hw Hr.
    rewrite (mod_pow2_id v bits Hf), (as_field_type_id bits v He Hf). eauto.
  - (* EPB Field *)
    apply Nat.leb_le in He.
    destruct o as [v|].
    + apply fits_bounds in Hf. exists [(1, 1%nat); (v, bits)]. cbn [element_writes].
      rewrite (as_u64_id bits v He Hf).
      split; [reflexivity|]. split; [forall_small|].
      split; [rewrite !length_wbits_cons; cbn; lia|].
      intros r rest Hw Hr. rewrite !wbits_cons, <- !app_assoc in Hr. cbn [wbits flat_map app] in Hr.
      cbn [element_decode]. read_step r 1 1%nat (bits_msb v bits ++ rest) Hw Hr.
      replace (negb (1 mod 2 ^ Z.of_nat 1 =? 0)) with true by reflexivity.
      read_step r0 v bits rest Hw0 Hr0.
      rewrite (mod_pow2_id v bits Hf), (as_field_type_id bits v He Hf). eauto.
    + exists [(0, 1%nat); (0, bits)]. cbn [element_writes].
      split; [reflexivity|]. split; [forall_small|].
      split; [rewrite !length_wbits_cons; cbn; lia|].
      intros r rest Hw Hr. rewrite !wbits_cons, <- !app_assoc in Hr. cbn [wbits flat_map app] in Hr.
      cbn [element_decode]. read_step r 0 1%nat (bits_msb 0 bits ++ rest) Hw Hr.
      replace (negb (0 mod 2 ^ Z.of_nat 1 =? 0)) with false by reflexivity.
      read_step r0 0 bits rest Hw0 Hr0. eauto.
  - (* EPB Enum *)
    apply andb_true_iff in He as [Hb Hv]. apply Nat.leb_le in Hb.
    destruct o as [ev|].
    + destruct (enum_roundtrip bits values ev Hv Hf) as (Hf' & H256 & Ht).
      exists [(1, 1%nat); (to_u8 values ev, bits)]. cbn [element_writes].
      split; [reflexivity|]. split; [forall_small|].
      split; [rewrite !length_wbits_cons; cbn; lia|].
      intros r rest Hw Hr. rewrite !wbits_cons, <- !app_assoc in Hr. cbn [wbits flat_map app] in Hr.
      cbn [element_decode]. read_step r 1 1%nat (bits_msb (to_u8 values ev) bits ++ rest) Hw Hr.
      replace (negb (1 mod 2 ^ Z.of_nat 1 =? 0)) with true by reflexivity.
      read_step r0 (to_u8 values ev) bits rest Hw0 Hr0.
      rewrite (mod_pow2_id _ bits Hf'), as_u8_id, Ht by lia. eauto.
    + exists [(0, 1%nat); (0, bits)]. cbn [element_writes].
      split; [reflexivity|]. split; [forall_small|].
      split; [rewrite !length_wbits_cons; cbn; lia|].
      intros r rest Hw Hr. rewrite !wbits_cons, <- !app_assoc in Hr. cbn [wbits flat_map app] in Hr.
      cbn [element_decode]. read_step r 0 1%nat (bits_msb 0 bits ++ rest) Hw Hr.
      replace (negb (0 mod 2 ^ Z.of_nat 1 =? 0)) with false by reflexivity.
      read_step r0 0 bits rest Hw0 Hr0. eauto.
  - (* Enum *)
    apply andb_true_iff in He as [Hb Hv]. apply Nat.leb_le in Hb.
    destruct (enum_roundtrip bits values ev Hv Hf) as (Hf' & H256 & Ht).
    exists [(to_u8 values ev, bits)]. cbn [element_writes].
    split; [reflexivity|]. split; [forall_small|].
    split; [rewrite !length_wbits_cons; cbn; lia|].
    intros r rest Hw Hr. rewrite !wbits_cons, <- !app_assoc in Hr. cbn [wbits flat_map app] in Hr.
    cbn [element_decode]. read_step r (to_u8 values ev) bits rest Hw Hr.
    rewrite (mod_pow2_id _ bits Hf'), as_u8_id, Ht by lia. eauto.
Qed.

Lemma spare_roundtrip bits :
  (bits <= 64)%nat -> decodes (fun r => element_decode r (Spare bits)) None (wbits [(0, bits)]).
Proof.
  intros Hb r rest Hw Hr. rewrite wbits_cons, <- app_assoc in Hr. cbn [wbits flat_map app] in Hr.
  cbn [element_decode]. read_step r 0 bits rest Hw Hr. eauto.
Qed.

Lemma elements_cons_nonspare e es fv fs :
  (forall bits, e <> Spare bits) ->
  elements_writes (e :: es) (fv :: fs) =
    (w <- element_writes e fv ;; ws <- elements_writes es fs ;; Some (w ++ ws)) /\
  fields_ok (e :: es) (fv :: fs) = field_ok e fv && fields_ok es fs /\
  fields_ok (e :: es) [] = false.
Proof.
  intros H. destruct e; try (split; [reflexivity|split; reflexivity]). exfalso. eapply H. reflexivity.
Qed.

Lemma elements_roundtrip es : forall fs,
  forallb element_ok es = true -> fields_ok es fs = true ->
  exists ws, elements_writes es fs = Some ws /\ Forall (fun p => (snd p <= 64)%nat) ws /\
    length (wbits ws) = sum_bits es /\ decodes (fun r => elements_decode r es) fs (wbits ws).
Proof.
  induction es as [|e es IH]; intros fs Hok Hf.
  - destruct fs; [|discriminate]. exists []. split; [reflexivity|]. split; [constructor|].
    split; [reflexivity|]. intros r rest Hw Hr. exists r. auto.
  - cbn [forallb] in Hok. apply andb_true_iff in Hok as [He Hok].
    assert (Hsp : (exists bits, e = Spare bits) \/ (forall bits, e <> Spare bits)).
    { destruct e; [right; discriminate|right; discriminate|right; discriminate|left; eauto]. }
    destruct Hsp as [[bits ->]|Hns].
    + cbn [element_ok] in He. apply Nat.leb_le in He.
      destruct (IH fs Hok Hf) as (ws & E & Hws & Hl & Hd).
      exists ((0, bits) :: ws). cbn [elements_writes]. rewrite E.
      split; [reflexivity|]. split; [constructor; [exact He|exact Hws]|].
      split; [rewrite length_wbits_cons, Hl; reflexivity|].
      intros r rest Hw Hr. rewrite wbits_cons, <- app_assoc in Hr.
      cbn [elements_decode element_decode]. read_step r 0 bits (wbits ws ++ rest) Hw Hr.
      destruct (Hd r0 rest Hw0 Hr0) as (r2 & E2 & Hw2 & Hr2). rewrite E2. cbv beta iota. eauto.
    + destruct fs as [|fv fs].
      { destruct (elements_cons_nonspare e es (VInt 0) [] Hns) as (_ & _ & H0). congruence. }
      destruct (elements_cons_nonspare e es fv fs Hns) as (Ew & Ef & _).
      rewrite Ef in Hf. apply andb_true_iff in Hf as [Hf1 Hf].
      destruct (element_roundtrip e fv He Hf1) as (w & Ew1 & Hw1 & Hl1 & Hd1).
      destruct (IH fs Hok Hf) as (ws & E & Hws & Hl & Hd).
      exists (w ++ ws). rewrite Ew, Ew1, E.
      split; [reflexivity|]. split; [apply Forall_app; split; assumption|].
      split.
      { rewrite wbits_app, length_app, Hl1, Hl. destruct e; reflexivity || (exfalso; eapply Hns; reflexivity). }
      intros r rest Hw Hr. rewrite wbits_app, <- app_assoc in Hr.
      cbn [elements_decode].
      destruct (Hd1 r _ Hw Hr) as (r1 & E1 & Hw1' & Hr1). rewrite E1. cbv beta iota.
      destruct (Hd r1 rest Hw1' Hr1) as (r2 & E2 & Hw2 & Hr2). rewrite E2. cbv beta iota. eauto.
Qed.

(** *** Extended, Repetitive and basic layouts *)

(** Whether the first remaining part is present: the FX bit written
    before it. *)
Definition fx_bool (ps : list (option (list FieldValue))) : bool :=
  match ps with Some _ :: _ => true | _ => false end.

Lemma fx_of_next_read ps : negb (fx_of_next ps mod 2 ^ Z.of_nat 1 =? 0) = fx_bool ps.
Proof. destruct ps as [|[?|] ?]; reflexivity. Qed.

Lemma fx_of_next_bits ps : 0 <= fx_of_next ps < 2 ^ Z.of_nat 1.
Proof. destruct ps as [|[?|] ?]; cbn; lia. Qed.

Lemma parts_ok_false gs ps : parts_ok gs ps false = true -> fx_bool ps = false.
Proof. destruct gs, ps as [|[?|] ?]; cbn; congruence. Qed.

Lemma elements_ok_spec es bits :
  elements_ok es bits = true <-> forallb element_ok es = true /\ sum_bits es = bits.
Proof. unfold elements_ok. rewrite andb_true_iff, Nat.eqb_eq. reflexivity. Qed.

Lemma ext_rest_roundtrip gs : forall ps prev,
  forallb (fun g => elements_ok (elements g) 7) gs = true -> parts_ok gs ps prev = true ->
  exists ws, ext_rest_writes gs ps = Some ws /\ Forall (fun p => (snd p <= 64)%nat) ws /\
    (exists k, length (wbits ws) = (8 * k)%nat) /\
    decodes (fun r => ext_rest_decode (fx_bool ps) r gs) ps (wbits ws).
Proof.
  induction gs as [|g gs IH]; intros ps prev Hg Hp.
  - destruct ps; [|discriminate]. exists []. split; [reflexivity|]. split; [constructor|].
    split; [exists 0%nat; reflexivity|]. intros r rest Hw Hr. exists r. auto.
  - cbn [forallb] in Hg. apply andb_true_iff in Hg as [Hg1 Hg].
    apply elements_ok_spec in Hg1 as [Hok Hsum].
    destruct ps as [|[d|] ps]; [discriminate| |].
    + cbn [parts_ok] in Hp. apply andb_true_iff in Hp as [Hp Hp2]. apply andb_true_iff in Hp as [_ Hf].
      destruct (elements_roundtrip (elements g) d Hok Hf) as (wd & Ed & Hwd & Hld & Hdd).
      destruct (IH ps true Hg Hp2) as (ws & E & Hws & [k Hk] & Hd).
      exists (wd ++ (fx_of_next ps, 1%nat) :: ws). cbn [ext_rest_writes]. rewrite E, Ed.
      split; [reflexivity|].
      split; [apply Forall_app; split; [exact Hwd|constructor; [cbn; lia|exact Hws]]|].
      split; [exists (S k); rewrite wbits_app, length_app, length_wbits_cons, Hld, Hsum, Hk; lia|].
      intros r rest Hw Hr. rewrite wbits_app, wbits_cons, <- !app_assoc in Hr.
      cbn [fx_bool ext_rest_decode].
      destruct (Hdd r _ Hw Hr) as (r1 & E1 & Hw1 & Hr1). rewrite E1. cbv beta iota.
      pose proof (fx_of_next_bits ps).
      read_step r1 (fx_of_next ps) 1%nat (wbits ws ++ rest) Hw1 Hr1.
      rewrite fx_of_next_read.
      destruct (Hd r0 rest Hw0 Hr0) as (r2 & E2 & Hw2 & Hr2). rewrite E2. cbv beta iota. eauto.
    + cbn [parts_ok] in Hp.
      destruct (IH ps false Hg Hp) as (ws & E & Hws & Hk & Hd).
      exists ws. cbn [ext_rest_writes]. rewrite E.
      split; [reflexivity|]. split; [exact Hws|]. split; [exact Hk|].
      intros r rest Hw Hr. cbn [fx_bool ext_rest_decode].
      rewrite (parts_ok_false _ _ Hp) in Hd.
      destruct (Hd r rest Hw Hr) as (r2 & E2 & Hw2 & Hr2). rewrite E2. cbv beta iota. eauto.
Qed.

Lemma extended_roundtrip gs ps :
  forallb (fun g => elements_ok (elements g) 7) gs = true ->
  match gs, ps with
  | [], [] => true
  | g0 :: gs', Some d0 :: ps' => fields_ok (elements g0) d0 && parts_ok gs' ps' true
  | _, _ => false
  end = true ->
  exists ws, extended_writes gs ps = Some ws /\ Forall (fun p => (snd p <= 64)%nat) ws /\
    (exists k, length (wbits ws) = (8 * k)%nat) /\
    decodes (fun r => extended_decode r gs) ps (wbits ws).
Proof.
  intros Hg Hv. destruct gs as [|g gs].
  - destruct ps; [|discriminate]. exists []. split; [reflexivity|]. split; [constructor|].
    split; [exists 0%nat; reflexivity|]. intros r rest Hw Hr. exists r. auto.
  - destruct ps as [|[d|] ps]; try discriminate.
    cbn [forallb] in Hg. apply andb_true_iff in Hg as [Hg1 Hg].
    apply elements_ok_spec in Hg1 as [Hok Hsum].
    apply andb_true_iff in Hv as [Hf Hp].
    destruct (elements_roundtrip (elements g) d Hok Hf) as (wd & Ed & Hwd & Hld & Hdd).
    destruct (ext_rest_roundtrip gs ps true Hg Hp) as (ws & E & Hws & [k Hk] & Hd).
    exists (wd ++ (fx_of_next ps, 1%nat) :: ws). cbn [extended_writes]. rewrite E, Ed.
    split; [reflexivity|].
    split; [apply Forall_app; split; [exact Hwd|constructor; [cbn; lia|exact Hws]]|].
    split; [exists (S k); rewrite wbits_app, length_app, length_wbits_cons, Hld, Hsum, Hk; lia|].
    intros r rest Hw Hr. rewrite wbits_app, wbits_cons, <- !app_assoc in Hr.
    cbn [extended_decode].
    destruct (Hdd r _ Hw Hr) as (r1 & E1 & Hw1 & Hr1). rewrite E1. cbv beta iota.
    pose proof (fx_of_next_bits ps).
    read_step r1 (fx_of_next ps) 1%nat (wbits ws ++ rest) Hw1 Hr1.
    rewrite fx_of_next_read.
    destruct (Hd r0 rest Hw0 Hr0) as (r2 & E2 & Hw2 & Hr2). rewrite E2. cbv beta iota. eauto.
Qed.

Lemma rep_roundtrip es its :
  forallb element_ok es = true -> forallb (fields_ok es) its = true ->
  exists ws, rep_writes es its = Some ws /\ Forall (fun p => (snd p <= 64)%nat) ws /\
    length (wbits ws) = (length its * sum_bits es)%nat /\
    decodes (fun r => rep_decode r es (length its)) its (wbits ws).
Proof.
  intros Hok. induction its as [|it its IH]; intros Hf.
  - exists []. split; [reflexivity|]. split; [constructor|]. split; [reflexivity|].
    intros r rest Hw Hr. exists r. auto.
  - cbn [forallb] in Hf. apply andb_true_iff in Hf as [Hf1 Hf].
    destruct (elements_roundtrip es it Hok Hf1) as (wd & Ed & Hwd & Hld & Hdd).
    destruct (IH Hf) as (ws & E & Hws & Hl & Hd).
    exists (wd ++ ws). cbn [rep_writes]. rewrite Ed, E.
    split; [reflexivity|]. split; [apply Forall_app; split; assumption|].
    split; [rewrite wbits_app, length_app, Hld, Hl; cbn [length]; lia|].
    intros r rest Hw Hr. rewrite wbits_app, <- app_assoc in Hr. cbn [length rep_decode].
    destruct (Hdd r _ Hw Hr) as (r1 & E1 & Hw1 & Hr1). rewrite E1. cbv beta iota.
    destruct (Hd r1 rest Hw1 Hr1) as (r2 & E2 & Hw2 & Hr2). rewrite E2. cbv beta iota. eauto.
Qed.

Lemma layout_roundtrip l v :
  basic_layout_ok l = true -> basic_value_ok l v = true ->
  exists ws, layout_writes l v = Some ws /\ Forall (fun p => (snd p <= 64)%nat) ws /\
    (exists k, length (wbits ws) = (8 * k)%nat) /\
    decodes (fun r => layout_decode r l) v (wbits ws).
Proof.
  intros Hl Hv.
  destruct l as [bytes es|bytes es|bytes gs|bytes count es|subs]; destruct v as [fs|ps|its|vs];
    cbn [basic_layout_ok basic_value_ok] in Hl, Hv; try discriminate.
  - apply elements_ok_spec in Hl as [Hok Hsum].
    destruct (elements_roundtrip es fs Hok Hv) as (ws & E & Hws & Hlen & Hd).
    exists ws. cbn [layout_writes]. split; [exact E|]. split; [exact Hws|].
    split; [exists bytes; lia|].
    intros r rest Hw Hr. cbn [layout_decode].
    destruct (Hd r rest Hw Hr) as (r2 & E2 & Hw2 & Hr2). rewrite E2. cbv beta iota. eauto.
  - apply elements_ok_spec in Hl as [Hok Hsum].
    destruct (elements_roundtrip es fs Hok Hv) as (ws & E & Hws & Hlen & Hd).
    exists ((Z.of_nat (bytes + 1), 8%nat) :: ws). cbn [layout_writes]. rewrite E.
    split; [reflexivity|]. split; [constructor; [cbn; lia|exact Hws]|].
    split; [exists (S bytes); rewrite length_wbits_cons; lia|].
    intros r rest Hw Hr. rewrite wbits_cons, <- app_assoc in Hr. cbn [layout_decode].
    destruct (read_bits_spec r (Z.of_nat (bytes + 1)) 8 _ Hw ltac:(lia) Hr) as (r1 & E1 & Hw1 & Hr1).
    rewrite E1. cbv beta iota.
    destruct (Hd r1 rest Hw1 Hr1) as (r2 & E2 & Hw2 & Hr2). rewrite E2. cbv beta iota. eauto.
  - apply andb_true_iff in Hl as [Hl _]. apply andb_true_iff in Hl as [Hg _].
    destruct (extended_roundtrip gs ps Hg Hv) as (ws & E & Hws & Hk & Hd).
    exists ws. cbn [layout_writes]. split; [exact E|]. split; [exact Hws|]. split; [exact Hk|].
    intros r rest Hw Hr. cbn [layout_decode].
    destruct (Hd r rest Hw Hr) as (r2 & E2 & Hw2 & Hr2). rewrite E2. cbv beta iota. eauto.
  - apply elements_ok_spec in Hl as [Hok Hsum].
    apply andb_true_iff in Hv as [Hc Hv]. apply Nat.eqb_eq in Hc.
    destruct (rep_roundtrip es its Hok Hv) as (ws & E & Hws & Hlen & Hd).
    exists ws. cbn [layout_writes]. split; [exact E|]. split; [exact Hws|].
    split; [exists (length its * bytes)%nat; rewrite Hlen, Hsum; lia|].
    intros r rest Hw Hr. cbn [layout_decode]. rewrite <- Hc.
    destruct (Hd r rest Hw Hr) as (r2 & E2 & Hw2 & Hr2). rewrite E2. cbv beta iota. eauto.
Qed.

(** *** FSPEC of a generated encode *)

Lemma lor_byte a b : is_byte a -> is_byte b -> is_byte (Z.lor a b).
Proof.
  unfold is_byte. intros Ha Hb.
  assert (E : Z.lor a b = Z.lor a b mod 2 ^ 8).
  { apply Z.bits_inj'. intros m Hm. destruct (Z.lt_ge_cases m 8) as [Hlt|Hge].
    - rewrite Z.mod_pow2_bits_low by lia. reflexivity.
    - rewrite Z.mod_pow2_bits_high by lia. rewrite Z.lor_spec.
      rewrite <- (Z.mod_small a (2 ^ 8)), <- (Z.mod_small b (2 ^ 8)) by (cbn; lia).
      rewrite !Z.mod_pow2_bits_high by lia. reflexivity. }
  rewrite E. apply Z.mod_pos_bound. lia.
Qed.

Lemma Forall_update_nth {A} (P : A -> Prop) g l : forall b,
  Forall P l -> (forall x, P x -> P (g x)) -> Forall P (update_nth b g l).
Proof.
  induction l as [|x l IH]; intros b Hl Hg; [destruct b; constructor|].
  inversion Hl; subst. destruct b; cbn; constructor; auto.
Qed.

Lemma Forall_map_firstn {A} (P : A -> Prop) g l : forall n,
  Forall P l -> (forall x, P x -> P (g x)) -> Forall P (map_firstn n g l).
Proof.
  induction l as [|x l IH]; intros n Hl Hg; [destruct n; constructor|].
  inversion Hl; subst. destruct n; cbn; constructor; auto.
Qed.

Lemma set_bytes f b k f' :
  Forall is_byte (Fspec.bytes f) -> Fspec.set f b k = Some f' -> Forall is_byte (Fspec.bytes f').
Proof.
  intros Hf E. unfold Fspec.set in E. destruct (Nat.ltb_spec 7 k); [discriminate|].
  injection E as <-. cbn [Fspec.bytes].
  apply Forall_map_firstn; [apply Forall_update_nth|].
  - unfold Fspec.grow. apply Forall_app. split; [exact Hf|].
    apply Forall_forall. intros x Hx. apply repeat_spec in Hx. subst. unfold is_byte. lia.
  - intros x Hx. apply lor_byte; [exact Hx|]. unfold is_byte.
    rewrite Z.shiftl_1_l. split; [apply Z.pow_nonneg; lia|].
    apply Z.le_lt_trans with (2 ^ 7); [apply Z.pow_le_mono_r; [lia|]|reflexivity].
    clear -H. destruct k as [|[|[|[|[|[|[|k]]]]]]]; cbn; lia.
  - intros x Hx. apply lor_byte; [exact Hx|]. unfold is_byte. lia.
Qed.

Lemma set_all_bytes ps : forall f f',
  Forall is_byte (Fspec.bytes f) -> Fspec.set_all f ps = Some f' -> Forall is_byte (Fspec.bytes f').
Proof.
  induction ps as [|[b k] ps IH]; intros f f' Hf E; cbn [Fspec.set_all] in E.
  - congruence.
  - destruct (Fspec.set f b k) as [f1|] eqn:E1; [|discriminate].
    exact (IH f1 f' (set_bytes _ _ _ _ Hf E1) E).
Qed.

Lemma fspec_bytes ps f :
  Fspec.set_all Fspec.new ps = Some f -> Forall is_byte (Fspec.write f).
Proof.
  intros E. apply (set_all_bytes ps Fspec.new f); [|exact E].
  repeat constructor; unfold is_byte; lia.
Qed.

Lemma fspec_nonempty ps f :
  Forall (fun p => (snd p <= 6)%nat) ps -> Fspec.set_all Fspec.new ps = Some f -> Fspec.write f <> [].
Proof.
  intros HS H. exact (proj1 (Fspec.fx_ok_set_all _ _ _ HS Fspec.fx_ok_new H)).
Qed.

Lemma fspec_write_read ps f rest :
  Forall (fun p => (snd p <= 6)%nat) ps -> Fspec.set_all Fspec.new ps = Some f ->
  Fspec.read (Fspec.write f ++ rest) = Some (f, rest).
Proof.
  intros HS H.
  destruct (Fspec.fx_ok_set_all _ _ _ HS Fspec.fx_ok_new H) as [Hne Hfx].
  unfold Fspec.read, Fspec.write.
  rewrite (Fspec.read_bytes_fx _ rest Hne) by (intros i; apply Hfx).
  destruct f; reflexivity.
Qed.

Lemma fspec_is_set ps f b k :
  Forall (fun p => (snd p <= 6)%nat) ps -> Fspec.set_all Fspec.new ps = Some f -> (k <= 6)%nat ->
  Fspec.is_set f b k = Some (existsb (fun p => Nat.eqb b (fst p) && Nat.eqb k (snd p)) ps).
Proof.
  intros HS H Hk. rewrite Fspec.is_set_bitat by lia.
  rewrite (Fspec.set_all_data_bitat _ _ _ _ _ HS Hk H), Fspec.bitat_new. reflexivity.
Qed.

(** *** Presence of the optional entries *)

Lemma present_positions_some {A} (idx : list nat) : forall (vs : list (option A)),
  length idx = length vs -> exists ps, present_positions idx vs = Some ps.
Proof.
  induction idx as [|i idx IH]; intros [|o vs] Hl; cbn [length] in Hl; try discriminate.
  - exists []. reflexivity.
  - destruct (IH vs ltac:(lia)) as [ps E].
    cbn [present_positions]. rewrite E. eauto.
Qed.

Lemma present_positions_small {A} (idx : list nat) : forall (vs : list (option A)) ps,
  present_positions idx vs = Some ps -> Forall (fun p => (snd p <= 6)%nat) ps.
Proof.
  induction idx as [|i idx IH]; intros [|o vs] ps E; cbn [present_positions] in E; try discriminate.
  - injection E as <-. constructor.
  - destruct (present_positions idx vs) as [ps'|] eqn:E'; [|discriminate]. injection E as <-.
    pose proof (IH _ _ E').
    destruct o; [constructor; [cbn [snd frn_to_fspec_position]; pose proof (Nat.mod_upper_bound i 7 ltac:(lia)); lia|]|]; assumption.
Qed.

Lemma present_positions_in {A} (idx : list nat) : forall (vs : list (option A)) ps b k,
  present_positions idx vs = Some ps ->
  (In (b, k) ps <-> exists n i a, nth_error idx n = Some i /\ nth_error vs n = Some (Some a) /\
                                  frn_to_fspec_position i = (b, k)).
Proof.
  induction idx as [|i idx IH]; intros [|o vs] ps b k E; cbn [present_positions] in E; try discriminate.
  - injection E as <-. split; [intros []|]. intros (n & i & a & Hn & _). destruct n; discriminate.
  - destruct (present_positions idx vs) as [ps'|] eqn:E'; [|discriminate]. injection E as <-.
    specialize (IH vs ps' b k E').
    split.
    + intros Hin. destruct o as [a|].
      * destruct Hin as [Hp|Hin].
        -- exists 0%nat, i, a. auto.
        -- apply IH in Hin as (n & j & a' & ?). exists (S n), j, a'. auto.
      * apply IH in Hin as (n & j & a' & ?). exists (S n), j, a'. auto.
    + intros ([|n] & j & a & Hn & Hv & Hp); cbn [nth_error] in Hn, Hv.
      * injection Hn as <-. injection Hv as ->. left. exact Hp.
      * assert (In (b, k) ps') by (apply IH; exists n, j, a; auto). destruct o; [right|]; assumption.
Qed.

Lemma nodup_nat_NoDup l : nodup_nat l = true -> NoDup l.
Proof.
  induction l as [|x l IH]; intros H; [constructor|].
  cbn [nodup_nat] in H. apply andb_true_iff in H as [H1 H2]. constructor; [|auto].
  intros Hin. apply negb_true_iff in H1.
  assert (existsb (Nat.eqb x) l = true) by (apply existsb_exists; exists x; split; [exact Hin|apply Nat.eqb_refl]).
  congruence.
Qed.

Lemma frn_to_fspec_position_inj i j :
  frn_to_fspec_position i = frn_to_fspec_position j -> i = j.
Proof.
  intros E.
  assert (E1 : (i / 7 = j / 7)%nat) by exact (f_equal fst E).
  assert (E2 : (i mod 7 = j mod 7)%nat) by exact (f_equal snd E).
  rewrite (Nat.div_mod_eq i 7), (Nat.div_mod_eq j 7), E1, E2. reflexivity.
Qed.

(** The FSPEC written by a generated encode marks exactly the present
    entries. *)
Lemma fspec_presence {A} (idx : list nat) (vs : list (option A)) ps f :
  nodup_nat idx = true -> present_positions idx vs = Some ps ->
  Fspec.set_all Fspec.new ps = Some f ->
  forall n i o, nth_error idx n = Some i -> nth_error vs n = Some o ->
  Fspec.is_set f (i / 7) (i mod 7) = Some (match o with Some _ => true | None => false end).
Proof.
  intros Hnd Hp Hf n i o Hi Ho.
  pose proof (present_positions_small idx vs ps Hp) as HS.
  rewrite (fspec_is_set ps f _ _ HS Hf) by (pose proof (Nat.mod_upper_bound i 7 ltac:(lia)); lia).
  f_equal.
  assert (Hiff : existsb (fun p => Nat.eqb (i / 7) (fst p) && Nat.eqb (i mod 7) (snd p)) ps = true
                 <-> In (i / 7, i mod 7)%nat ps).
  { rewrite existsb_exists. split.
    - intros ([b k] & Hin & Eb). cbn [fst snd] in Eb. apply andb_true_iff in Eb as [E1 E2].
      apply Nat.eqb_eq in E1, E2. subst. exact Hin.
    - intros Hin. exists (i / 7, i mod 7)%nat. split; [exact Hin|]. cbn. rewrite !Nat.eqb_refl. reflexivity. }
  rewrite (present_positions_in idx vs ps _ _ Hp) in Hiff.
  destruct (existsb _ ps) eqn:Eb; destruct o as [a|]; try reflexivity.
  - destruct (proj1 Hiff eq_refl) as (n' & j & a & Hj & Hv & Hpos).
    apply frn_to_fspec_position_inj in Hpos. subst j.
    assert (n' = n) by (apply (proj1 (NoDup_nth_error idx) (nodup_nat_NoDup _ Hnd));
                        [apply nth_error_Some; congruence|congruence]).
    subst n'. congruence.
  - apply Hiff. exists n, i, a. auto.
Qed.

(** *** Sequencing and nesting of encoders and decoders *)

Lemma writer_new_wf : writer_wf writer_new.
Proof. unfold writer_wf, writer_new; cbn [out buffer bits_filled]. split; [lia|]. split; [cbn; lia|constructor]. Qed.

Lemma flush_aligned w : bits_filled w = 0%nat -> flush w = w.
Proof. intros H. unfold flush. rewrite H. reflexivity. Qed.

Lemma encodes_seq E1 E2 b1 b2 :
  encodes E1 b1 -> encodes E2 b2 -> encodes (fun w => w1 <- E1 w ;; E2 w1) (b1 ++ b2).
Proof.
  intros H1 H2 w Hw H0.
  destruct (H1 w Hw H0) as (w1 & Ew1 & Hw1 & H01 & B1). rewrite Ew1. cbv beta iota.
  destruct (H2 w1 Hw1 H01) as (w2 & Ew2 & Hw2 & H02 & B2).
  exists w2. split; [exact Ew2|]. split; [exact Hw2|]. split; [exact H02|].
  rewrite B2, B1, app_assoc. reflexivity.
Qed.

Lemma encodes_fresh E bs :
  encodes E bs -> exists w2, E writer_new = Some w2 /\ writer_wf w2 /\ bits_filled w2 = 0%nat /\ writer_bits w2 = bs.
Proof.
  intros H. destruct (H writer_new writer_new_wf eq_refl) as (w2 & Ew & Hw & H0 & B).
  exists w2. split; [exact Ew|]. split; [exact Hw|]. split; [exact H0|]. rewrite B. reflexivity.
Qed.

Lemma aligned_stream w : bits_filled w = 0%nat -> writer_bits w = stream_bits (out w).
Proof. intros H. unfold writer_bits. rewrite H. cbn [bits_msb]. apply app_nil_r. Qed.

(** A nested [BitWriter] whose body leaves it aligned hands its bits on. *)
Lemma nested_write_encodes p body bs :
  (exists w2, body writer_new = Some w2 /\ writer_wf w2 /\ bits_filled w2 = 0%nat /\ writer_bits w2 = bs) ->
  encodes (fun w => nested_write p w body) bs.
Proof.
  intros (w2 & Eb & Hw2 & H02 & B2) w Hw H0. unfold nested_write. rewrite Eb. cbv beta iota.
  rewrite aligned_stream in B2 by exact H02.
  assert (Hby : Forall is_byte (out w2)) by exact (proj2 (proj2 Hw2)).
  destruct (out w2) as [|b0 bt] eqn:Eo.
  - exists w. cbn in B2. subst bs. rewrite app_nil_r. auto.
  - destruct (write_bytes_spec p w (b0 :: bt) Hw H0 Hby) as (w' & E' & Hw' & H0' & B').
    exists w'. rewrite <- B2. auto.
Qed.

(** An FSPEC written through the byte-level [Write], then a nested body. *)
Lemma fspec_frame_encodes p ps f body bs :
  Fspec.set_all Fspec.new ps = Some f ->
  (exists w2, body writer_new = Some w2 /\ writer_wf w2 /\ bits_filled w2 = 0%nat /\ writer_bits w2 = bs) ->
  encodes (fun w => w1 <- write_bytes p w (Fspec.write f) ;; nested_write p w1 body)
    (stream_bits (Fspec.write f) ++ bs).
Proof.
  intros Hf Hb. apply encodes_seq; [|exact (nested_write_encodes p body bs Hb)].
  intros w Hw H0. exact (write_bytes_spec p w _ Hw H0 (fspec_bytes ps f Hf)).
Qed.

Lemma reader_new_wf b : Forall is_byte b -> reader_wf (reader_new b).
Proof. intros H. split; [cbn; lia|exact H]. Qed.

Lemma reader_new_bits b : reader_bits (reader_new b) = stream_bits b.
Proof. reflexivity. Qed.

(** An FSPEC read through the byte-level [Read], then a nested reader. *)
Lemma fspec_frame_decodes {A} p (D : Fspec.Fspec -> BitReader -> option (A * BitReader)) ps f a bs :
  Forall (fun p => (snd p <= 6)%nat) ps -> Fspec.set_all Fspec.new ps = Some f ->
  decodes_aligned (D f) a bs ->
  decodes_aligned (fun r => '(f', r1) <- fspec_read p r ;; nested_read p r1 (D f'))
    a (stream_bits (Fspec.write f) ++ bs).
Proof.
  intros HS Hf HD r rest Hw H0 Hr.
  unfold reader_bits in Hr. rewrite H0 in Hr. cbn [bits_msb app] in Hr. rewrite <- app_assoc in Hr.
  destruct (stream_bits_split (input r) _ _ (length (Fspec.write f)) (proj2 Hw) Hr (length_stream_bits _))
    as (X1 & X2 & EX & E1 & E2 & HX1 & HX2).
  assert (X1 = Fspec.write f) by exact (stream_bits_inj _ _ HX1 (fspec_bytes ps f Hf) E1). subst X1.
  assert (Ef : fspec_read p r = Some (f, mkReader X2 (rbuffer r) 0)).
  { unfold fspec_read. rewrite H0, EX, (fspec_write_read ps f X2 HS Hf). destruct p; reflexivity. }
  rewrite Ef. cbv beta iota. unfold nested_read. cbn [input].
  destruct (HD (reader_new X2) rest (reader_new_wf X2 HX2) eq_refl E2) as (r' & E' & Hw' & H0' & Hr').
  rewrite E'. cbv beta iota. cbn [bits_left Nat.eqb].
  exists (mkReader (input r') (rbuffer r) 0).
  split; [destruct p; reflexivity|].
  split; [split; [cbn; lia|exact (proj2 Hw')]|].
  split; [reflexivity|].
  unfold reader_bits in *. rewrite H0' in Hr'. exact Hr'.
Qed.

(** Bytes of an encoding, and their decoding in front of any bytes. *)
Lemma encodes_bytes E bs k :
  length bs = (8 * k)%nat -> encodes E bs ->
  exists b, (w <- E writer_new ;; Some (out (flush w))) = Some b /\ stream_bits b = bs /\ Forall is_byte b.
Proof.
  intros _ H. destruct (encodes_fresh E bs H) as (w & Ew & Hw & H0 & B).
  exists (out w). rewrite Ew. cbv beta iota. rewrite flush_aligned by exact H0.
  split; [reflexivity|]. split; [rewrite <- aligned_stream by exact H0; exact B|exact (proj2 (proj2 Hw))].
Qed.

Lemma decodes_bytes {A} (D : BitReader -> option (A * BitReader)) a b rest :
  Forall is_byte b -> Forall is_byte rest -> decodes_aligned D a (stream_bits b) ->
  exists r', D (reader_new (b ++ rest)) = Some (a, r') /\ input r' = rest.
Proof.
  intros Hb Hr HD.
  destruct (HD (reader_new (b ++ rest)) (stream_bits rest)) as (r' & E & Hw' & H0' & B');
    [apply reader_new_wf, Forall_app; auto|reflexivity|rewrite reader_new_bits; apply stream_bits_app|].
  exists r'. split; [exact E|].
  exact (proj1 (reader_sync r' [] rest Hw' B' ltac:(cbn; lia) Hr)).
Qed.

Lemma opt_values_ok_length {A} ok (ls : list A) : forall vs,
  opt_values_ok ok ls vs = true -> length ls = length vs.
Proof.
  induction ls as [|l ls IH]; intros [|o vs] H; cbn [opt_values_ok] in H; try discriminate; [reflexivity|].
  apply andb_true_iff in H as [_ H]. cbn [length]. f_equal. exact (IH vs H).
Qed.

(** *** Compound items *)

Lemma subs_roundtrip f subs : forall vs,
  forallb (fun s => basic_layout_ok (sub_layout s)) subs = true ->
  opt_values_ok (fun s v => basic_value_ok (sub_layout s) v) subs vs = true ->
  (forall n s o, nth_error subs n = Some s -> nth_error vs n = Some o ->
     Fspec.is_set f (sub_index s / 7) (sub_index s mod 7) = Some (match o with Some _ => true | None => false end)) ->
  exists ws, subs_writes subs vs = Some ws /\ Forall (fun p => (snd p <= 64)%nat) ws /\
    (exists k, length (wbits ws) = (8 * k)%nat) /\ decodes (subs_decode f subs) vs (wbits ws).
Proof.
  induction subs as [|s subs IH]; intros [|o vs] Hl Hv Hp; cbn [opt_values_ok] in Hv; try discriminate.
  - exists []. split; [reflexivity|]. split; [constructor|]. split; [exists 0%nat; reflexivity|].
    intros r rest Hw Hr. exists r. cbn [subs_decode]. auto.
  - cbn [forallb] in Hl. apply andb_true_iff in Hl as [Hl1 Hl2]. apply andb_true_iff in Hv as [Hv1 Hv2].
    destruct (IH vs Hl2 Hv2 (fun n => Hp (S n))) as (ws & E & Hws & [k Hk] & Hd).
    pose proof (Hp 0%nat s o eq_refl eq_refl) as Hs.
    cbn [subs_writes]. rewrite E. cbv beta iota.
    destruct o as [v|].
    + destruct (layout_roundtrip _ v Hl1 Hv1) as (wv & Ev & Hwv & [kv Hkv] & Hdv).
      rewrite Ev. cbv beta iota. exists (wv ++ ws). split; [reflexivity|].
      split; [apply Forall_app; auto|].
      split; [exists (kv + k)%nat; rewrite wbits_app, length_app; lia|].
      intros r rest Hw Hr. rewrite wbits_app, <- app_assoc in Hr.
      cbn [subs_decode frn_to_fspec_position]. rewrite Hs. cbv beta iota.
      destruct (Hdv r _ Hw Hr) as (r1 & E1 & Hw1 & Hr1). rewrite E1. cbv beta iota.
      destruct (Hd r1 rest Hw1 Hr1) as (r2 & E2 & Hw2 & Hr2). rewrite E2. cbv beta iota. eauto.
    + exists ws. split; [reflexivity|]. split; [exact Hws|]. split; [exists k; exact Hk|].
      intros r rest Hw Hr.
      cbn [subs_decode frn_to_fspec_position]. rewrite Hs. cbv beta iota.
      destruct (Hd r rest Hw Hr) as (r2 & E2 & Hw2 & Hr2). rewrite E2. cbv beta iota. eauto.
Qed.

Lemma compound_roundtrip p subs vs :
  layout_ok (Compound subs) = true -> value_ok (Compound subs) (VCompound vs) = true ->
  exists bs k, length bs = (8 * k)%nat /\ encodes (compound_encode p subs vs) bs /\
    decodes_aligned (compound_decode p subs) vs bs.
Proof.
  cbn [layout_ok value_ok]. intros Hl Hv. apply andb_true_iff in Hl as [Hl Hnd].
  pose proof (opt_values_ok_length _ _ _ Hv) as Hlen.
  destruct (present_positions_some (map sub_index subs) vs ltac:(rewrite length_map; exact Hlen)) as [ps Hps].
  pose proof (present_positions_small _ _ _ Hps) as HS.
  destruct (Fspec.set_all_some ps Fspec.new (Forall_impl _ (fun _ H => le_S _ _ H) HS)) as [f Hf].
  assert (Hp : forall n s o, nth_error subs n = Some s -> nth_error vs n = Some o ->
     Fspec.is_set f (sub_index s / 7) (sub_index s mod 7) = Some (match o with Some _ => true | None => false end)).
  { intros n s o Hs Ho. apply (fspec_presence (map sub_index subs) vs ps f Hnd Hps Hf n); [|exact Ho].
    rewrite nth_error_map, Hs. reflexivity. }
  destruct (subs_roundtrip f subs vs Hl Hv Hp) as (ws & E & Hws & [k Hk] & Hd).
  exists (stream_bits (Fspec.write f) ++ wbits ws), (length (Fspec.write f) + k)%nat.
  split; [rewrite length_app, length_stream_bits; lia|]. split.
  - intros w Hw H0. unfold compound_encode. rewrite Hps. cbv beta iota. rewrite Hf. cbv beta iota.
    apply (fspec_frame_encodes p ps f _ (wbits ws) Hf); [|exact Hw|exact H0].
    rewrite E. cbv beta iota.
    destruct (encodes_fresh _ _ (write_all_encodes ws k Hws Hk)) as (w2 & E2 & Hw2 & H02 & B2).
    exists w2. rewrite E2. cbv beta iota. rewrite flush_aligned by exact H02. auto.
  - exact (fspec_frame_decodes p (fun f' => subs_decode f' subs) ps f vs (wbits ws) HS Hf
             (decodes_aligned_of _ _ _ k Hd Hk)).
Qed.

(** *** Items *)

Lemma item_roundtrip p l v :
  layout_ok l = true -> value_ok l v = true ->
  exists bs k, length bs = (8 * k)%nat /\ encodes (item_encode p l v) bs /\
    decodes_aligned (item_decode p l) v bs.
Proof.
  intros Hl Hv. destruct l as [bytes es|bytes es|bytes gs|bytes count es|subs].
  5: { destruct v as [fs|ps|its|vs]; cbn [value_ok basic_value_ok] in Hv; try discriminate.
       destruct (compound_roundtrip p subs vs Hl Hv) as (bs & k & Hk & He & Hd).
       exists bs, k. split; [exact Hk|]. split; [exact He|].
       intros r rest Hw H0 Hr. cbn [item_decode].
       destruct (Hd r rest Hw H0 Hr) as (r' & E & Hw' & H0' & Hr'). rewrite E. cbv beta iota. eauto. }
  all: cbn [layout_ok value_ok] in Hl, Hv.
  all: match goal with |- context [item_decode _ ?l'] =>
         destruct (layout_roundtrip l' v Hl Hv) as (ws & E & Hws & [k Hk] & Hd) end.
  all: exists (wbits ws), k; split; [exact Hk|]; split;
         [intros w Hw H0; cbn [item_encode]; rewrite E; cbv beta iota;
          exact (write_all_encodes ws k Hws Hk w Hw H0)
         |exact (decodes_aligned_of _ _ _ k Hd Hk)].
Qed.

(** *** Records *)

Lemma items_roundtrip p f its : forall vs,
  forallb (fun it => layout_ok (item_layout it)) its = true ->
  opt_values_ok (fun it v => value_ok (item_layout it) v) its vs = true ->
  (forall n it o, nth_error its n = Some it -> nth_error vs n = Some o ->
     Fspec.is_set f (frn it / 7) (frn it mod 7) = Some (match o with Some _ => true | None => false end)) ->
  exists bs k, length bs = (8 * k)%nat /\ encodes (items_encode p its vs) bs /\
    decodes_aligned (items_decode p f its) vs bs.
Proof.
  induction its as [|it its IH]; intros [|o vs] Hl Hv Hp; cbn [opt_values_ok] in Hv; try discriminate.
  - exists [], 0%nat. split; [reflexivity|]. split.
    + intros w Hw H0. exists w. cbn [items_encode]. rewrite app_nil_r. auto.
    + intros r rest Hw H0 Hr. exists r. cbn [items_decode]. auto.
  - cbn [forallb] in Hl. apply andb_true_iff in Hl as [Hl1 Hl2]. apply andb_true_iff in Hv as [Hv1 Hv2].
    destruct (IH vs Hl2 Hv2 (fun n => Hp (S n))) as (bs & k & Hk & He & Hd).
    pose proof (Hp 0%nat it o eq_refl eq_refl) as Hs.
    destruct o as [v|].
    + destruct (item_roundtrip p _ v Hl1 Hv1) as (bv & kv & Hkv & Hev & Hdv).
      exists (bv ++ bs), (kv + k)%nat. split; [rewrite length_app; lia|]. split.
      * exact (encodes_seq _ _ _ _ Hev He).
      * intros r rest Hw H0 Hr. rewrite <- app_assoc in Hr.
        cbn [items_decode frn_to_fspec_position]. rewrite Hs. cbv beta iota.
        destruct (Hdv r _ Hw H0 Hr) as (r1 & E1 & Hw1 & H01 & Hr1). rewrite E1. cbv beta iota.
        destruct (Hd r1 rest Hw1 H01 Hr1) as (r2 & E2 & Hw2 & H02 & Hr2). rewrite E2. cbv beta iota. eauto.
    + exists bs, k. split; [exact Hk|]. split.
      * intros w Hw H0. cbn [items_encode]. exact (He w Hw H0).
      * intros r rest Hw H0 Hr.
        cbn [items_decode frn_to_fspec_position]. rewrite Hs. cbv beta iota.
        destruct (Hd r rest Hw H0 Hr) as (r2 & E2 & Hw2 & H02 & Hr2). rewrite E2. cbv beta iota. eauto.
Qed.

Lemma record_roundtrip p its vs :
  record_schema_ok its = true -> record_value_ok its vs = true ->
  exists bs k, length bs = (8 * S k)%nat /\ encodes (record_encode p its vs) bs /\
    decodes_aligned (record_decode p its) vs bs.
Proof.
  unfold record_schema_ok, record_value_ok. intros Hl Hv. apply andb_true_iff in Hl as [Hl Hnd].
  pose proof (opt_values_ok_length _ _ _ Hv) as Hlen.
  destruct (present_positions_some (map frn its) vs ltac:(rewrite length_map; exact Hlen)) as [ps Hps].
  pose proof (present_positions_small _ _ _ Hps) as HS.
  destruct (Fspec.set_all_some ps Fspec.new (Forall_impl _ (fun _ H => le_S _ _ H) HS)) as [f Hf].
  assert (Hp : forall n it o, nth_error its n = Some it -> nth_error vs n = Some o ->
     Fspec.is_set f (frn it / 7) (frn it mod 7) = Some (match o with Some _ => true | None => false end)).
  { intros n it o Hs Ho. apply (fspec_presence (map frn its) vs ps f Hnd Hps Hf n); [|exact Ho].
    rewrite nth_error_map, Hs. reflexivity. }
  destruct (items_roundtrip p f its vs Hl Hv Hp) as (bs & k & Hk & He & Hd).
  pose proof (fspec_nonempty ps f HS Hf) as Hne.
  destruct (Fspec.write f) as [|b0 bt] eqn:Ew; [congruence|].
  exists (stream_bits (Fspec.write f) ++ bs), (length bt + k)%nat.
  split; [rewrite length_app, length_stream_bits, Ew; cbn [length]; lia|]. split.
  - intros w Hw H0. unfold record_encode. rewrite Hps. cbv beta iota. rewrite Hf. cbv beta iota.
    apply (fspec_frame_encodes p ps f _ bs Hf); [|exact Hw|exact H0].
    destruct (encodes_fresh _ _ He) as (w2 & E2 & Hw2 & H02 & B2).
    exists w2. rewrite E2. cbv beta iota. rewrite flush_aligned by exact H02. auto.
  - exact (fspec_frame_decodes p (fun f' => items_decode p f' its) ps f vs bs HS Hf Hd).
Qed.

(** *** Whole encodings *)

Lemma item_bytes_roundtrip p l v :
  layout_ok l = true -> value_ok l v = true ->
  exists b, item_encode_bytes p l v = Some b /\ item_decode_bytes p l b = Some v.
Proof.
  intros Hl Hv. destruct (item_roundtrip p l v Hl Hv) as (bs & k & Hk & He & Hd).
  destruct (encodes_bytes _ bs k Hk He) as (b & Eb & Sb & Hb).
  exists b. split; [exact Eb|]. subst bs.
  destruct (decodes_bytes _ v b [] Hb (Forall_nil _) Hd) as (r' & E & _).
  rewrite app_nil_r in E. unfold item_decode_bytes. rewrite E. reflexivity.
Qed.

Lemma record_bytes_roundtrip p its vs :
  record_schema_ok its = true -> record_value_ok its vs = true ->
  exists b, record_encode_bytes p its vs = Some b /\ record_decode_bytes p its b = Some vs.
Proof.
  intros Hl Hv. destruct (record_roundtrip p its vs Hl Hv) as (bs & k & Hk & He & Hd).
  destruct (encodes_bytes _ bs (S k) Hk He) as (b & Eb & Sb & Hb).
  exists b. split; [exact Eb|]. subst bs.
  destruct (decodes_bytes _ vs b [] Hb (Forall_nil _) Hd) as (r' & E & _).
  rewrite app_nil_r in E. unfold record_decode_bytes. rewrite E. reflexivity.
Qed.

(** *** Data blocks *)

Lemma records_decode_cons p its fuel c cs :
  records_decode p its (S fuel) (c :: cs) =
  ('(rec, rr) <- record_decode p its (reader_new (c :: cs)) ;;
   recs <- records_decode p its fuel (input rr) ;; Some (rec :: recs)).
Proof. reflexivity. Qed.

Lemma records_roundtrip p its recs :
  record_schema_ok its = true -> Forall (fun rec => record_value_ok its rec = true) recs ->
  exists bs k, length bs = (8 * k)%nat /\ encodes (records_encode p its recs) bs /\
    forall b fuel, Forall is_byte b -> stream_bits b = bs -> (length b <= fuel)%nat ->
      records_decode p its fuel b = Some recs.
Proof.
  intros Hl Hrecs. induction Hrecs as [|rec recs Hv Hrecs IH].
  - exists [], 0%nat. split; [reflexivity|]. split.
    + intros w Hw H0. exists w. cbn [records_encode]. rewrite app_nil_r. auto.
    + intros b fuel _ Sb _. destruct b as [|x b]; [destruct fuel; reflexivity|].
      apply (f_equal (@length bool)) in Sb. rewrite length_stream_bits in Sb. cbn in Sb. discriminate.
  - destruct (record_roundtrip p its rec Hl Hv) as (bs1 & k1 & Hk1 & He1 & Hd1).
    destruct IH as (bs2 & k2 & Hk2 & He2 & Hd2).
    exists (bs1 ++ bs2), (S k1 + k2)%nat. split; [rewrite length_app; lia|]. split.
    + exact (encodes_seq _ _ _ _ He1 He2).
    + intros b fuel Hb Sb Hf.
      destruct (stream_bits_split b bs1 bs2 (S k1) Hb Sb Hk1) as (X1 & X2 & -> & S1 & S2 & HX1 & HX2).
      destruct X1 as [|x X1].
      { apply (f_equal (@length bool)) in S1. rewrite length_stream_bits in S1. cbn in S1. lia. }
      rewrite length_app in Hf. cbn [length] in Hf.
      destruct fuel as [|fuel]; [lia|].
      rewrite <- S1 in Hd1.
      destruct (decodes_bytes _ rec (x :: X1) X2 HX1 HX2 Hd1) as (r' & E & Ei).
      rewrite <- app_comm_cons in E |- *. rewrite records_decode_cons, E. cbv beta iota.
      rewrite Ei, (Hd2 X2 fuel HX2 S2 ltac:(lia)). reflexivity.
Qed.

Lemma read_payload_spec B : forall r rest,
  reader_wf r -> Forall is_byte B -> reader_bits r = stream_bits B ++ rest ->
  exists r', read_payload (length B) r = Some (B, r') /\ reader_wf r' /\ reader_bits r' = rest.
Proof.
  induction B as [|b B IH]; intros r rest Hw HB Hr.
  - exists r. auto.
  - inversion HB as [|? ? Hb HB']; subst.
    change (stream_bits (b :: B)) with (bits_msb b 8 ++ stream_bits B) in Hr.
    rewrite <- app_assoc in Hr.
    destruct (read_bits_spec r b 8 _ Hw ltac:(lia) Hr) as (r1 & E1 & Hw1 & Hr1).
    destruct (IH r1 rest Hw1 HB' Hr1) as (r2 & E2 & Hw2 & Hr2).
    exists r2. cbn [length read_payload]. rewrite E1. cbv beta iota. rewrite E2. cbv beta iota.
    unfold is_byte in Hb.
    rewrite (mod_pow2_id b 8 ltac:(cbn; lia)), (as_u8_id b Hb). auto.
Qed.

Lemma total_len_small p n : Z.of_nat n <= 65532 -> DataBlock.total_len p (Z.of_nat n) = Some (3 + Z.of_nat n).
Proof.
  intros Hn. unfold DataBlock.total_len, DataBlock.add_u16, DataBlock.as_u16.
  change (2 ^ 16) with 65536. rewrite Z.mod_small by lia. cbv zeta.
  destruct (Z.ltb_spec (3 + Z.of_nat n) 65536); [reflexivity|lia].
Qed.

Lemma records_payload_spec p its recs :
  record_schema_ok its = true -> Forall (fun rec => record_value_ok its rec = true) recs ->
  exists payload bs, records_payload p its recs = Some payload /\ stream_bits payload = bs /\
    Forall is_byte payload /\
    forall b fuel, Forall is_byte b -> stream_bits b = bs -> (length b <= fuel)%nat ->
      records_decode p its fuel b = Some recs.
Proof.
  intros Hl Hr. destruct (records_roundtrip p its recs Hl Hr) as (bs & k & Hk & He & Hd).
  destruct (encodes_bytes _ bs k Hk He) as (b & Eb & Sb & Hb).
  exists b, bs. auto.
Qed.

Lemma datablock_roundtrip p cat recs payload :
  record_schema_ok (items cat) = true -> Forall (fun rec => record_value_ok (items cat) rec = true) recs ->
  0 <= category_id cat < 256 ->
  records_payload p (items cat) recs = Some payload -> Z.of_nat (length payload) <= 65532 ->
  exists bs k, length bs = (8 * k)%nat /\ encodes (datablock_encode p cat recs) bs /\
    decodes_aligned (datablock_decode p cat) recs bs.
Proof.
  intros Hl Hr Hc Hp Hn.
  destruct (records_payload_spec p (items cat) recs Hl Hr) as (b & bs & Eb & Sb & Hb & Hd).
  rewrite Hp in Eb. injection Eb as <-.
  set (len := 3 + Z.of_nat (length payload)).
  set (ws := (category_id cat, 8%nat) :: (len, 16%nat) :: map (fun b => (b, 8%nat)) payload).
  assert (Hws : Forall (fun p => (snd p <= 64)%nat) ws).
  { constructor; [cbn; lia|]. constructor; [cbn; lia|].
    apply Forall_map, Forall_forall. intros x _. cbn; lia. }
  assert (Hwb : wbits ws = bits_msb (category_id cat) 8 ++ bits_msb len 16 ++ stream_bits payload).
  { unfold ws. rewrite !wbits_cons. unfold wbits. rewrite flat_map_bytes. reflexivity. }
  assert (Hk : length (wbits ws) = (8 * (3 + length payload))%nat).
  { rewrite Hwb, !length_app, !length_bits_msb, length_stream_bits. lia. }
  exists (wbits ws), (3 + length payload)%nat. split; [exact Hk|]. split.
  - intros w Hw H0. unfold datablock_encode. rewrite Hp. cbv beta iota.
    unfold DataBlock.encode_frame. rewrite (total_len_small p _ Hn). cbv beta iota.
    exact (write_all_encodes ws _ Hws Hk w Hw H0).
  - apply (decodes_aligned_of _ _ _ (3 + length payload) ); [|exact Hk].
    intros r rest Hw Hrb. rewrite Hwb, <- !app_assoc in Hrb.
    unfold datablock_decode.
    destruct (read_bits_spec r _ 8 _ Hw ltac:(lia) Hrb) as (r1 & E1 & Hw1 & Hr1).
    rewrite E1. cbv beta iota.
    rewrite (mod_pow2_id (category_id cat) 8 ltac:(cbn; lia)), (as_u8_id _ Hc), Z.eqb_refl. cbn [negb].
    destruct (read_bits_spec r1 len 16 _ Hw1 ltac:(lia) Hr1) as (r2 & E2 & Hw2 & Hr2).
    rewrite E2. cbv beta iota zeta.
    assert (Hlen : 0 <= len < 2 ^ 16) by (unfold len; change (2 ^ 16) with 65536; lia).
    rewrite (mod_pow2_id len 16 Hlen).
    unfold DataBlock.as_u16. rewrite (Z.mod_small len _ Hlen).
    destruct (Z.ltb_spec len 3) as [Hlt|_]; [unfold len in Hlt; lia|].
    replace (Z.to_nat (len - 3)) with (length payload) by (unfold len; lia).
    destruct (read_payload_spec payload r2 rest Hw2 Hb Hr2) as (r3 & E3 & Hw3 & Hr3).
    rewrite E3. cbv beta iota.
    rewrite (Hd payload (length payload) Hb Sb (le_n _)). cbv beta iota. eauto.
Qed.

Lemma datablock_bytes_roundtrip p cat recs payload :
  record_schema_ok (items cat) = true -> Forall (fun rec => record_value_ok (items cat) rec = true) recs ->
  0 <= category_id cat < 256 ->
  records_payload p (items cat) recs = Some payload -> Z.of_nat (length payload) <= 65532 ->
  exists b, datablock_encode_bytes p cat recs = Some b /\ datablock_decode_bytes p cat b = Some recs.
Proof.
  intros Hl Hr Hc Hp Hn. destruct (datablock_roundtrip p cat recs payload Hl Hr Hc Hp Hn) as (bs & k & Hk & He & Hd).
  destruct (encodes_bytes _ bs k Hk He) as (b & Eb & Sb & Hb).
  exists b. split; [exact Eb|]. subst bs.
  destruct (decodes_bytes _ recs b [] Hb (Forall_nil _) Hd) as (r' & E & _).
  rewrite app_nil_r in E. unfold datablock_decode_bytes. rewrite E. reflexivity.
Qed.

(** *** Decoded values are legal *)

Lemma try_from_from_cases values : forall k x,
  (exists i, try_from_from k values x = Known i /\ (k <= i < k + length values)%nat) \/
  (try_from_from k values x = Unknown x /\ existsb (fun nv => snd nv =? x) values = false).
Proof.
  induction values as [|[n vv] values IH]; intros k x; [right; auto|].
  cbn [try_from_from existsb snd length].
  destruct (Z.eqb_spec vv x) as [Ev|Nv].
  - left. exists k. split; [reflexivity|lia].
  - destruct (IH (S k) x) as [(i & E & Hi)|(E & Hx)].
    + left. exists i. split; [exact E|lia].
    + right. split; [exact E|]. exact Hx.
Qed.

Lemma enum_decode_ok bits values x :
  0 <= x < 2 ^ Z.of_nat bits -> enum_value_ok bits values (try_from values (as_u8 x)) = true.
Proof.
  intros Hx. assert (Hy : 0 <= as_u8 x < 256 /\ as_u8 x <= x).
  { unfold as_u8. change (2 ^ 8) with 256. pose proof (Z.mod_pos_bound x 256 ltac:(lia)).
    split; [lia|]. apply Z.mod_le; lia. }
  unfold try_from. destruct (try_from_from_cases values 0 (as_u8 x)) as [(i & E & Hi)|(E & Hex)];
    rewrite E; cbn [enum_value_ok].
  - apply Nat.ltb_lt. lia.
  - rewrite Hex, (proj2 (fits_bounds (as_u8 x) bits) ltac:(lia)), (proj2 (Z.ltb_lt (as_u8 x) 256) ltac:(lia)).
    reflexivity.
Qed.

Lemma element_decode_ok r e o r' :
  element_ok e = true -> element_decode r e = Some (o, r') ->
  match o with Some fv => field_ok e fv = true | None => exists b, e = Spare b end.
Proof.
  intros Hok H. destruct e as [n bits|c|n bits values|bits].
  - cbn [element_ok] in Hok. apply Nat.leb_le in Hok. cbn [element_decode] in H.
    destruct (read_bits r bits) as [[v r1]|] eqn:E; [|discriminate]. cbv beta iota in H.
    injection H as <- <-. cbn [field_ok].
    pose proof (read_bits_range r bits v r1 E Hok) as Hv.
    rewrite (as_field_type_id bits v Hok Hv). apply fits_bounds, Hv.
  - destruct c as [n bits|c|n bits values|bits]; cbn [element_ok] in Hok; try discriminate;
      cbn [element_decode] in H.
    + apply Nat.leb_le in Hok.
      destruct (read_bits r 1) as [[b r1]|] eqn:E1; [|discriminate]. cbv beta iota in H.
      destruct (negb (b =? 0)).
      * destruct (read_bits r1 bits) as [[v r2]|] eqn:E2; [|discriminate]. cbv beta iota in H.
        injection H as <- <-. cbn [field_ok]. pose proof (read_bits_range r1 bits v r2 E2 Hok) as Hv.
        rewrite (as_field_type_id bits v Hok Hv). apply fits_bounds, Hv.
      * destruct (read_bits r1 bits) as [[v r2]|] eqn:E2; [|discriminate]. cbv beta iota in H.
        injection H as <- <-. reflexivity.
    + apply andb_true_iff in Hok as [Hb _]. apply Nat.leb_le in Hb.
      destruct (read_bits r 1) as [[b r1]|] eqn:E1; [|discriminate]. cbv beta iota in H.
      destruct (negb (b =? 0)).
      * destruct (read_bits r1 bits) as [[v r2]|] eqn:E2; [|discriminate]. cbv beta iota in H.
        injection H as <- <-. cbn [field_ok].
        exact (enum_decode_ok bits values v (read_bits_range r1 bits v r2 E2 Hb)).
      * destruct (read_bits r1 bits) as [[v r2]|] eqn:E2; [|discriminate]. cbv beta iota in H.
        injection H as <- <-. reflexivity.
  - cbn [element_ok] in Hok. apply andb_true_iff in Hok as [Hb _]. apply Nat.leb_le in Hb.
    cbn [element_decode] in H.
    destruct (read_bits r bits) as [[v r1]|] eqn:E; [|discriminate]. cbv beta iota in H.
    injection H as <- <-. cbn [field_ok].
    exact (enum_decode_ok bits values v (read_bits_range r bits v r1 E Hb)).
  - cbn [element_decode] in H.
    destruct (read_bits r bits) as [[v r1]|] eqn:E; [|discriminate]. cbv beta iota in H.
    injection H as <- <-. eauto.
Qed.

Lemma elements_decode_ok es : forall r fs r',
  forallb element_ok es = true -> elements_decode r es = Some (fs, r') -> fields_ok es fs = true.
Proof.
  induction es as [|e es IH]; intros r fs r' Hok H; cbn [elements_decode] in H.
  - injection H as <- _. reflexivity.
  - cbn [forallb] in Hok. apply andb_true_iff in Hok as [He Hes].
    destruct (element_decode r e) as [[o r1]|] eqn:E1; [|discriminate]. cbv beta iota in H.
    destruct (elements_decode r1 es) as [[fs' r2]|] eqn:E2; [|discriminate]. cbv beta iota in H.
    injection H as <- _.
    pose proof (element_decode_ok r e o r1 He E1) as Ho. pose proof (IH r1 fs' r2 Hes E2) as Hf.
    destruct o as [fv|].
    + destruct e as [n bits|c|n bits values|bits]; cbn [fields_ok];
        [rewrite Ho, Hf; reflexivity|rewrite Ho, Hf; reflexivity|rewrite Ho, Hf; reflexivity|].
      cbn in Ho. discriminate.
    + destruct Ho as [b ->]. cbn [fields_ok]. exact Hf.
Qed.

Lemma parts_ok_mono gs : forall ps, parts_ok gs ps false = true -> parts_ok gs ps true = true.
Proof.
  induction gs as [|g gs IH]; intros [|[d|] ps] H; cbn [parts_ok andb] in *; try discriminate; auto.
Qed.

Lemma ext_rest_decode_ok gs : forall fx r ps r',
  forallb (fun g => elements_ok (elements g) 7) gs = true -> ext_rest_decode fx r gs = Some (ps, r') ->
  parts_ok gs ps fx = true.
Proof.
  induction gs as [|g gs IH]; intros fx r ps r' Hok H; cbn [ext_rest_decode] in H.
  - injection H as <- _. reflexivity.
  - cbn [forallb] in Hok. apply andb_true_iff in Hok as [Hg Hgs]. apply elements_ok_spec in Hg as [Hg _].
    destruct fx.
    + destruct (elements_decode r (elements g)) as [[d r1]|] eqn:E1; [|discriminate]. cbv beta iota in H.
      destruct (read_bits r1 1) as [[b r2]|] eqn:E2; [|discriminate]. cbv beta iota in H.
      destruct (ext_rest_decode (negb (b =? 0)) r2 gs) as [[ps' r3]|] eqn:E3; [|discriminate].
      cbv beta iota in H. injection H as <- _.
      cbn [parts_ok]. rewrite (elements_decode_ok _ _ _ _ Hg E1). cbn [andb].
      pose proof (IH _ _ _ _ Hgs E3) as Hp. destruct (negb (b =? 0)); [exact Hp|apply parts_ok_mono, Hp].
    + destruct (ext_rest_decode false r gs) as [[ps' r1]|] eqn:E1; [|discriminate]. cbv beta iota in H.
      injection H as <- _. cbn [parts_ok]. exact (IH _ _ _ _ Hgs E1).
Qed.

Lemma rep_decode_ok es : forall count r its r',
  forallb element_ok es = true -> rep_decode r es count = Some (its, r') ->
  length its = count /\ forallb (fields_ok es) its = true.
Proof.
  induction count as [|count IH]; intros r its r' Hok H; cbn [rep_decode] in H.
  - injection H as <- _. auto.
  - destruct (elements_decode r es) as [[it r1]|] eqn:E1; [|discriminate]. cbv beta iota in H.
    destruct (rep_decode r1 es count) as [[its' r2]|] eqn:E2; [|discriminate]. cbv beta iota in H.
    injection H as <- _. destruct (IH r1 its' r2 Hok E2) as [Hl Hf].
    cbn [length forallb]. rewrite (elements_decode_ok _ _ _ _ Hok E1), Hf. auto.
Qed.

Lemma layout_decode_ok r l v r' :
  basic_layout_ok l = true -> layout_decode r l = Some (v, r') -> basic_value_ok l v = true.
Proof.
  intros Hl H. destruct l as [bytes es|bytes es|bytes gs|bytes count es|subs];
    cbn [basic_layout_ok layout_decode] in Hl, H.
  - apply elements_ok_spec in Hl as [Hok _].
    destruct (elements_decode r es) as [[fs r1]|] eqn:E1; [|discriminate]. cbv beta iota in H.
    injection H as <- _. exact (elements_decode_ok _ _ _ _ Hok E1).
  - apply elements_ok_spec in Hl as [Hok _].
    destruct (read_bits r 8) as [[x r1]|] eqn:E0; [|discriminate]. cbv beta iota in H.
    destruct (elements_decode r1 es) as [[fs r2]|] eqn:E1; [|discriminate]. cbv beta iota in H.
    injection H as <- _. exact (elements_decode_ok _ _ _ _ Hok E1).
  - apply andb_true_iff in Hl as [Hl _]. apply andb_true_iff in Hl as [Hg _].
    unfold extended_decode in H. destruct gs as [|g0 gs].
    + injection H as <- _. reflexivity.
    + cbn [forallb] in Hg. apply andb_true_iff in Hg as [Hg0 Hgs]. apply elements_ok_spec in Hg0 as [Hg0 _].
      destruct (elements_decode r (elements g0)) as [[d0 r1]|] eqn:E1; [|discriminate]. cbv beta iota in H.
      destruct (read_bits r1 1) as [[b r2]|] eqn:E2; [|discriminate]. cbv beta iota in H.
      destruct (ext_rest_decode (negb (b =? 0)) r2 gs) as [[ps r3]|] eqn:E3; [|discriminate].
      cbv beta iota in H. injection H as <- _.
      cbn [basic_value_ok]. rewrite (elements_decode_ok _ _ _ _ Hg0 E1). cbn [andb].
      pose proof (ext_rest_decode_ok _ _ _ _ _ Hgs E3) as Hp.
      destruct (negb (b =? 0)); [exact Hp|apply parts_ok_mono, Hp].
  - apply elements_ok_spec in Hl as [Hok _].
    destruct (rep_decode r es count) as [[its r1]|] eqn:E1; [|discriminate]. cbv beta iota in H.
    injection H as <- _. destruct (rep_decode_ok _ _ _ _ _ Hok E1) as [Hc Hf].
    cbn [basic_value_ok]. rewrite Hc, Nat.eqb_refl, Hf. reflexivity.
  - discriminate.
Qed.

Lemma subs_decode_ok f subs : forall r vs r',
  forallb (fun s => basic_layout_ok (sub_layout s)) subs = true -> subs_decode f subs r = Some (vs, r') ->
  opt_values_ok (fun s v => basic_value_ok (sub_layout s) v) subs vs = true.
Proof.
  induction subs as [|s subs IH]; intros r vs r' Hl H; cbn [subs_decode frn_to_fspec_position] in H.
  - injection H as <- _. reflexivity.
  - cbn [forallb] in Hl. apply andb_true_iff in Hl as [Hs Hl].
    destruct (Fspec.is_set f _ _) as [present|]; [|discriminate]. cbv beta iota in H.
    destruct present.
    + destruct (layout_decode r (sub_layout s)) as [[v r1]|] eqn:E1; [|discriminate]. cbv beta iota in H.
      destruct (subs_decode f subs r1) as [[os r2]|] eqn:E2; [|discriminate]. cbv beta iota in H.
      injection H as <- _. cbn [opt_values_ok].
      rewrite (layout_decode_ok _ _ _ _ Hs E1), (IH _ _ _ Hl E2). reflexivity.
    + destruct (subs_decode f subs r) as [[os r2]|] eqn:E2; [|discriminate]. cbv beta iota in H.
      injection H as <- _. cbn [opt_values_ok andb]. exact (IH _ _ _ Hl E2).
Qed.

Lemma nested_read_result {A} p r1 (body : BitReader -> option (A * BitReader)) a r' :
  nested_read p r1 body = Some (a, r') -> exists r_in, body (reader_new (input r1)) = Some (a, r_in).
Proof.
  unfold nested_read. destruct (body (reader_new (input r1))) as [[a' ri]|]; [|discriminate].
  cbv beta iota. intros H. exists ri.
  revert H. destruct p; [destruct (Nat.eqb (bits_left r1) 0); [|destruct (Nat.eqb _ _)]|]; intros H;
    congruence.
Qed.

Lemma item_decode_ok p l r v r' :
  layout_ok l = true -> item_decode p l r = Some (v, r') -> value_ok l v = true.
Proof.
  intros Hl H. destruct l as [bytes es|bytes es|bytes gs|bytes count es|subs].
  5: { cbn [layout_ok] in Hl. apply andb_true_iff in Hl as [Hl _].
       cbn [item_decode] in H. unfold compound_decode in H.
       destruct (fspec_read p r) as [[f r1]|]; [|discriminate]. cbv beta iota in H.
       destruct (nested_read p r1 (subs_decode f subs)) as [[vs r2]|] eqn:E; [|discriminate].
       cbv beta iota in H. injection H as <- _.
       destruct (nested_read_result p r1 _ vs r2 E) as (ri & Ei).
       exact (subs_decode_ok f subs _ _ _ Hl Ei). }
  all: cbn [layout_ok item_decode value_ok] in Hl, H |- *; exact (layout_decode_ok _ _ _ _ Hl H).
Qed.

End GenFacts.

(** ** Further lemmas on the FSPEC bitmap, strings, decoders and names *)

Module FspecMore.
Import Fspec.

Lemma read_bytes_none input :
  read_bytes input = None <-> Forall (fun b => Z.land b 1 <> 0) input.
Proof.
  induction input as [|b input IH]; simpl.
  - split; intros _; [constructor|reflexivity].
  - destruct (Z.eqb_spec (Z.land b 1) 0) as [E|E].
    + split; [discriminate|]. intros H. inversion H; contradiction.
    + destruct (read_bytes input) as [[bs rest]|].
      * split; [discriminate|]. intros H. inversion H; subst.
        apply IH in H3. discriminate.
      * split; [|reflexivity]. intros _. constructor; [exact E|]. apply IH. reflexivity.
Qed.

Lemma read_bytes_app input bs rest :
  read_bytes input = Some (bs, rest) ->
  input = bs ++ rest /\ forall rest', read_bytes (bs ++ rest') = Some (bs, rest').
Proof.
  revert bs rest. induction input as [|b input IH]; intros bs rest H; simpl in H; [discriminate|].
  destruct (Z.eqb_spec (Z.land b 1) 0) as [E|E].
  - injection H as <- <-. split; [reflexivity|]. intros rest'. simpl.
    rewrite E. reflexivity.
  - destruct (read_bytes input) as [[bs1 rest1]|] eqn:R; [|discriminate].
    injection H as <- <-. destruct (IH _ _ eq_refl) as [-> H2].
    split; [reflexivity|]. intros rest'. simpl.
    destruct (Z.eqb_spec (Z.land b 1) 0); [contradiction|]. rewrite H2. reflexivity.
Qed.

(** [set_all] described by the bytes it leaves: the length is the least
    bound of the old length and every [byte + 1]; a bit is set when it was
    set, when it is an item bit of a call, or when it is the FX bit of a
    byte before some call's byte. *)
Lemma set_all_spec ps : forall f,
  Forall (fun p => (snd p <= 7)%nat) ps ->
  exists f', set_all f ps = Some f' /\
    (forall m, (length (bytes f') <= m <->
                (length (bytes f) <= m /\ Forall (fun p => S (fst p) <= m) ps))%nat) /\
    (forall i j, bitat f' i j =
       bitat f i j || existsb (fun p => Nat.eqb i (fst p) && Nat.eqb j (7 - snd p)) ps
       || (existsb (fun p => Nat.ltb i (fst p)) ps && Nat.eqb j 0)).
Proof.
  induction ps as [|[b k] ps IH]; intros f Hps; cbn [set_all existsb fst snd].
  - exists f. split; [reflexivity|]. split.
    + intros m. split; [intros H; split; [exact H|constructor]|intros [H _]; exact H].
    + intros i j. btauto.
  - inversion Hps as [|? ? Hk Hps']; subst. simpl in Hk.
    destruct (set_some f b k Hk) as [f1 E1]. rewrite E1.
    destruct (IH f1 Hps') as (f' & E' & Hlen & Hbit).
    exists f'. split; [exact E'|]. split.
    + intros m. rewrite Hlen, (set_length _ _ _ _ E1). split.
      * intros [H1 H2]. split; [lia|]. constructor; [simpl; lia|exact H2].
      * intros [H1 H2]. inversion H2 as [|? ? Hb H3]; subst. cbn [fst] in Hb. split; [lia|assumption].
    + intros i j. rewrite Hbit, (set_bitat _ _ _ _ _ _ E1). btauto.
Qed.

Lemma existsb_same {A} (g : A -> bool) (l l' : list A) :
  (forall x, In x l <-> In x l') -> existsb g l = existsb g l'.
Proof.
  intros H. destruct (existsb g l) eqn:E1, (existsb g l') eqn:E2; try reflexivity.
  - apply existsb_exists in E1. destruct E1 as (x & Hx & Gx).
    apply H in Hx. assert (existsb g l' = true) by (apply existsb_exists; eauto). congruence.
  - apply existsb_exists in E2. destruct E2 as (x & Hx & Gx).
    apply H in Hx. assert (existsb g l = true) by (apply existsb_exists; eauto). congruence.
Qed.

Lemma Forall_same {A} (P : A -> Prop) (l l' : list A) :
  (forall x, In x l <-> In x l') -> Forall P l -> Forall P l'.
Proof.
  intros H HP. apply Forall_forall. intros x Hx. apply H in Hx.
  exact (proj1 (Forall_forall P l) HP x Hx).
Qed.

End FspecMore.

(** ** Fixed-length strings ([BitWriter::write_string], [BitReader::read_string]) *)
Module BitStrings.
Import BitIO.

(** [let byte = if i < bytes.len() { bytes[i] } else { b' ' };] with
    [bytes = s.as_bytes()]: the string is given by its UTF-8 bytes. *)
Definition string_byte (bytes : list Z) (i : nat) : Z :=
  match nth_error bytes i with Some b => b | None => 32 end.

(** [for i in 0..byte_len { self.write_bits(byte as u64, 8)?; }] *)
Definition write_string (w : BitWriter) (s : list Z) (byte_len : nat) : option BitWriter :=
  write_all w (map (fun i => (string_byte s i, 8%nat)) (seq 0 byte_len)).

(** [String::from_utf8_lossy], with a Rust [String] as its sequence of
    code points. This follows [core::str::Utf8Chunks]: [utf8_char_width]
    of the lead byte, the allowed range of the second byte (Unicode
    Table 3-7), continuation bytes [0b10xxxxxx], a missing byte read as
    [0]; each maximal invalid prefix becomes one [U+FFFD] and decoding
    resumes at the byte that broke the sequence. *)
Definition utf8_char_width (b : Z) : nat :=
  if b <? 128 then 1 else if b <? 194 then 0 else if b <? 224 then 2
  else if b <? 240 then 3 else if b <? 245 then 4 else 0.

Definition in_range (lo hi b : Z) : bool := (lo <=? b) && (b <=? hi).

Definition is_cont (b : Z) : bool := Z.land b 192 =? 128.

Definition second_ok3 (first b : Z) : bool :=
  ((first =? 224) && in_range 160 191 b) || (in_range 225 236 first && in_range 128 191 b) ||
  ((first =? 237) && in_range 128 159 b) || (in_range 238 239 first && in_range 128 191 b).

Definition second_ok4 (first b : Z) : bool :=
  ((first =? 240) && in_range 144 191 b) || (in_range 241 243 first && in_range 128 191 b) ||
  ((first =? 244) && in_range 128 143 b).

Definition REPLACEMENT_CHARACTER : Z := 65533.

Fixpoint from_utf8_lossy (bs : list Z) : list Z :=
  match bs with
  | [] => []
  | b :: r =>
      if b <? 128 then b :: from_utf8_lossy r
      else
        match utf8_char_width b with
        | 2%nat =>
            match r with
            | c :: r2 =>
                if is_cont c
                then (Z.land b 31 * 64 + Z.land c 63) :: from_utf8_lossy r2
                else REPLACEMENT_CHARACTER :: from_utf8_lossy r
            | [] => [REPLACEMENT_CHARACTER]
            end
        | 3%nat =>
            match r with
            | c :: r2 =>
                if second_ok3 b c then
                  match r2 with
                  | d :: r3 =>
                      if is_cont d
                      then (Z.land b 15 * 4096 + Z.land c 63 * 64 + Z.land d 63) :: from_utf8_lossy r3
                      else REPLACEMENT_CHARACTER :: from_utf8_lossy r2
                  | [] => [REPLACEMENT_CHARACTER]
                  end
                else REPLACEMENT_CHARACTER :: from_utf8_lossy r
            | [] => [REPLACEMENT_CHARACTER]
            end
        | 4%nat =>
            match r with
            | c :: r2 =>
                if second_ok4 b c then
                  match r2 with
                  | d :: r3 =>
                      if is_cont d then
                        match r3 with
                        | e :: r4 =>
                            if is_cont e
                            then (Z.land b 7 * 262144 + Z.land c 63 * 4096 + Z.land d 63 * 64
                                  + Z.land e 63) :: from_utf8_lossy r4
                            else REPLACEMENT_CHARACTER :: from_utf8_lossy r3
                        | [] => [REPLACEMENT_CHARACTER]
                        end
                      else REPLACEMENT_CHARACTER :: from_utf8_lossy r2
                  | [] => [REPLACEMENT_CHARACTER]
                  end
                else REPLACEMENT_CHARACTER :: from_utf8_lossy r
            | [] => [REPLACEMENT_CHARACTER]
            end
        | _ => REPLACEMENT_CHARACTER :: from_utf8_lossy r
        end
  end.

(** [trim_end_matches(|c| c == ' ' || c == '\0')]. *)
Definition is_pad (c : Z) : bool := (c =? 32) || (c =? 0).

Fixpoint skip_while (g : Z -> bool) (cs : list Z) : list Z :=
  match cs with
  | [] => []
  | c :: cs' => if g c then skip_while g cs' else cs
  end.

Definition trim_end (cs : list Z) : list Z := rev (skip_while is_pad (rev cs)).

(** [read_string]: [byte_len] reads of 8 bits cast to [u8] (the loop of
    [read_payload]), then [from_utf8_lossy] and the trim. *)
Definition read_string (r : BitReader) (byte_len : nat) : option (list Z * BitReader) :=
  '(bytes, r1) <- Gen.read_payload byte_len r ;;
  Some (trim_end (from_utf8_lossy bytes), r1).

(** *** Lemmas *)

Lemma string_bytes s : forall n,
  map (string_byte s) (seq 0 n) = firstn n s ++ repeat 32 (n - length s).
Proof.
  induction s as [|b s IH]; intros n.
  - rewrite firstn_nil. cbn [app length]. rewrite Nat.sub_0_r.
    rewrite <- (length_seq n 0) at 2. generalize (seq 0 n) as l.
    induction l as [|i l IHl]; [reflexivity|]. cbn [map repeat length]. rewrite IHl.
    unfold string_byte. destruct i; reflexivity.
  - destruct n as [|n]; [reflexivity|].
    cbn [seq map firstn length app]. rewrite <- seq_shift, map_map.
    unfold string_byte at 1. cbn [nth_error]. f_equal.
    rewrite <- IH. apply map_ext. intros i. reflexivity.
Qed.

Lemma string_writes s n :
  map (fun i => (string_byte s i, 8%nat)) (seq 0 n) =
  map (fun b => (b, 8%nat)) (firstn n s ++ repeat 32 (n - length s)).
Proof.
  rewrite <- string_bytes, map_map. reflexivity.
Qed.

Lemma from_utf8_lossy_ascii bs :
  Forall (fun b => 0 <= b < 128) bs -> from_utf8_lossy bs = bs.
Proof.
  induction bs as [|b bs IH]; intros H; [reflexivity|].
  inversion H as [|? ? Hb H']; subst. cbn [from_utf8_lossy].
  destruct (Z.ltb_spec b 128); [|lia]. rewrite IH by exact H'. reflexivity.
Qed.

Lemma skip_while_app_pad g l k c :
  (forall x, In x l -> g x = true) -> g c = false -> skip_while g (l ++ c :: k) = c :: k.
Proof.
  induction l as [|x l IH]; intros Hl Hc; cbn [app skip_while].
  - rewrite Hc. reflexivity.
  - rewrite (Hl x (or_introl eq_refl)). apply IH; [intros y Hy; apply Hl; right; exact Hy|exact Hc].
Qed.

Lemma trim_end_pad s k :
  match rev s with c :: _ => is_pad c = false | [] => True end ->
  trim_end (s ++ repeat 32 k) = s.
Proof.
  intros H. unfold trim_end. rewrite rev_app_distr, rev_repeat.
  destruct (rev s) as [|c t] eqn:E.
  - apply (f_equal (@rev Z)) in E. rewrite rev_involutive in E. subst s. cbn [rev app].
    rewrite app_nil_r. induction k as [|k IHk]; [reflexivity|]. cbn. exact IHk.
  - rewrite (skip_while_app_pad is_pad (repeat 32 k) t c); [|intros x Hx; apply repeat_spec in Hx; subst; reflexivity|exact H].
    rewrite <- E, rev_involutive. reflexivity.
Qed.

Lemma skip_while_head g cs :
  match skip_while g cs with c :: _ => g c = false | [] => True end.
Proof.
  induction cs as [|c cs IH]; cbn [skip_while]; [exact I|].
  destruct (g c) eqn:E; [exact IH|exact E].
Qed.

End BitStrings.

Module DecodeMore.
Import BitIO CodegenIR Gen GenFacts.

Lemma read8_shape x t buf : exists v, read_bits (mkReader (x :: t) buf 0) 8 = Some (v, mkReader t x 0).
Proof. eexists. reflexivity. Qed.

Lemma read16_shape x y t buf :
  exists v, read_bits (mkReader (x :: y :: t) buf 0) 16 = Some (v, mkReader t y 0).
Proof. eexists. reflexivity. Qed.

Lemma bits_val_from_0 bs : bits_val_from 0 bs = bits_val bs.
Proof. reflexivity. Qed.

Lemma read_byte x t buf :
  is_byte x -> read_bits (mkReader (x :: t) buf 0) 8 = Some (x, mkReader t x 0).
Proof.
  intros Hx. unfold is_byte in Hx. destruct (read8_shape x t buf) as [v E].
  assert (Hr : reader_bits (mkReader (x :: t) buf 0) = bits_msb x 8 ++ stream_bits t) by reflexivity.
  assert (H1 : (0 + 1) * 2 ^ Z.of_nat 8 <= 2 ^ 64) by (cbn; lia).
  destruct (read_loop_spec 8 0 _ _ _ Hr (length_bits_msb x 8) ltac:(lia) H1) as (r' & E' & _).
  rewrite bits_val_from_0, bits_val_bits_msb, Z.mod_small in E'
    by (change (2 ^ Z.of_nat 8) with 256; lia).
  unfold read_bits in E |- *. rewrite E' in E.
  apply (f_equal (option_map snd)) in E. cbn [option_map snd] in E. injection E as ->. exact E'.
Qed.

Lemma reader_bits_u16 hi lo t buf :
  0 <= hi < 256 -> 0 <= lo < 256 ->
  reader_bits (mkReader (hi :: lo :: t) buf 0) = bits_msb (256 * hi + lo) 16 ++ stream_bits t.
Proof.
  intros Hh Hl.
  change 16%nat with (8 + 8)%nat. rewrite bits_msb_split.
  change (2 ^ Z.of_nat 8) with 256.
  rewrite Z.mul_comm, Z.div_add_l, Z.div_small, Z.add_0_r by lia.
  rewrite Z.add_comm, Z.mod_add, Z.mod_small by lia.
  rewrite <- app_assoc. reflexivity.
Qed.

Lemma read_u16 hi lo t buf :
  is_byte hi -> is_byte lo ->
  read_bits (mkReader (hi :: lo :: t) buf 0) 16 = Some (256 * hi + lo, mkReader t lo 0).
Proof.
  intros Hh Hl. unfold is_byte in *. destruct (read16_shape hi lo t buf) as [v E].
  pose proof (reader_bits_u16 hi lo t buf Hh Hl) as Hr.
  assert (H1 : (0 + 1) * 2 ^ Z.of_nat 16 <= 2 ^ 64) by (cbn; lia).
  destruct (read_loop_spec 16 0 _ _ _ Hr (length_bits_msb _ 16) ltac:(lia) H1) as (r' & E' & _).
  rewrite bits_val_from_0, bits_val_bits_msb, Z.mod_small in E'
    by (change (2 ^ Z.of_nat 16) with 65536; lia).
  unfold read_bits in E |- *. rewrite E' in E.
  apply (f_equal (option_map snd)) in E. cbn [option_map snd] in E. injection E as ->. exact E'.
Qed.

Lemma read_payload_shape n : forall l buf bs r',
  read_payload n (mkReader l buf 0) = Some (bs, r') ->
  (n <= length l)%nat /\ input r' = skipn n l /\ bits_left r' = 0%nat.
Proof.
  induction n as [|n IH]; intros l buf bs r' H.
  - cbn in H. injection H as <- <-. cbn. split; [lia|split; reflexivity].
  - cbn [read_payload] in H. destruct l as [|x t].
    + discriminate.
    + destruct (read8_shape x t buf) as [v E]. rewrite E in H. cbv beta iota in H.
      destruct (read_payload n (mkReader t x 0)) as [[bs' r2]|] eqn:E2; [|discriminate].
      injection H as _ <-. destruct (IH _ _ _ _ E2) as (H1 & H2 & H3).
      cbn [length skipn]. split; [lia|split; assumption].
Qed.

(** Readers that differ only in a buffer that holds no bits left. *)
Definition same_bits (r1 r2 : BitReader) : Prop :=
  input r1 = input r2 /\ bits_left r1 = bits_left r2 /\
  (bits_left r1 = 0%nat \/ rbuffer r1 = rbuffer r2).

Definition same_result {A} (o1 o2 : option (A * BitReader)) : Prop :=
  match o1, o2 with
  | Some (a1, s1), Some (a2, s2) => a1 = a2 /\ same_bits s1 s2
  | None, None => True
  | _, _ => False
  end.

Lemma read_loop_same n : forall v r1 r2,
  same_bits r1 r2 -> same_result (read_loop n v r1) (read_loop n v r2).
Proof.
  induction n as [|n IH]; intros v r1 r2 H.
  - cbn. split; [reflexivity|exact H].
  - destruct r1 as [i1 b1 k1], r2 as [i2 b2 k2]. destruct H as (Hi & Hk & Hb).
    cbn [input bits_left rbuffer] in *. subst i2 k2.
    cbn [read_loop]. unfold refill. cbn [bits_left input rbuffer].
    destruct (Nat.eqb_spec k1 0) as [->|Hnz].
    + destruct i1 as [|x t]; [exact I|]. cbn [input bits_left rbuffer].
      apply IH. repeat split; right; reflexivity.
    + destruct Hb as [Hb|Hb]; [contradiction|subst b2].
      cbv beta iota. cbn [input bits_left rbuffer]. apply IH. repeat split; right; reflexivity.
Qed.

Lemma same_result_bind {A B} (o1 o2 : option (A * BitReader))
    (k : A -> BitReader -> option (B * BitReader)) :
  same_result o1 o2 ->
  (forall a s1 s2, same_bits s1 s2 -> same_result (k a s1) (k a s2)) ->
  same_result ('(a, s) <- o1 ;; k a s) ('(a, s) <- o2 ;; k a s).
Proof.
  intros H Hk. destruct o1 as [[a1 s1]|], o2 as [[a2 s2]|]; try contradiction; [|exact I].
  destruct H as [<- H]. apply Hk, H.
Qed.

Lemma element_decode_same e r1 r2 :
  same_bits r1 r2 -> same_result (element_decode r1 e) (element_decode r2 e).
Proof.
  intros H. unfold read_bits.
  destruct e as [n bits|c|n bits values|bits]; cbn [element_decode]; unfold read_bits.
  - apply same_result_bind; [apply read_loop_same, H|]. intros a s1 s2 Hs. split; [reflexivity|exact Hs].
  - destruct c as [n bits|c|n bits values|bits]; try exact I.
    + apply same_result_bind; [apply read_loop_same, H|]. intros a s1 s2 Hs.
      destruct (negb (a =? 0)).
      * apply same_result_bind; [apply read_loop_same, Hs|]. intros b t1 t2 Ht. split; [reflexivity|exact Ht].
      * apply same_result_bind; [apply read_loop_same, Hs|]. intros b t1 t2 Ht. split; [reflexivity|exact Ht].
    + apply same_result_bind; [apply read_loop_same, H|]. intros a s1 s2 Hs.
      destruct (negb (a =? 0)).
      * apply same_result_bind; [apply read_loop_same, Hs|]. intros b t1 t2 Ht. split; [reflexivity|exact Ht].
      * apply same_result_bind; [apply read_loop_same, Hs|]. intros b t1 t2 Ht. split; [reflexivity|exact Ht].
  - apply same_result_bind; [apply read_loop_same, H|]. intros a s1 s2 Hs. split; [reflexivity|exact Hs].
  - apply same_result_bind; [apply read_loop_same, H|]. intros a s1 s2 Hs. split; [reflexivity|exact Hs].
Qed.

Lemma elements_decode_same es : forall r1 r2,
  same_bits r1 r2 -> same_result (elements_decode r1 es) (elements_decode r2 es).
Proof.
  induction es as [|e es IH]; intros r1 r2 H.
  - split; [reflexivity|exact H].
  - cbn [elements_decode]. apply same_result_bind; [apply element_decode_same, H|].
    intros o s1 s2 Hs. apply same_result_bind; [apply IH, Hs|].
    intros fs t1 t2 Ht. split; [reflexivity|exact Ht].
Qed.

(** The presence bits of an FSPEC of one zero byte. *)
Lemma is_set_zero byte bit : (bit <= 7)%nat -> Fspec.is_set (Fspec.mkFspec [0]) byte bit = Some false.
Proof.
  intros Hb. unfold Fspec.is_set. cbn [Fspec.bytes].
  destruct byte as [|byte]; [|destruct byte; reflexivity].
  cbn [nth_error]. destruct (Nat.ltb_spec 7 bit); [lia|]. rewrite Z.land_0_l. reflexivity.
Qed.

Lemma items_decode_zero p its : forall r,
  items_decode p (Fspec.mkFspec [0]) its r = Some (map (fun _ => None) its, r).
Proof.
  induction its as [|it its IH]; intros r; [reflexivity|].
  cbn [items_decode]. unfold frn_to_fspec_position.
  rewrite is_set_zero by (pose proof (Nat.mod_upper_bound (frn it) 7 ltac:(lia)); lia).
  cbv beta iota. rewrite IH. reflexivity.
Qed.

Lemma items_encode_none p its : forall w,
  items_encode p its (map (fun _ => None) its) w = Some w.
Proof. induction its as [|it its IH]; intros w; [reflexivity|]. cbn. apply IH. Qed.

Lemma present_positions_none {A} (idx : list nat) :
  present_positions idx (map (fun _ => @None A) idx) = Some [].
Proof. induction idx as [|i idx IH]; [reflexivity|]. cbn. rewrite IH. reflexivity. Qed.

Lemma to_u8_try_from_from v values : forall pre,
  to_u8 (pre ++ values) (try_from_from (length pre) values v) = v.
Proof.
  induction values as [|[n vv] values IH]; intros pre; cbn [try_from_from]; [reflexivity|].
  destruct (Z.eqb_spec vv v) as [->|Hne].
  - cbn [to_u8]. rewrite nth_error_app2, Nat.sub_diag by lia. reflexivity.
  - specialize (IH (pre ++ [(n, vv)])). rewrite length_app, Nat.add_1_r, <- app_assoc in IH.
    exact IH.
Qed.

Lemma read_loop_short n : forall value r,
  read_loop n value r = None <-> (bits_left r + 8 * length (input r) < n)%nat.
Proof.
  induction n as [|n IH]; intros value r; cbn [read_loop].
  - split; [discriminate|lia].
  - unfold refill. destruct (Nat.eqb_spec (bits_left r) 0) as [Z0|NZ].
    + destruct (input r) as [|b rest] eqn:Ei; cbn [length].
      * split; [lia|reflexivity].
      * rewrite IH. cbn [input bits_left]. lia.
    + cbv beta iota. rewrite IH. cbn [input bits_left]. lia.
Qed.

Lemma read_bits_nil buf n : read_bits (mkReader [] buf 0) (S n) = None.
Proof. reflexivity. Qed.

Lemma read16_one x buf : read_bits (mkReader [x] buf 0) 16 = None.
Proof. unfold read_bits. apply read_loop_short. cbn. lia. Qed.

Lemma same_result_fst {A} (o1 o2 : option (A * BitReader)) :
  same_result o1 o2 -> option_map fst o1 = option_map fst o2.
Proof.
  destruct o1 as [[a1 s1]|], o2 as [[a2 s2]|]; cbn; try contradiction; [|reflexivity].
  intros [-> _]. reflexivity.
Qed.

Lemma present_positions_frn_none (its : list IRItem) :
  present_positions (map frn its) (map (fun _ => @None ItemValue) its) = Some [].
Proof. induction its as [|it its IH]; [reflexivity|]. cbn. rewrite IH. reflexivity. Qed.

End DecodeMore.

Module NamesMore.
Import Names.
Local Open Scope char_scope.

Lemma nat_ascii_small c : (nat_of_ascii c < 256)%nat.
Proof. apply nat_ascii_bounded. Qed.













End NamesMore.

(** ** Claims on the FSPEC bitmap *)

(** C4: setting any collection of data positions [(b, k)] with
    [0 <= k <= 6] (in any order) on a fresh FSPEC, then writing it and
    reading it back, gives an FSPEC whose [is_set b k] is true exactly for
    the positions set. The read consumes exactly the written bytes and
    rebuilds the same FSPEC. *)
Theorem fspec_set_write_read_roundtrip (ps : list (nat * nat)) (f : Fspec.Fspec) :
  Forall (fun p => (snd p <= 6)%nat) ps ->
  Fspec.set_all Fspec.new ps = Some f ->
  Fspec.read (Fspec.write f) = Some (f, []) /\
  forall b k, (k <= 6)%nat -> (Fspec.is_set f b k = Some true <-> In (b, k) ps).
Proof.
  intros HS H. split.
  - destruct (Fspec.fx_ok_set_all _ _ _ HS Fspec.fx_ok_new H) as [Hne Hfx].
    unfold Fspec.read, Fspec.write.
    assert (R : Fspec.read_bytes (Fspec.bytes f ++ []) = Some (Fspec.bytes f, [])).
    { apply (Fspec.read_bytes_fx _ [] Hne). intros i. apply Hfx. }
    rewrite app_nil_r in R. rewrite R. now destruct f.
  - intros b k Hk. rewrite Fspec.is_set_bitat by lia.
    rewrite (Fspec.set_all_data_bitat _ _ _ _ _ HS Hk H), Fspec.bitat_new. simpl.
    split.
    + intros E. injection E as E. apply existsb_exists in E as [[b' k'] [Hin E]].
      simpl in E. apply andb_true_iff in E as [E1 E2].
      apply Nat.eqb_eq in E1, E2. now subst.
    + intros Hin. f_equal. apply existsb_exists. exists (b, k).
      simpl. now rewrite !Nat.eqb_refl.
Qed.

Lemma fspec_set_write_read_roundtrip_witness :
  Forall (fun p => (snd p <= 6)%nat) [(0%nat, 0%nat); (2%nat, 3%nat)] /\
  Fspec.set_all Fspec.new [(0%nat, 0%nat); (2%nat, 3%nat)] = Some (Fspec.mkFspec [129; 1; 16]) /\
  Fspec.read (Fspec.write (Fspec.mkFspec [129; 1; 16])) = Some (Fspec.mkFspec [129; 1; 16], []) /\
  (forall b k, (k <= 6)%nat ->
     (Fspec.is_set (Fspec.mkFspec [129; 1; 16]) b k = Some true <->
      In (b, k) [(0%nat, 0%nat); (2%nat, 3%nat)])).
Proof.
  assert (H1 : Forall (fun p => (snd p <= 6)%nat) [(0%nat, 0%nat); (2%nat, 3%nat)])
    by (repeat constructor; cbn; lia).
  assert (H2 : Fspec.set_all Fspec.new [(0%nat, 0%nat); (2%nat, 3%nat)] =
               Some (Fspec.mkFspec [129; 1; 16])) by reflexivity.
  split; [exact H1|]. split; [exact H2|].
  exact (fspec_set_write_read_roundtrip _ _ H1 H2).
Defined.

(** C5: every FSPEC built from [new] by [set] calls with [0 <= k <= 6]
    serializes to [m >= 1] bytes where bytes [0 .. m-2] have FX = 1 and
    byte [m-1] has FX = 0. *)
Theorem fspec_fx_chain_invariant (ps : list (nat * nat)) (f : Fspec.Fspec) :
  Forall (fun p => (snd p <= 6)%nat) ps ->
  Fspec.set_all Fspec.new ps = Some f ->
  let m := length (Fspec.write f) in
  (1 <= m)%nat /\
  (forall i, (S i < m)%nat -> Z.testbit (nth i (Fspec.write f) 0) 0 = true) /\
  Z.testbit (nth (m - 1) (Fspec.write f) 0) 0 = false.
Proof.
  intros HS H m.
  destruct (Fspec.fx_ok_set_all _ _ _ HS Fspec.fx_ok_new H) as [Hne Hfx].
  unfold m, Fspec.write. clear m.
  assert (Hb : forall i, (i < length (Fspec.bytes f))%nat ->
            Z.testbit (nth i (Fspec.bytes f) 0) 0 = Nat.ltb (S i) (length (Fspec.bytes f))).
  { intros i Hi. rewrite <- Hfx. unfold Fspec.bitat.
    now rewrite (nth_error_nth' _ 0 Hi). }
  destruct (Fspec.bytes f) eqn:E; [congruence|].
  split; [simpl; lia|]. split.
  - intros i Hi. rewrite Hb by lia. now apply Nat.ltb_lt.
  - rewrite Hb by (simpl; lia). apply Nat.ltb_ge. simpl. lia.
Qed.

Lemma fspec_fx_chain_invariant_witness :
  Forall (fun p => (snd p <= 6)%nat) [(0%nat, 0%nat); (2%nat, 3%nat)] /\
  Fspec.set_all Fspec.new [(0%nat, 0%nat); (2%nat, 3%nat)] = Some (Fspec.mkFspec [129; 1; 16]) /\
  (1 <= 3)%nat /\
  (forall i, (S i < 3)%nat -> Z.testbit (nth i [129; 1; 16] 0) 0 = true) /\
  Z.testbit (nth 2 [129; 1; 16] 0) 0 = false.
Proof.
  assert (H1 : Forall (fun p => (snd p <= 6)%nat) [(0%nat, 0%nat); (2%nat, 3%nat)])
    by (repeat constructor; cbn; lia).
  assert (H2 : Fspec.set_all Fspec.new [(0%nat, 0%nat); (2%nat, 3%nat)] =
               Some (Fspec.mkFspec [129; 1; 16])) by reflexivity.
  split; [exact H1|]. split; [exact H2|].
  exact (fspec_fx_chain_invariant _ _ H1 H2).
Defined.

(** C8 (counterexample): [is_set b 7] does report the FX bit. After
    [set 1 0] on a fresh FSPEC, byte 0 is [0x01] (only its FX bit is set)
    and [is_set 0 7] returns [true]. *)
Lemma fspec_is_set_7_fx_counterexample :
  Fspec.set Fspec.new 1 0 = Some (Fspec.mkFspec [1; 128]) /\
  Fspec.is_set (Fspec.mkFspec [1; 128]) 0 7 = Some true.
Proof. split; reflexivity. Qed.

(** C8 (as the code behaves): [is_set b 7] returns the FX (LSB) bit of
    byte [b] (false past the end). Hence for an FSPEC built by [set] calls
    with [0 <= k <= 6] from [new], or returned by [read], [is_set b 7] is
    true exactly when byte [b] is not the last byte. *)
Theorem fspec_is_set_7_reports_fx :
  (forall f b, Fspec.is_set f b 7 =
     Some (match nth_error (Fspec.write f) b with
           | Some x => Z.testbit x 0 | None => false end)) /\
  (forall ps f b, Forall (fun p => (snd p <= 6)%nat) ps ->
     Fspec.set_all Fspec.new ps = Some f ->
     Fspec.is_set f b 7 = Some (Nat.ltb (S b) (length (Fspec.write f)))) /\
  (forall input f rest b, Fspec.read input = Some (f, rest) ->
     Fspec.is_set f b 7 = Some (Nat.ltb (S b) (length (Fspec.write f)))).
Proof.
  split; [|split].
  - intros f b. rewrite Fspec.is_set_bitat by lia. reflexivity.
  - intros ps f b HS H. rewrite Fspec.is_set_bitat by lia.
    destruct (Fspec.fx_ok_set_all _ _ _ HS Fspec.fx_ok_new H) as [_ Hfx].
    now rewrite Nat.sub_diag, Hfx.
  - intros input f rest b H. rewrite Fspec.is_set_bitat by lia.
    destruct (Fspec.read_fx_ok _ _ _ H) as [_ Hfx].
    now rewrite Nat.sub_diag, Hfx.
Qed.

Lemma fspec_is_set_7_reports_fx_witness :
  Forall (fun p => (snd p <= 6)%nat) [(1%nat, 0%nat)] /\
  Fspec.set_all Fspec.new [(1%nat, 0%nat)] = Some (Fspec.mkFspec [1; 128]) /\
  Fspec.is_set (Fspec.mkFspec [1; 128]) 0 7 = Some true /\
  Fspec.read [129; 0; 7] = Some (Fspec.mkFspec [129; 0], [7]) /\
  Fspec.is_set (Fspec.mkFspec [129; 0]) 0 7 = Some true.
Proof.
  split; [repeat constructor; simpl; lia|].
  split; [reflexivity|]. split.
  - rewrite (proj1 (proj2 fspec_is_set_7_reports_fx) [(1%nat, 0%nat)]
               (Fspec.mkFspec [1; 128]) 0%nat
               ltac:(repeat constructor; simpl; lia) eq_refl).
    reflexivity.
  - split; [reflexivity|].
    rewrite (proj2 (proj2 fspec_is_set_7_reports_fx) [129; 0; 7]
               (Fspec.mkFspec [129; 0]) [7] 0%nat eq_refl).
    reflexivity.
Defined.

(** C9: [set b k] with [0 <= k <= 6] makes [is_set b k] true, leaves every
    other data position [(b', k')] ([k' <= 6]) unchanged, never clears a
    bit that [is_set] reported (monotone), and is idempotent. *)
Theorem fspec_set_frame (f : Fspec.Fspec) (b k : nat) (f' : Fspec.Fspec) :
  (k <= 6)%nat -> Fspec.set f b k = Some f' ->
  Fspec.is_set f' b k = Some true /\
  (forall b' k', (k' <= 6)%nat -> (b', k') <> (b, k) ->
     Fspec.is_set f' b' k' = Fspec.is_set f b' k') /\
  (forall b' k', Fspec.is_set f b' k' = Some true -> Fspec.is_set f' b' k' = Some true) /\
  Fspec.set f' b k = Some f'.
Proof.
  intros Hk H. split; [|split; [|split]].
  - rewrite Fspec.is_set_bitat by lia.
    rewrite (Fspec.set_bitat _ _ _ _ _ _ H), !Nat.eqb_refl. f_equal. btauto.
  - intros b' k' Hk' Hne. rewrite !Fspec.is_set_bitat by lia.
    rewrite (Fspec.set_bitat _ _ _ _ _ _ H). f_equal.
    destruct (Nat.eqb_spec b' b), (Nat.eqb_spec (7 - k') (7 - k)),
      (Nat.eqb_spec (7 - k') 0); simpl; try btauto; try lia.
    subst. assert (k' = k) by lia. congruence.
  - intros b' k' Hs.
    assert (Hk' : (k' <= 7)%nat).
    { unfold Fspec.is_set in Hs. destruct nth_error; [|discriminate].
      destruct (Nat.ltb_spec 7 k'); [discriminate|lia]. }
    rewrite Fspec.is_set_bitat in Hs |- * by lia.
    assert (Hs' : Fspec.bitat f b' (7 - k') = true) by congruence.
    rewrite (Fspec.set_bitat _ _ _ _ _ _ H), Hs'. reflexivity.
  - destruct (Fspec.set_some f' b k) as [f'' H'']; [lia|]. rewrite H''. f_equal.
    apply Fspec.bytes_ext.
    + rewrite (Fspec.set_length _ _ _ _ H''), (Fspec.set_length _ _ _ _ H). lia.
    + intros i j. rewrite (Fspec.set_bitat _ _ _ _ _ _ H''),
        (Fspec.set_bitat _ _ _ _ _ _ H). btauto.
Qed.


Lemma fspec_set_frame_witness :
  (2 <= 6)%nat /\ Fspec.set Fspec.new 1 2 = Some (Fspec.mkFspec [1; 32]) /\
  Fspec.is_set (Fspec.mkFspec [1; 32]) 1 2 = Some true /\
  (forall b' k', (k' <= 6)%nat -> (b', k') <> (1%nat, 2%nat) ->
     Fspec.is_set (Fspec.mkFspec [1; 32]) b' k' = Fspec.is_set Fspec.new b' k') /\
  (forall b' k', Fspec.is_set Fspec.new b' k' = Some true ->
     Fspec.is_set (Fspec.mkFspec [1; 32]) b' k' = Some true) /\
  Fspec.set (Fspec.mkFspec [1; 32]) 1 2 = Some (Fspec.mkFspec [1; 32]).
Proof.
  split; [lia|]. split; [reflexivity|].
  apply (fspec_set_frame Fspec.new 1 2 (Fspec.mkFspec [1; 32])); [lia|reflexivity].
Defined.

(** ** Claims on the bit streams *)

(** C3 (counterexample): a value wider than its bit count does not come
    back. [write_bits(2, 1)] emits only the low bit [0]; after [flush] the
    stream is the single byte [0x00], and [read_bits(1)] returns [0], not
    [2]. *)
Lemma bitstream_roundtrip_counterexample :
  BitIO.encode_writes [(2, 1%nat)] = Some [0] /\
  BitIO.read_all (BitIO.reader_new [0]) [1%nat] = Some [0].
Proof. split; reflexivity. Qed.

(** C3 (as the code behaves): for any sequence of [write_bits(v_i, n_i)]
    with [n_i <= 64] on a fresh writer followed by [flush], a fresh reader
    over the produced bytes returns from [read_bits(n_0), ..., read_bits(n_k)]
    the values [v_i mod 2^n_i] in order; these are exactly the [v_i] when
    every [v_i] fits in its [n_i] bits. *)
Theorem bitstream_roundtrip (ws : list (Z * nat)) :
  Forall (fun p => (snd p <= 64)%nat) ws ->
  exists bytes, BitIO.encode_writes ws = Some bytes /\
    BitIO.read_all (BitIO.reader_new bytes) (map snd ws) =
      Some (map (fun p => fst p mod 2 ^ Z.of_nat (snd p)) ws) /\
    (Forall (fun p => 0 <= fst p < 2 ^ Z.of_nat (snd p)) ws ->
     map (fun p => fst p mod 2 ^ Z.of_nat (snd p)) ws = map fst ws).
Proof.
  intros Hws.
  assert (Hw0 : BitIO.writer_wf BitIO.writer_new).
  { split; [cbn; lia|]. split; [cbn; lia|constructor]. }
  destruct (BitIO.write_all_spec ws _ Hws Hw0) as (w & Ew & Hw & Bw).
  destruct (BitIO.flush_spec w Hw) as [pad Hpad].
  exists (BitIO.out (BitIO.flush w)). split; [|split].
  - unfold BitIO.encode_writes. rewrite Ew. reflexivity.
  - apply (BitIO.read_all_spec ws _ pad Hws).
    unfold BitIO.reader_bits. cbn [BitIO.reader_new BitIO.rbuffer BitIO.bits_left
      BitIO.input BitIO.bits_msb app].
    rewrite Hpad, Bw. reflexivity.
  - intros Hv. apply map_ext_in. intros p Hp.
    rewrite Forall_forall in Hv. apply Z.mod_small, Hv, Hp.
Qed.

Lemma bitstream_roundtrip_witness :
  Forall (fun p => (snd p <= 64)%nat) [(0xABCD, 16%nat); (5, 3%nat); (31, 5%nat)] /\
  exists bytes,
    BitIO.encode_writes [(0xABCD, 16%nat); (5, 3%nat); (31, 5%nat)] = Some bytes /\
    BitIO.read_all (BitIO.reader_new bytes) [16%nat; 3%nat; 5%nat] =
      Some [0xABCD; 5; 31].
Proof.
  assert (H : Forall (fun p => (snd p <= 64)%nat) [(0xABCD, 16%nat); (5, 3%nat); (31, 5%nat)])
    by (repeat constructor; cbn; lia).
  split; [exact H|].
  destruct (bitstream_roundtrip _ H) as (bytes & E & R & _).
  exists bytes. split; [exact E|]. exact R.
Defined.

(** ** Claims on the data-block framing *)

(** C10 (counterexample): a payload of 65533 bytes is not silently
    wrapped when overflow checks are on: [len as u16] is 65533 and the
    [u16] addition [3 + 65533] panics, so [encode] never returns. Only
    without overflow checks does LEN wrap, to 0. *)
Lemma datablock_len_counterexample :
  DataBlock.encode_frame Debug 48 (repeat 0 (Z.to_nat 65533)) BitIO.writer_new = None /\
  DataBlock.total_len Release 65533 = Some 0.
Proof.
  split; [|reflexivity].
  unfold DataBlock.encode_frame. rewrite repeat_length, Z2Nat.id by lia. reflexivity.
Qed.

(** C10 (as the code behaves): the encoded frame is CAT, then LEN
    big-endian on two bytes, then the payload. With a payload of [n] bytes,
    LEN is exactly [3 + n] when [n <= 65532]. The cast [n as u16] silently
    keeps [n mod 2^16]; the [u16] addition [3 + (n mod 2^16)] then wraps
    without overflow checks, giving [(3 + n) mod 2^16], and with overflow
    checks it succeeds with the same value when [n mod 2^16 <= 65532] and
    panics when [n mod 2^16 > 65532]. *)
Theorem datablock_len_header (p : profile) (cat : Z) (buf : list Z) :
  0 <= cat < 256 -> Forall (fun b => 0 <= b < 256) buf ->
  let n := Z.of_nat (length buf) in
  option_map BitIO.out (DataBlock.encode_frame p cat buf BitIO.writer_new) =
    option_map (fun l => [cat; l / 256; l mod 256] ++ buf) (DataBlock.total_len p n) /\
  (n <= 65532 -> DataBlock.total_len p n = Some (3 + n)) /\
  DataBlock.total_len Release n = Some ((3 + n) mod 2 ^ 16) /\
  (n mod 2 ^ 16 <= 65532 -> DataBlock.total_len Debug n = Some ((3 + n) mod 2 ^ 16)) /\
  (65532 < n mod 2 ^ 16 -> DataBlock.total_len Debug n = None).
Proof.
  intros Hcat Hbuf n.
  assert (Hn : 0 <= n) by lia.
  assert (Hm : (3 + n) mod 2 ^ 16 = (3 + n mod 2 ^ 16) mod 2 ^ 16)
    by (rewrite Z.add_mod_idemp_r; lia).
  split.
  { unfold DataBlock.encode_frame. fold n.
    destruct (DataBlock.total_len p n) as [l|] eqn:El; [|reflexivity].
    pose proof (DataBlock.total_len_range _ _ _ El) as Hl.
    assert (Hw0 : BitIO.writer_wf BitIO.writer_new).
    { split; [cbn; lia|]. split; [cbn; lia|constructor]. }
    destruct (BitIO.write_bits_from_spec cat 8 _ ltac:(lia) Hw0) as (w1 & E1 & Hw1 & B1).
    destruct (BitIO.write_bits_from_spec l 16 _ ltac:(lia) Hw1) as (w2 & E2 & Hw2 & B2).
    assert (Hb8 : Forall (fun q => (snd q <= 64)%nat) (map (fun b => (b, 8%nat)) buf)).
    { apply Forall_map, Forall_forall. intros. cbn. lia. }
    destruct (BitIO.write_all_spec _ w2 Hb8 Hw2) as (w3 & E3 & Hw3 & B3).
    unfold BitIO.write_bits. rewrite E1, E2, E3. cbn [option_map]. f_equal.
    rewrite BitIO.flat_map_bytes in B3.
    assert (Hbits : BitIO.writer_bits w3 =
              BitIO.stream_bits ([cat; l / 256; l mod 256] ++ buf) ++ []).
    { rewrite B3, B2, B1. change (BitIO.writer_bits BitIO.writer_new) with (@nil bool).
      change 16%nat with (8 + 8)%nat. rewrite BitIO.bits_msb_split.
      change (2 ^ Z.of_nat 8) with 256.
      rewrite BitIO.stream_bits_app.
      change (BitIO.stream_bits [cat; l / 256; l mod 256]) with
        (BitIO.bits_msb cat 8 ++ BitIO.bits_msb (l / 256) 8 ++ BitIO.bits_msb (l mod 256) 8 ++ []).
      rewrite !app_nil_r, <- !app_assoc. reflexivity. }
    assert (Ho : Forall (fun b => 0 <= b < 256) ([cat; l / 256; l mod 256] ++ buf)).
    { apply Forall_app. split; [|exact Hbuf].
      pose proof (Z.mod_pos_bound l 256 ltac:(lia)).
      assert (0 <= l / 256 < 256) by (split; [apply Z.div_pos | apply Z.div_lt_upper_bound]; lia).
      repeat constructor; lia. }
    destruct (BitIO.writer_aligned_out w3 (length ([cat; l / 256; l mod 256] ++ buf)) Hw3)
      as [_ Eo].
    + rewrite Hbits, app_nil_r, BitIO.length_stream_bits. reflexivity.
    + rewrite Eo, Hbits. apply BitIO.bytes_of_stream_bits, Ho. }
  unfold DataBlock.total_len, DataBlock.add_u16, DataBlock.as_u16. cbv zeta.
  split; [|split; [|split]].
  - intros Hle. rewrite Z.mod_small by lia.
    destruct (Z.ltb_spec (3 + n) (2 ^ 16)); [reflexivity|lia].
  - destruct (Z.ltb_spec (3 + n mod 2 ^ 16) (2 ^ 16)); [|now rewrite Hm].
    rewrite Hm, (Z.mod_small (3 + n mod 2 ^ 16)); [reflexivity|].
    pose proof (Z.mod_pos_bound n (2 ^ 16) ltac:(lia)). lia.
  - intros Hle. destruct (Z.ltb_spec (3 + n mod 2 ^ 16) (2 ^ 16)); [|lia].
    rewrite Hm, (Z.mod_small (3 + n mod 2 ^ 16)); [reflexivity|].
    pose proof (Z.mod_pos_bound n (2 ^ 16) ltac:(lia)). lia.
  - intros Hlt. destruct (Z.ltb_spec (3 + n mod 2 ^ 16) (2 ^ 16)); [lia|reflexivity].
Qed.

Lemma datablock_len_header_witness :
  0 <= 48 < 256 /\ Forall (fun b => 0 <= b < 256) [1; 2] /\
  option_map BitIO.out (DataBlock.encode_frame Debug 48 [1; 2] BitIO.writer_new) =
    Some [48; 0; 5; 1; 2].
Proof.
  assert (H1 : 0 <= 48 < 256) by lia.
  assert (H2 : Forall (fun b => 0 <= b < 256) [1; 2]) by (repeat constructor; lia).
  split; [exact H1|]. split; [exact H2|].
  destruct (datablock_len_header Debug 48 [1; 2] H1 H2) as [E _].
  rewrite E. reflexivity.
Defined.

(** ** Claims on schema validation *)

(** C6 (code bug): [IRLayout::validate] asserts [total_bits == bytes * 8]
    to reject every layout whose declared byte count does not match its
    element bits, but without overflow checks the [usize] product
    [bytes * 8] wraps. Adding any multiple [k * 2^61] ([k >= 1]) to the
    byte count of a matching Fixed, Explicit or Repetitive layout leaves
    [bytes * 8] unchanged modulo [2^64]: the layout no longer matches its
    elements, yet [to_ir] accepts a category holding it (and any items
    that were accepted before). With overflow checks the product panics
    and the same category is rejected. *)
Theorem schema_budget_wrap_accepted (cat : RasterixIR.IRCategory) (id frn : Z)
    (bytes k : N) (es : list RasterixIR.IRElement) (l : RasterixIR.IRLayout) :
  RasterixIR.to_ir Release cat = Some cat ->
  RasterixIR.sum_math es = (bytes * 8)%N -> (bytes * 8 < 2 ^ 64)%N -> (1 <= k)%N ->
  (l = RasterixIR.Fixed (bytes + k * 2 ^ 61) es \/
   l = RasterixIR.Explicit (bytes + k * 2 ^ 61) es \/
   exists c, l = RasterixIR.Repetitive (bytes + k * 2 ^ 61) c es) ->
  RasterixIR.budget_mismatch l /\
  RasterixIR.to_ir Release
    (RasterixIR.mkCategory (RasterixIR.category_id cat)
       (RasterixIR.items cat ++ [RasterixIR.mkItem id frn l])) =
  Some (RasterixIR.mkCategory (RasterixIR.category_id cat)
       (RasterixIR.items cat ++ [RasterixIR.mkItem id frn l])) /\
  RasterixIR.to_ir Debug
    (RasterixIR.mkCategory (RasterixIR.category_id cat)
       (RasterixIR.items cat ++ [RasterixIR.mkItem id frn l])) = None.
Proof.
  intros Hcat Hs Hb Hk Hl.
  assert (Hmis : (bytes + k * 2 ^ 61 <> (RasterixIR.sum_math es + 7) / 8)%N).
  { rewrite Hs. replace (bytes * 8 + 7)%N with (7 + bytes * 8)%N by lia.
    rewrite N.div_add, N.div_small by lia. lia. }
  assert (Hprod : ((bytes + k * 2 ^ 61) * 8 = bytes * 8 + k * 2 ^ 64)%N) by lia.
  assert (Hsum : forall p, RasterixIR.sum_bits p es = Some (bytes * 8)%N).
  { intros p. unfold RasterixIR.sum_bits. rewrite RasterixIR.sum_bits_from_small by lia.
    f_equal. lia. }
  assert (Hrel : RasterixIR.check_bytes Release (bytes + k * 2 ^ 61) es = true).
  { unfold RasterixIR.check_bytes. rewrite Hsum. unfold RasterixIR.mul_usize. cbv zeta.
    rewrite Hprod. destruct (N.ltb_spec (bytes * 8 + k * 2 ^ 64) (2 ^ 64)); [lia|].
    rewrite N.Div0.mod_add, N.mod_small by lia. apply N.eqb_refl. }
  assert (Hdbg : RasterixIR.check_bytes Debug (bytes + k * 2 ^ 61) es = false).
  { unfold RasterixIR.check_bytes. rewrite Hsum. unfold RasterixIR.mul_usize. cbv zeta.
    rewrite Hprod. destruct (N.ltb_spec (bytes * 8 + k * 2 ^ 64) (2 ^ 64)); [lia|reflexivity]. }
  assert (Hv : RasterixIR.budget_mismatch l /\ RasterixIR.validate Release l = true /\
               RasterixIR.validate Debug l = false).
  { destruct Hl as [->|[->|[c ->]]]; cbn [RasterixIR.budget_mismatch RasterixIR.validate];
      repeat split; assumption. }
  destruct Hv as (Hm & Hr & Hd).
  unfold RasterixIR.to_ir in Hcat |- *. cbn [RasterixIR.items].
  destruct (forallb _ (RasterixIR.items cat)) eqn:Ec; [|discriminate].
  rewrite !forallb_app. cbn [forallb RasterixIR.item_layout]. rewrite Hr, Hd, Ec.
  split; [exact Hm|]. split; [reflexivity|].
  rewrite andb_false_r. reflexivity.
Qed.

Lemma schema_budget_wrap_accepted_witness :
  RasterixIR.budget_mismatch (RasterixIR.Fixed (1 + 1 * 2 ^ 61) [RasterixIR.Field "sac" 8 false]) /\
  RasterixIR.to_ir Release
    (RasterixIR.mkCategory 48 [RasterixIR.mkItem 10 1
       (RasterixIR.Fixed (1 + 1 * 2 ^ 61) [RasterixIR.Field "sac" 8 false])]) =
  Some (RasterixIR.mkCategory 48 [RasterixIR.mkItem 10 1
       (RasterixIR.Fixed (1 + 1 * 2 ^ 61) [RasterixIR.Field "sac" 8 false])]) /\
  RasterixIR.to_ir Debug
    (RasterixIR.mkCategory 48 [RasterixIR.mkItem 10 1
       (RasterixIR.Fixed (1 + 1 * 2 ^ 61) [RasterixIR.Field "sac" 8 false])]) = None.
Proof.
  exact (schema_budget_wrap_accepted (RasterixIR.mkCategory 48 []) 10 1 1 1
           [RasterixIR.Field "sac" 8 false] _ eq_refl eq_refl
           ltac:(vm_compute; reflexivity) ltac:(vm_compute; discriminate)
           (or_introl eq_refl)).
Defined.

(** With overflow checks [validate] rejects every mismatch: if an item
    of the category contains, at top level or inside compound sub-items, a Fixed, Explicit or Repetitive
    layout whose declared byte count is not the ceiling of its element bits
    (an EPB counting [1 +] its content) over 8, then [to_ir] panics during
    validation, before any code is emitted. This holds for every such
    schema when overflow checks are on, and without them whenever
    [bytes * 8] and the element bit total stay below [2^64]. *)
Theorem schema_budget_rejected (p : profile) (cat : RasterixIR.IRCategory)
    (it : RasterixIR.IRItem) (l : RasterixIR.IRLayout) :
  In it (RasterixIR.items cat) ->
  RasterixIR.contains (RasterixIR.item_layout it) l ->
  RasterixIR.budget_mismatch l ->
  (p = Debug \/ RasterixIR.budget_fits l) ->
  RasterixIR.to_ir p cat = None.
Proof.
  intros Hin Hc Hm Hp. unfold RasterixIR.to_ir.
  destruct (forallb _ _) eqn:E; [|reflexivity]. exfalso.
  rewrite forallb_forall in E.
  apply (RasterixIR.validate_no_mismatch p l Hp); [|exact Hm].
  exact (RasterixIR.validate_contains p _ _ Hc (E it Hin)).
Qed.

Lemma schema_budget_rejected_witness :
  RasterixIR.budget_mismatch (RasterixIR.Fixed 2 [RasterixIR.Field "sac" 8 false]) /\
  RasterixIR.to_ir Debug
    (RasterixIR.mkCategory 48
       [RasterixIR.mkItem 10 1 (RasterixIR.Fixed 2 [RasterixIR.Field "sac" 8 false])]) = None.
Proof.
  assert (Hm : RasterixIR.budget_mismatch (RasterixIR.Fixed 2 [RasterixIR.Field "sac" 8 false]))
    by (vm_compute; discriminate).
  split; [exact Hm|].
  apply (schema_budget_rejected Debug _
           (RasterixIR.mkItem 10 1 (RasterixIR.Fixed 2 [RasterixIR.Field "sac" 8 false]))
           (RasterixIR.Fixed 2 [RasterixIR.Field "sac" 8 false])).
  - left. reflexivity.
  - apply RasterixIR.contains_self.
  - exact Hm.
  - left. reflexivity.
Defined.

(** ** Claims on field lowering *)

Module LowererClaims.
Import CodegenIR Names Lowerer.

Lemma lower_fields_app es1 es2 ds1 ds2 :
  lower_fields es1 = Some ds1 -> lower_fields es2 = Some ds2 ->
  lower_fields (es1 ++ es2) = Some (ds1 ++ ds2).
Proof.
  revert ds1. induction es1 as [|e es1 IH]; intros ds1 H1 H2.
  - cbn in H1. injection H1 as <-. exact H2.
  - cbn [lower_fields app] in *.
    destruct (lower_field e) as [d|]; [|discriminate].
    destruct (lower_fields es1) as [ds|] eqn:E; [|discriminate].
    injection H1 as <-. rewrite (IH ds eq_refl H2).
    destruct d; reflexivity.
Qed.

(** Two spellings of one field name land on the same snake-case
    identifier. *)
Lemma to_snake_case_collision :
  to_snake_case "FieldName" = Some "field_name"%string /\
  to_snake_case "field_name" = Some "field_name"%string.
Proof. split; reflexivity. Qed.

(** C7: lowering never rejects duplicate field names. Whenever
    [lower_fields] succeeds on an element list, it also succeeds on the
    list followed by a copy of itself, and returns every descriptor
    twice, so the generated struct gets each field name twice. *)
Theorem lower_fields_accepts_duplicates (es : list IRElement) (ds : list FieldDescriptor) :
  lower_fields es = Some ds -> lower_fields (es ++ es) = Some (ds ++ ds).
Proof. intros H. exact (lower_fields_app es es ds ds H H). Qed.

Lemma lower_fields_accepts_duplicates_witness :
  lower_fields [Field "sac" 8] = Some [mkFieldDescriptor "sac" (Primitive "u8")] /\
  lower_fields [Field "sac" 8; Field "sac" 8] =
    Some [mkFieldDescriptor "sac" (Primitive "u8"); mkFieldDescriptor "sac" (Primitive "u8")].
Proof.
  split; [reflexivity|].
  exact (lower_fields_accepts_duplicates [Field "sac" 8]
           [mkFieldDescriptor "sac" (Primitive "u8")] eq_refl).
Defined.

End LowererClaims.

(** ** Claims on the generated items, records and data blocks *)

Module GenClaims.
Import BitIO CodegenIR Gen GenFacts.

(** C1 (counterexample): an Extended value whose middle part is absent
    while a later part is present does not come back. With three 7-bit
    parts and [part0 = Some(1)], [part1 = None], [part2 = Some(2)], the
    encoder writes [part0] with FX [= part1.is_some() = 0], skips [part1],
    then writes [part2]: the bytes [0x02 0x04]. The decoder reads [part0],
    sees FX = 0 and sets [part1] and [part2] to [None]. *)
Lemma extended_gap_roundtrip_counterexample :
  layout_ok (Extended 3 [mkPartGroup 0 [Field "a" 7]; mkPartGroup 1 [Field "b" 7];
                         mkPartGroup 2 [Field "c" 7]]) = true /\
  item_encode_bytes Debug
    (Extended 3 [mkPartGroup 0 [Field "a" 7]; mkPartGroup 1 [Field "b" 7]; mkPartGroup 2 [Field "c" 7]])
    (VExtended [Some [VInt 1]; None; Some [VInt 2]]) = Some [2; 4] /\
  item_decode_bytes Debug
    (Extended 3 [mkPartGroup 0 [Field "a" 7]; mkPartGroup 1 [Field "b" 7]; mkPartGroup 2 [Field "c" 7]])
    [2; 4] = Some (VExtended [Some [VInt 1]; None; None]).
Proof. split; [reflexivity|]. split; vm_compute; reflexivity. Qed.

(** C1 (as the code behaves): for a legal schema and a legal value the
    generated decode returns the encoded value, for items of every layout,
    for records and for data blocks, in every build. Legal schemas
    ([layout_ok], [record_schema_ok]): enum values distinct, below 256 and
    fitting their width; elements at most 64 bits; element bits summing to
    [8 * bytes]; Extended parts of 7 bits with part [i] of index [i];
    distinct sub-item indices and FRNs; no nested Compound. Legal values
    ([value_ok], [record_value_ok]): integers and [Unknown] enum values
    within their width ([Unknown] below 256 and not a declared value),
    [count] items in a Repetitive value, and the present parts of an
    Extended value forming a prefix: [part0] present and no part present
    after an absent one. A data block round-trips when its category id
    fits in a byte and its records take at most 65532 bytes, so that
    [LEN = 3 + n] fits in 16 bits. *)
Theorem generated_roundtrip :
  (forall p l v, layout_ok l = true -> value_ok l v = true ->
     exists b, item_encode_bytes p l v = Some b /\ item_decode_bytes p l b = Some v) /\
  (forall p its vs, record_schema_ok its = true -> record_value_ok its vs = true ->
     exists b, record_encode_bytes p its vs = Some b /\ record_decode_bytes p its b = Some vs) /\
  (forall p cat recs, record_schema_ok (items cat) = true ->
     Forall (fun rec => record_value_ok (items cat) rec = true) recs ->
     0 <= category_id cat < 256 ->
     (exists payload, records_payload p (items cat) recs = Some payload) /\
     forall payload, records_payload p (items cat) recs = Some payload ->
       Z.of_nat (length payload) <= 65532 ->
       exists b, datablock_encode_bytes p cat recs = Some b /\ datablock_decode_bytes p cat b = Some recs).
Proof.
  split; [exact item_bytes_roundtrip|]. split; [exact record_bytes_roundtrip|].
  intros p cat recs Hl Hr Hc. split.
  - destruct (records_payload_spec p (items cat) recs Hl Hr) as (payload & _ & Ep & _). eauto.
  - intros payload Hp Hn. exact (datablock_bytes_roundtrip p cat recs payload Hl Hr Hc Hp Hn).
Qed.

Lemma generated_roundtrip_witness :
  (exists b,
     item_encode_bytes Debug
       (Compound [mkSubItem 0 (Fixed 1 [Field "a" 8]);
                  mkSubItem 1 (Extended 2 [mkPartGroup 0 [Field "b" 7];
                                           mkPartGroup 1 [EPB (Enum "e" 6 [("x"%string, 1); ("y"%string, 2)])]]);
                  mkSubItem 9 (Repetitive 1 2 [Field "c" 4; Spare 4])])
       (VCompound [Some (VSimple [VInt 200]);
                   Some (VExtended [Some [VInt 5]; Some [VOptEnum (Some (Known 1))]]);
                   Some (VRepetitive [[VInt 3]; [VInt 15]])]) = Some b /\
     item_decode_bytes Debug
       (Compound [mkSubItem 0 (Fixed 1 [Field "a" 8]);
                  mkSubItem 1 (Extended 2 [mkPartGroup 0 [Field "b" 7];
                                           mkPartGroup 1 [EPB (Enum "e" 6 [("x"%string, 1); ("y"%string, 2)])]]);
                  mkSubItem 9 (Repetitive 1 2 [Field "c" 4; Spare 4])]) b =
       Some (VCompound [Some (VSimple [VInt 200]);
                        Some (VExtended [Some [VInt 5]; Some [VOptEnum (Some (Known 1))]]);
                        Some (VRepetitive [[VInt 3]; [VInt 15]])])) /\
  (exists b,
     record_encode_bytes Release
       [mkItem 10 0 (Fixed 2 [Field "sac" 8; Field "sic" 8]);
        mkItem 20 1 (Compound [mkSubItem 0 (Fixed 1 [Field "a" 8]); mkSubItem 8 (Fixed 1 [Field "b" 8])])]
       [Some (VSimple [VInt 25; VInt 201]);
        Some (VCompound [None; Some (VSimple [VInt 7])])] = Some b /\
     record_decode_bytes Release
       [mkItem 10 0 (Fixed 2 [Field "sac" 8; Field "sic" 8]);
        mkItem 20 1 (Compound [mkSubItem 0 (Fixed 1 [Field "a" 8]); mkSubItem 8 (Fixed 1 [Field "b" 8])])] b =
       Some [Some (VSimple [VInt 25; VInt 201]);
             Some (VCompound [None; Some (VSimple [VInt 7])])]) /\
  (exists b,
     datablock_encode_bytes Debug
       (mkCategory 48 [mkItem 10 0 (Fixed 2 [Field "sac" 8; Field "sic" 8]);
                       mkItem 40 7 (Extended 1 [mkPartGroup 0 [Field "x" 7]])])
       [[Some (VSimple [VInt 25; VInt 201]); None];
        [None; Some (VExtended [Some [VInt 100]])]] = Some b /\
     datablock_decode_bytes Debug
       (mkCategory 48 [mkItem 10 0 (Fixed 2 [Field "sac" 8; Field "sic" 8]);
                       mkItem 40 7 (Extended 1 [mkPartGroup 0 [Field "x" 7]])]) b =
       Some [[Some (VSimple [VInt 25; VInt 201]); None];
             [None; Some (VExtended [Some [VInt 100]])]]).
Proof.
  destruct generated_roundtrip as (Hi & Hr & Hd).
  split; [apply Hi; vm_compute; reflexivity|].
  split; [apply Hr; vm_compute; reflexivity|].
  destruct (Hd Debug
              (mkCategory 48 [mkItem 10 0 (Fixed 2 [Field "sac" 8; Field "sic" 8]);
                              mkItem 40 7 (Extended 1 [mkPartGroup 0 [Field "x" 7]])])
              [[Some (VSimple [VInt 25; VInt 201]); None];
               [None; Some (VExtended [Some [VInt 100]])]]
              ltac:(vm_compute; reflexivity)
              ltac:(repeat constructor)
              ltac:(cbn; lia)) as [[payload Hp] Hall].
  apply (Hall payload Hp).
  vm_compute in Hp. injection Hp as <-. cbn. lia.
Defined.

(** C2 (counterexample): re-encoding a decoded value does not always give
    back the bytes. Spare bits are re-encoded as zeros: for a 1-byte
    Fixed item with a 4-bit field and 4 spare bits, [0x0F] decodes to
    [a = 0], which encodes to [0x00]. The bits after an EPB validity bit
    of 0 are re-encoded as zeros: [0x05] decodes to [None], which encodes
    to [0x00]. The length byte of an Explicit item is re-encoded as
    [bytes + 1]: [0x05 0x07] decodes to [a = 7], which encodes to
    [0x02 0x07]. *)
Lemma item_byte_roundtrip_counterexample :
  layout_ok (Fixed 1 [Field "a" 4; Spare 4]) = true /\
  item_decode_bytes Debug (Fixed 1 [Field "a" 4; Spare 4]) [15] = Some (VSimple [VInt 0]) /\
  item_encode_bytes Debug (Fixed 1 [Field "a" 4; Spare 4]) (VSimple [VInt 0]) = Some [0] /\
  layout_ok (Fixed 1 [EPB (Field "a" 7)]) = true /\
  item_decode_bytes Debug (Fixed 1 [EPB (Field "a" 7)]) [5] = Some (VSimple [VOptInt None]) /\
  item_encode_bytes Debug (Fixed 1 [EPB (Field "a" 7)]) (VSimple [VOptInt None]) = Some [0] /\
  layout_ok (Explicit 1 [Field "a" 8]) = true /\
  item_decode_bytes Debug (Explicit 1 [Field "a" 8]) [5; 7] = Some (VSimple [VInt 7]) /\
  item_encode_bytes Debug (Explicit 1 [Field "a" 8]) (VSimple [VInt 7]) = Some [2; 7].
Proof. repeat split; vm_compute; reflexivity. Qed.

(** C2 (as the code behaves): for a legal schema, a value that the
    generated decode reads from bytes [b] is a legal value; encoding it
    succeeds and gives bytes that decode to the same value again. So
    [decode(encode(decode(b))) = decode(b)], while [encode(decode(b))]
    itself can differ from [b]. *)
Theorem item_decode_reencode p l b v :
  layout_ok l = true -> item_decode_bytes p l b = Some v ->
  value_ok l v = true /\
  exists b', item_encode_bytes p l v = Some b' /\ item_decode_bytes p l b' = Some v.
Proof.
  intros Hl H. unfold item_decode_bytes in H.
  destruct (item_decode p l (reader_new b)) as [[v' r']|] eqn:E; [|discriminate].
  cbv beta iota in H. injection H as <-.
  pose proof (item_decode_ok p l (reader_new b) v' r' Hl E) as Hv.
  split; [exact Hv|]. exact (item_bytes_roundtrip p l v' Hl Hv).
Qed.

Lemma item_decode_reencode_witness :
  layout_ok (Fixed 1 [Field "a" 4; Spare 4]) = true /\
  item_decode_bytes Debug (Fixed 1 [Field "a" 4; Spare 4]) [15] = Some (VSimple [VInt 0]) /\
  value_ok (Fixed 1 [Field "a" 4; Spare 4]) (VSimple [VInt 0]) = true /\
  exists b', item_encode_bytes Debug (Fixed 1 [Field "a" 4; Spare 4]) (VSimple [VInt 0]) = Some b' /\
    item_decode_bytes Debug (Fixed 1 [Field "a" 4; Spare 4]) b' = Some (VSimple [VInt 0]).
Proof.
  assert (H1 : layout_ok (Fixed 1 [Field "a" 4; Spare 4]) = true) by reflexivity.
  assert (H2 : item_decode_bytes Debug (Fixed 1 [Field "a" 4; Spare 4]) [15] = Some (VSimple [VInt 0]))
    by (vm_compute; reflexivity).
  split; [exact H1|]. split; [exact H2|].
  exact (item_decode_reencode Debug _ _ _ H1 H2).
Defined.

End GenClaims.

(** ** Further properties of the code *)

Module FspecX.
Import Fspec FspecMore.



(** [Fspec::read] fails (a short read) exactly when no byte of the
    source has its FX bit (the LSB) clear. *)
Theorem fspec_read_unterminated (input : list Z) :
  read input = None <-> Forall (fun b => Z.land b 1 <> 0) input.
Proof.
  unfold read. rewrite <- read_bytes_none.
  destruct (read_bytes input) as [[bs rest]|]; split; congruence.
Qed.

(** [Fspec::read] consumes a prefix of the source that [write] gives back
    verbatim, and reads the same FSPEC in front of any other bytes. *)
Theorem fspec_read_write (input rest : list Z) (f : Fspec) :
  read input = Some (f, rest) ->
  input = write f ++ rest /\ forall rest', read (write f ++ rest') = Some (f, rest').
Proof.
  unfold read. destruct (read_bytes input) as [[bs rest1]|] eqn:E; [|discriminate].
  intros H. injection H as <- <-. destruct (read_bytes_app _ _ _ E) as [H1 H2].
  split; [exact H1|]. intros rest'. unfold write. cbn [bytes]. rewrite H2. reflexivity.
Qed.

Lemma fspec_read_write_witness :
  read [129; 3; 64; 7] = Some (mkFspec [129; 3; 64], [7]) /\
  [129; 3; 64; 7] = write (mkFspec [129; 3; 64]) ++ [7] /\
  read (write (mkFspec [129; 3; 64]) ++ [1; 1]) = Some (mkFspec [129; 3; 64], [1; 1]).
Proof.
  assert (H : read [129; 3; 64; 7] = Some (mkFspec [129; 3; 64], [7])) by reflexivity.
  destruct (fspec_read_write _ _ _ H) as [H1 H2].
  split; [exact H|]. split; [exact H1|]. exact (H2 [1; 1]).
Defined.

(** The FSPEC built by [set] calls with [k <= 7] depends only on the set
    of positions: neither their order nor repetitions matter. *)
Theorem fspec_set_all_order_free (f : Fspec) (ps ps' : list (nat * nat)) :
  Forall (fun p => (snd p <= 7)%nat) ps -> (forall x, In x ps <-> In x ps') ->
  set_all f ps = set_all f ps'.
Proof.
  intros Hps Hin.
  pose proof (Forall_same _ _ _ Hin Hps) as Hps'.
  destruct (set_all_spec ps f Hps) as (g & E & Hl & Hb).
  destruct (set_all_spec ps' f Hps') as (g' & E' & Hl' & Hb').
  rewrite E, E'. f_equal. apply bytes_ext.
  - assert (Hsym : forall x, In x ps' <-> In x ps) by (intros x; symmetry; apply Hin).
    apply Nat.le_antisymm.
    + apply Hl. pose proof (proj1 (Hl' _) (le_n _)) as [A B].
      split; [exact A|exact (Forall_same _ _ _ Hsym B)].
    + apply Hl'. pose proof (proj1 (Hl _) (le_n _)) as [A B].
      split; [exact A|exact (Forall_same _ _ _ Hin B)].
  - intros i j. rewrite Hb, Hb'.
    rewrite (existsb_same _ _ _ Hin), (existsb_same (fun p => Nat.ltb i (fst p)) _ _ Hin).
    reflexivity.
Qed.

Lemma fspec_set_all_order_free_witness :
  set_all new [(2, 3); (0, 0); (2, 3); (1, 6)]%nat = set_all new [(0, 0); (1, 6); (2, 3)]%nat.
Proof.
  apply fspec_set_all_order_free.
  - repeat constructor; simpl; lia.
  - intros x. simpl. tauto.
Defined.

End FspecX.

Module BitX.
Import BitIO Gen GenFacts BitStrings.

(** [read_bits] fails (a short read) exactly when fewer bits are left in
    the buffer and the source than requested. *)
Theorem read_bits_short (r : BitReader) (n : nat) :
  read_bits r n = None <-> (bits_left r + 8 * length (input r) < n)%nat.
Proof. apply DecodeMore.read_loop_short. Qed.

(** [flush] pads the partial byte with zero bits up to the next byte
    boundary, leaves the writer aligned, and a second [flush] does nothing. *)
Theorem flush_pads_zeros (w : BitWriter) :
  writer_wf w ->
  stream_bits (out (flush w)) = writer_bits w ++ repeat false ((8 - bits_filled w) mod 8) /\
  is_byte_aligned (flush w) = true /\ flush (flush w) = flush w.
Proof.
  intros Hw. destruct (flush_spec2 w Hw) as (pad & Hp & _ & H0 & E).
  split; [|split; [unfold is_byte_aligned; rewrite H0; reflexivity|exact (flush_aligned _ H0)]].
  rewrite E. f_equal.
  destruct w as [o buf f]. destruct Hw as [Hf [Hb Ho]]. unfold flush, writer_bits in *.
  cbn [out buffer bits_filled] in *.
  destruct (Nat.ltb_spec 0 f) as [Hpos|Hz].
  - cbn [out] in E. rewrite stream_bits_app, <- app_assoc in E. apply app_inv_head in E.
    unfold stream_bits in E. cbn [flat_map] in E. rewrite app_nil_r in E.
    change 255 with (Z.ones 8) in E. rewrite Z.land_ones in E by lia.
    rewrite Z.mod_small in E.
    + assert (Hm : bits_msb (Z.shiftl buf (Z.of_nat (8 - f))) 8 = bits_msb buf f ++ repeat false (8 - f))
        by (rewrite <- bits_msb_shiftl; f_equal; lia).
      rewrite Hm in E.
      apply app_inv_head in E. rewrite Nat.mod_small by lia. exact (eq_sym E).
    + split; [apply Z.shiftl_nonneg; lia|]. rewrite Z.shiftl_mul_pow2 by lia.
      replace (2 ^ 8) with (2 ^ Z.of_nat f * 2 ^ Z.of_nat (8 - f)).
      * apply Z.mul_lt_mono_pos_r; [apply Z.pow_pos_nonneg|]; lia.
      * rewrite <- Z.pow_add_r, <- Nat2Z.inj_add by lia.
        replace (f + (8 - f))%nat with 8%nat by lia. reflexivity.
  - assert (f = 0%nat) by lia. subst f. cbn [out] in E. cbn [bits_msb] in E.
    rewrite app_nil_r in E. rewrite <- (app_nil_r (stream_bits o)) in E at 1.
    apply app_inv_head in E. rewrite <- E. reflexivity.
Qed.

Lemma flush_pads_zeros_witness :
  stream_bits (out (flush (mkWriter [171] 5 3))) =
    writer_bits (mkWriter [171] 5 3) ++ repeat false ((8 - 3) mod 8) /\
  is_byte_aligned (flush (mkWriter [171] 5 3)) = true /\
  flush (flush (mkWriter [171] 5 3)) = flush (mkWriter [171] 5 3).
Proof.
  apply (flush_pads_zeros (mkWriter [171] 5 3)).
  unfold writer_wf. cbn. split; [lia|]. split; [lia|]. repeat constructor; lia.
Defined.

Lemma Forall_string_bytes s n :
  Forall is_byte s -> Forall (fun p => (snd p <= 64)%nat) (map (fun b => (b, 8%nat)) (firstn n s ++ repeat 32 (n - length s))) /\
  Forall is_byte (firstn n s ++ repeat 32 (n - length s)).
Proof.
  intros Hs. split.
  - apply Forall_map, Forall_forall. intros x _. cbn. lia.
  - apply Forall_app. split.
    + apply Forall_forall. intros x Hx. apply (proj1 (Forall_forall _ _) Hs). rewrite <- (firstn_skipn n s). apply in_or_app. left. exact Hx.
    + apply Forall_forall. intros x Hx. apply repeat_spec in Hx. subst. unfold is_byte. lia.
Qed.

Lemma write_string_spec (w : BitWriter) (s : list Z) (n : nat) :
  writer_wf w -> Forall is_byte s ->
  exists w', write_string w s n = Some w' /\ writer_wf w' /\
    writer_bits w' = writer_bits w ++ stream_bits (firstn n s ++ repeat 32 (n - length s)).
Proof.
  intros Hw Hs. destruct (Forall_string_bytes s n Hs) as [H64 _].
  destruct (write_all_spec _ w H64 Hw) as (w' & E & Hw' & B).
  exists w'. unfold write_string. rewrite string_writes, E.
  split; [reflexivity|]. split; [exact Hw'|]. rewrite B, flat_map_bytes. reflexivity.
Qed.

(** [write_string(s, n)] writes the first [n] bytes of [s], then spaces
    ([0x20]) up to [n] bytes. *)
Theorem write_string_bytes (w : BitWriter) (s : list Z) (n : nat) :
  writer_wf w -> Forall is_byte s ->
  exists w', write_string w s n = Some w' /\ writer_wf w' /\
    writer_bits w' = writer_bits w ++ stream_bits (firstn n s ++ repeat 32 (n - length s)).
Proof. exact (write_string_spec w s n). Qed.

Lemma write_string_bytes_witness :
  exists w', write_string (mkWriter [] 1 1) [65; 66; 67] 2 = Some w' /\ writer_wf w' /\
    writer_bits w' = writer_bits (mkWriter [] 1 1) ++ stream_bits (firstn 2 [65; 66; 67] ++ repeat 32 (2 - 3)).
Proof.
  apply write_string_bytes.
  - unfold writer_wf. cbn. split; [lia|]. split; [lia|constructor].
  - repeat constructor; unfold is_byte; lia.
Defined.

(** A string read by [read_string] never ends with a space or a NUL. *)
Theorem read_string_trimmed (r : BitReader) (n : nat) (cs : list Z) (r' : BitReader) :
  read_string r n = Some (cs, r') ->
  match rev cs with c :: _ => c <> 32 /\ c <> 0 | [] => True end.
Proof.
  unfold read_string. destruct (read_payload n r) as [[bytes r1]|]; [|discriminate].
  cbv beta iota. intros H. injection H as <- _. unfold trim_end. rewrite rev_involutive.
  pose proof (skip_while_head is_pad (rev (from_utf8_lossy bytes))) as Hh.
  destruct (skip_while is_pad _) as [|c t]; [exact I|].
  unfold is_pad in Hh. apply orb_false_iff in Hh as [H1 H2].
  apply Z.eqb_neq in H1, H2. split; assumption.
Qed.

Lemma read_string_trimmed_witness :
  read_string (reader_new [65; 0; 66; 32; 0; 32]) 6 = Some ([65; 0; 66], mkReader [] 32 0) /\
  match rev [65; 0; 66] with c :: _ => c <> 32 /\ c <> 0 | [] => True end.
Proof.
  assert (H : read_string (reader_new [65; 0; 66; 32; 0; 32]) 6 = Some ([65; 0; 66], mkReader [] 32 0))
    by (vm_compute; reflexivity).
  split; [exact H|]. exact (read_string_trimmed _ _ _ _ H).
Defined.

(** An ASCII string of at most [n] bytes not ending in a space or NUL,
    written with [write_string(s, n)], reads back with [read_string(n)],
    and exactly [n] bytes are consumed. *)
Theorem string_roundtrip (s : list Z) (n : nat) (rest : list Z) :
  Forall (fun b => 0 <= b < 128) s -> (length s <= n)%nat ->
  match rev s with c :: _ => c <> 32 /\ c <> 0 | [] => True end ->
  Forall is_byte rest ->
  exists w, write_string writer_new s n = Some w /\ is_byte_aligned w = true /\
    exists r', read_string (reader_new (out w ++ rest)) n = Some (s, r') /\ input r' = rest.
Proof.
  intros Hs Hn Hlast Hrest.
  assert (Hsb : Forall is_byte s).
  { apply Forall_forall. intros x Hx. pose proof (proj1 (Forall_forall _ _) Hs x Hx) as Hx1. cbv beta in Hx1. unfold is_byte. lia. }
  destruct (write_string_spec writer_new s n writer_new_wf Hsb) as (w & E & Hw & B).
  set (B0 := firstn n s ++ repeat 32 (n - length s)) in B.
  assert (HB0 : B0 = s ++ repeat 32 (n - length s)) by (unfold B0; rewrite firstn_all2 by lia; reflexivity).
  destruct (Forall_string_bytes s n Hsb) as [_ HBb]. fold B0 in HBb.
  assert (Hlen : length B0 = n).
  { unfold B0. rewrite length_app, length_firstn, repeat_length. lia. }
  clearbody B0.
  assert (Lw : length (writer_bits w) = (8 * length B0)%nat).
  { rewrite B, length_app, length_stream_bits. reflexivity. }
  destruct (writer_aligned_out w _ Hw Lw) as [H0 Ho].
  rewrite B in Ho. change (writer_bits writer_new) with (@nil bool) in Ho. cbn [app] in Ho.
  rewrite <- (app_nil_r (stream_bits B0)), (bytes_of_stream_bits B0 [] HBb) in Ho.
  exists w. split; [exact E|]. split; [unfold is_byte_aligned; rewrite H0; reflexivity|].
  assert (Hr : reader_bits (reader_new (out w ++ rest)) = stream_bits B0 ++ stream_bits rest).
  { rewrite reader_new_bits, Ho, stream_bits_app. reflexivity. }
  assert (Hrw : reader_wf (reader_new (out w ++ rest))).
  { apply reader_new_wf. rewrite Ho. apply Forall_app. split; assumption. }
  destruct (read_payload_spec B0 _ _ Hrw HBb Hr) as (r' & Er & Hrw' & Hr').
  rewrite Hlen in Er.
  exists r'. unfold read_string. rewrite Er. cbv beta iota.
  split.
  - f_equal. rewrite HB0, from_utf8_lossy_ascii.
    + f_equal. apply trim_end_pad. destruct (rev s) as [|c t]; [exact I|].
      destruct Hlast as [H1 H2]. unfold is_pad. apply orb_false_iff.
      split; apply Z.eqb_neq; assumption.
    + apply Forall_app. split; [exact Hs|]. apply Forall_forall. intros x Hx.
      apply repeat_spec in Hx. subst. lia.
  - rewrite <- (app_nil_l (stream_bits rest)) in Hr'.
    exact (proj1 (reader_sync r' [] rest Hrw' Hr' ltac:(cbn; lia) Hrest)).
Qed.

Lemma string_roundtrip_witness :
  exists w, write_string writer_new [84; 69; 83; 84] 8 = Some w /\ is_byte_aligned w = true /\
    exists r', read_string (reader_new (out w ++ [1; 2])) 8 = Some ([84; 69; 83; 84], r') /\
      input r' = [1; 2].
Proof.
  apply string_roundtrip.
  - repeat constructor; lia.
  - cbn. lia.
  - cbn. split; discriminate.
  - repeat constructor; unfold is_byte; lia.
Defined.

End BitX.

Module DataBlockX.
Import BitIO CodegenIR Gen GenFacts DecodeMore.

(** A data block whose first byte is not the category id is refused. *)
Theorem datablock_decode_wrong_category (p : profile) (cat : IRCategory) (c : Z) (rest : list Z) :
  is_byte c -> c <> category_id cat -> datablock_decode_bytes p cat (c :: rest) = None.
Proof.
  intros Hc Hne. unfold datablock_decode_bytes, datablock_decode, reader_new.
  rewrite read_byte by exact Hc. cbv beta iota.
  rewrite as_u8_id by exact Hc.
  destruct (Z.eqb_spec c (category_id cat)); [contradiction|reflexivity].
Qed.

Lemma datablock_decode_wrong_category_witness :
  is_byte 62 /\ 62 <> category_id (mkCategory 48 []) /\  datablock_decode_bytes Release (mkCategory 48 []) [62; 0; 3] = None.
Proof.
  assert (H1 : is_byte 62) by (unfold is_byte; lia).
  assert (H2 : 62 <> category_id (mkCategory 48 [])) by (cbn; lia).
  split; [exact H1|]. split; [exact H2|].
  exact (datablock_decode_wrong_category Release (mkCategory 48 []) 62 [0; 3] H1 H2).
Defined.

(** A LEN field below 3 (shorter than the header itself) is refused. *)
Theorem datablock_decode_len_too_small (p : profile) (cat : IRCategory) (hi lo : Z) (rest : list Z) :
  0 <= category_id cat < 256 -> is_byte hi -> is_byte lo -> 256 * hi + lo < 3 ->
  datablock_decode_bytes p cat (category_id cat :: hi :: lo :: rest) = None.
Proof.
  intros Hc Hh Hl Hlt. unfold datablock_decode_bytes, datablock_decode, reader_new.
  rewrite read_byte by exact Hc. cbv beta iota.
  rewrite as_u8_id, Z.eqb_refl by exact Hc. cbn [negb].
  rewrite read_u16 by assumption. cbv beta iota zeta.
  unfold DataBlock.as_u16. unfold is_byte in *.
  rewrite Z.mod_small by (change (2 ^ 16) with 65536; lia).
  destruct (Z.ltb_spec (256 * hi + lo) 3); [reflexivity|lia].
Qed.

Lemma datablock_decode_len_too_small_witness :
  datablock_decode_bytes Debug (mkCategory 48 []) [48; 0; 2; 7] = None.
Proof.
  apply (datablock_decode_len_too_small Debug (mkCategory 48 []) 0 2 [7]);
    cbn; unfold is_byte; lia.
Defined.

(** A decoded data block is framed by its header: CAT, then LEN as a
    big-endian 16-bit value of at least 3, and the decoder consumes
    exactly [LEN - 3] payload bytes after the header, leaving the reader
    at a byte boundary. *)
Theorem datablock_decode_frame (p : profile) (cat : IRCategory) (b : list Z)
    (recs : list (list (option ItemValue))) (r' : BitReader) :
  Forall is_byte b -> datablock_decode p cat (reader_new b) = Some (recs, r') ->
  exists hi lo t, b = category_id cat :: hi :: lo :: t /\ 3 <= 256 * hi + lo /\    (Z.to_nat (256 * hi + lo - 3) <= length t)%nat /\    input r' = skipn (Z.to_nat (256 * hi + lo - 3)) t /\ bits_left r' = 0%nat.
Proof.
  intros Hb H. unfold datablock_decode, reader_new in H.
  destruct b as [|c b]; [rewrite read_bits_nil in H; discriminate|].
  inversion Hb as [|? ? Hc Hb']; subst.
  rewrite read_byte in H by exact Hc. cbv beta iota in H.
  rewrite as_u8_id in H by exact Hc.
  destruct (Z.eqb_spec c (category_id cat)) as [->|]; [|discriminate]. cbn [negb] in H.
  destruct b as [|hi b]; [rewrite read_bits_nil in H; discriminate|].
  destruct b as [|lo t]; [rewrite read16_one in H; discriminate|].
  inversion Hb' as [|? ? Hh Hb'']; subst. inversion Hb'' as [|? ? Hl Ht]; subst.
  rewrite read_u16 in H by assumption. cbv beta iota zeta in H.
  unfold DataBlock.as_u16 in H. unfold is_byte in Hh, Hl.
  rewrite Z.mod_small in H by (change (2 ^ 16) with 65536; lia).
  destruct (Z.ltb_spec (256 * hi + lo) 3); [discriminate|].
  destruct (read_payload _ (mkReader t lo 0)) as [[payload r3]|] eqn:E3; [|discriminate].
  cbv beta iota in H.
  destruct (records_decode _ _ _ _); [|discriminate]. injection H as _ <-.
  destruct (read_payload_shape _ _ _ _ _ E3) as (H1 & H2 & H3).
  exists hi, lo, t. repeat split; assumption || lia.
Qed.

Lemma datablock_decode_frame_witness :
  exists hi lo t,
    [48; 0; 5; 128; 9; 7] = category_id (mkCategory 48 [mkItem 10 0 (Fixed 1 [Field "a" 8])]) :: hi :: lo :: t /\    3 <= 256 * hi + lo /\ (Z.to_nat (256 * hi + lo - 3) <= length t)%nat /\    input (mkReader [7] 9 0) = skipn (Z.to_nat (256 * hi + lo - 3)) t /\ bits_left (mkReader [7] 9 0) = 0%nat.
Proof.
  apply (datablock_decode_frame Debug (mkCategory 48 [mkItem 10 0 (Fixed 1 [Field "a" 8])])
           [48; 0; 5; 128; 9; 7] [[Some (VSimple [VInt 9])]] (mkReader [7] 9 0)).
  - repeat constructor; unfold is_byte; lia.
  - vm_compute. reflexivity.
Defined.

(** Decoding an encoded data block from a stream stops at its end: the
    bytes after it are left, unread, for the next block. *)
Theorem datablock_decode_leaves_rest (p : profile) (cat : IRCategory)
    (recs : list (list (option ItemValue))) (payload rest : list Z) :
  record_schema_ok (items cat) = true -> Forall (fun rec => record_value_ok (items cat) rec = true) recs ->
  0 <= category_id cat < 256 ->
  records_payload p (items cat) recs = Some payload -> Z.of_nat (length payload) <= 65532 ->
  Forall is_byte rest ->
  exists b, datablock_encode_bytes p cat recs = Some b /\    exists r', datablock_decode p cat (reader_new (b ++ rest)) = Some (recs, r') /\      input r' = rest /\ bits_left r' = 0%nat.
Proof.
  intros Hl Hr Hc Hp Hn Hrest.
  destruct (datablock_roundtrip p cat recs payload Hl Hr Hc Hp Hn) as (bs & k & Hk & He & Hd).
  destruct (encodes_bytes _ bs k Hk He) as (b & Eb & Sb & Hb).
  exists b. split; [exact Eb|]. subst bs.
  destruct (Hd (reader_new (b ++ rest)) (stream_bits rest)) as (r' & E & Hw' & H0' & B');
    [apply reader_new_wf, Forall_app; auto|reflexivity|rewrite reader_new_bits; apply stream_bits_app|].
  exists r'. split; [exact E|]. split; [|exact H0'].
  exact (proj1 (reader_sync r' [] rest Hw' B' ltac:(cbn; lia) Hrest)).
Qed.

Lemma datablock_decode_leaves_rest_witness :
  exists b, datablock_encode_bytes Release (mkCategory 48 [mkItem 10 0 (Fixed 1 [Field "a" 8])])
              [[Some (VSimple [VInt 9])]; [None]] = Some b /\    exists r', datablock_decode Release (mkCategory 48 [mkItem 10 0 (Fixed 1 [Field "a" 8])])
                 (reader_new (b ++ [62; 0])) = Some ([[Some (VSimple [VInt 9])]; [None]], r') /\      input r' = [62; 0] /\ bits_left r' = 0%nat.
Proof.
  apply (datablock_decode_leaves_rest Release (mkCategory 48 [mkItem 10 0 (Fixed 1 [Field "a" 8])])
           _ [128; 9; 0]).
  - vm_compute. reflexivity.
  - repeat constructor.
  - cbn. lia.
  - vm_compute. reflexivity.
  - cbn. lia.
  - repeat constructor; unfold is_byte; lia.
Defined.

(** A data block with no records is its 3-byte header [CAT 0x00 0x03],
    and that header decodes to no records. *)
Theorem datablock_empty (p : profile) (cat : IRCategory) :
  0 <= category_id cat < 256 ->
  datablock_encode_bytes p cat [] = Some [category_id cat; 0; 3] /\  datablock_decode_bytes p cat [category_id cat; 0; 3] = Some [].
Proof.
  intros Hc. split.
  - set (c := category_id cat).
    assert (E : datablock_encode p cat [] writer_new = write_all writer_new [(c, 8%nat); (3, 16%nat)]).
    { unfold datablock_encode. cbn [records_payload records_encode].
      cbv beta iota. unfold DataBlock.encode_frame.
      assert (Hl : DataBlock.total_len p (Z.of_nat (length (out (flush writer_new)))) = Some 3)
        by (destruct p; reflexivity).
      rewrite Hl. cbv beta iota. cbn [write_all map].
      unfold c. destruct (write_bits writer_new (category_id cat) 8) as [w1|]; [|reflexivity]. cbv beta iota.
      destruct (write_bits w1 3 16) as [w2|]; reflexivity. }
    unfold datablock_encode_bytes. rewrite E.
    destruct (write_all_spec [(c, 8%nat); (3, 16%nat)] writer_new
                ltac:(repeat constructor; cbn; lia) writer_new_wf) as (w & Ew & Hw & B).
    rewrite Ew. cbv beta iota.
    assert (Bs : writer_bits w = stream_bits [c; 0; 3] ++ []) by (rewrite B; reflexivity).
    destruct (writer_aligned_out w 3 Hw ltac:(rewrite Bs; reflexivity)) as [H0 Ho].
    rewrite flush_aligned by exact H0. rewrite Ho, Bs.
    change 3%nat with (length [c; 0; 3]) at 1. rewrite bytes_of_stream_bits; [reflexivity|].
    repeat constructor; lia.
  - unfold datablock_decode_bytes, datablock_decode, reader_new.
    rewrite read_byte by exact Hc. cbv beta iota.
    rewrite as_u8_id, Z.eqb_refl by exact Hc. cbn [negb].
    rewrite read_u16 by (unfold is_byte; lia). reflexivity.
Qed.

Lemma datablock_empty_witness :
  datablock_encode_bytes Debug (mkCategory 21 [mkItem 10 0 (Fixed 1 [Field "a" 8])]) [] = Some [21; 0; 3] /\  datablock_decode_bytes Debug (mkCategory 21 [mkItem 10 0 (Fixed 1 [Field "a" 8])]) [21; 0; 3] = Some [].
Proof. apply (datablock_empty Debug (mkCategory 21 [mkItem 10 0 (Fixed 1 [Field "a" 8])])). cbn. lia. Defined.

End DataBlockX.

Module RecordX.
Import BitIO CodegenIR Gen GenFacts DecodeMore.

(** A record with no item present is the single FSPEC byte [0x00]; a
    record starting with [0x00] has no item present, whatever follows. *)
Theorem record_no_items (p : profile) (its : list IRItem) :
  record_encode_bytes p its (map (fun _ => None) its) = Some [0] /\  forall rest, record_decode_bytes p its (0 :: rest) = Some (map (fun _ => None) its).
Proof.
  split.
  - unfold record_encode_bytes, record_encode. rewrite present_positions_frn_none.
    cbv beta iota. cbn [Fspec.set_all]. cbv beta iota.
    assert (Hw : forall p, write_bytes p writer_new (Fspec.write Fspec.new) = Some (mkWriter [0] 0 0))
      by (intros []; reflexivity).
    rewrite Hw. cbv beta iota. unfold nested_write.
    rewrite items_encode_none. cbv beta iota. reflexivity.
  - intros rest. unfold record_decode_bytes, record_decode.
    assert (Hf : forall p, fspec_read p (reader_new (0 :: rest)) = Some (Fspec.mkFspec [0], mkReader rest 0 0))
      by (intros []; reflexivity).
    rewrite Hf. cbv beta iota. unfold nested_read. cbn [input].
    rewrite items_decode_zero. cbv beta iota.
    destruct p; reflexivity.
Qed.

(** An FSPEC is terminated by a byte whose FX bit (the LSB) is 0: when
    every byte has its FX bit set the FSPEC never ends, and neither a
    record nor a Compound item decodes. *)
Theorem fspec_unterminated_rejected (p : profile) (its : list IRItem) (subs : list IRSubItem)
    (b : list Z) :
  Forall (fun x => Z.land x 1 <> 0) b ->
  record_decode_bytes p its b = None /\ item_decode_bytes p (Compound subs) b = None.
Proof.
  intros H. apply FspecMore.read_bytes_none in H.
  assert (Hr : Fspec.read b = None) by (unfold Fspec.read; rewrite H; reflexivity).
  assert (Hf : fspec_read p (reader_new b) = None)
    by (unfold fspec_read, reader_new; cbn [bits_left input Nat.eqb]; rewrite Hr; destruct p; reflexivity).
  split.
  - unfold record_decode_bytes, record_decode. rewrite Hf. reflexivity.
  - unfold item_decode_bytes, item_decode, compound_decode. rewrite Hf. reflexivity.
Qed.

Lemma fspec_unterminated_rejected_witness :
  record_decode_bytes Release [mkItem 10 0 (Fixed 1 [Field "a" 8])] [129; 3; 255] = None /\  item_decode_bytes Release (Compound [mkSubItem 0 (Fixed 1 [Field "a" 8])]) [129; 3; 255] = None.
Proof.
  apply fspec_unterminated_rejected. repeat constructor; cbn; discriminate.
Defined.

(** The length byte of an Explicit item is read and ignored: decoding
    [x :: b] as an Explicit item gives what decoding [b] as the Fixed item
    with the same elements gives, whatever [x]. *)
Theorem explicit_decode_skips_length (p : profile) (n : nat) (es : list IRElement) (x : Z) (b : list Z) :
  item_decode_bytes p (Explicit n es) (x :: b) = item_decode_bytes p (Fixed n es) b.
Proof.
  unfold item_decode_bytes, item_decode, layout_decode, reader_new.
  destruct (read8_shape x b 0) as [v E]. rewrite E. cbv beta iota.
  pose proof (same_result_fst _ _ (elements_decode_same es (mkReader b x 0) (mkReader b 0 0)
                                    ltac:(repeat split; left; reflexivity))) as F.
  destruct (elements_decode (mkReader b x 0) es) as [[fs1 r1]|],
           (elements_decode (mkReader b 0 0) es) as [[fs2 r2]|]; cbn in F; try discriminate;
    [|reflexivity]. injection F as ->. reflexivity.
Qed.

(** [From<Enum> for u8] undoes [TryFrom<u8>]: every byte value comes back. *)
Theorem enum_try_from_to_u8 (values : list (string * Z)) (v : Z) :
  to_u8 values (try_from values v) = v.
Proof. exact (to_u8_try_from_from v values []). Qed.

End RecordX.

Module NamesX.
Import Names NamesMore.
Local Open Scope char_scope.





End NamesX.

Module LowererX.
Import CodegenIR Names Lowerer.



End LowererX.
